(** * mifid_tx_gen: the schema-ordered document construction engine

    A shallow embedding of the Python package [mifid_tx_gen] (config.py,
    domain.py, mapper.py, csv_reader.py, xml_builder.py,
    xml_builder_iso.py, generator.py and the parts of validator.py that
    do not call the schema library) together with the properties its
    specification states about it and further properties of the code.

    Conventions of the embedding.
    - Python [str] is [string]; [dict] is [gmap] where only lookups matter
      and an association list where iteration order is observable.
    - A raised exception is the [Raise] branch of [result]; nothing in the
      package catches the exceptions modelled here, so a raise aborts the
      whole call chain.
    - The process environment, the clock and the random message identifier
      are read from an explicit [world] record, the same for all the reads
      of one run.
    - An XML element ([lxml.etree._Element], [xml.etree.ElementTree.Element])
      is an ordered tree.  [find] on a plain element name is the first direct
      child carrying exactly that tag; the path mini-language of the
      libraries is outside the repository and is not modelled.  The two
      builders are first written with every call into the tree library
      succeeding; the validation of names and texts by lxml is added in
      [LxmlBuilder], for the statements that depend on it. *)

From Stdlib Require Import String Ascii.
From stdpp Require Import gmap strings list sorting.

#[local] Set Warnings "-register-all".
Local Open Scope string_scope.
Local Open Scope list_scope.

(** ** Exceptions *)

Inductive exn : Type :=
  | KeyError (msg : string)
  | ValueError (msg : string)
  | AttributeError (msg : string).

Inductive result (A : Type) : Type :=
  | Ok (a : A)
  | Raise (e : exn).
Arguments Ok {A} a.
Arguments Raise {A} e.

Global Instance result_ret : MRet result := fun A a => Ok a.
Global Instance result_bind : MBind result := fun A B k m =>
  match m with
  | Ok a => k a
  | Raise e => Raise e
  end.

Definition is_ok {A : Type} (m : result A) : bool :=
  match m with Ok _ => true | Raise _ => false end.

(** A [for] loop that threads a value and stops at the first raise. *)
Fixpoint foldlM {A B : Type} (f : A -> B -> result A) (a : A) (l : list B)
    : result A :=
  match l with
  | [] => Ok a
  | b :: l' => a' ← f a b; foldlM f a' l'
  end.

(** ** Python string primitives *)

Module Str.

(** [s.startswith(p)] *)
Fixpoint startswith (p s : string) : bool :=
  match p with
  | EmptyString => true
  | String a p' =>
      match s with
      | EmptyString => false
      | String b s' => Ascii.eqb a b && startswith p' s'
      end
  end.

(** [s.endswith(suffix)] *)
Fixpoint endswith (suffix s : string) : bool :=
  String.eqb s suffix ||
  match s with
  | EmptyString => false
  | String _ s' => endswith suffix s'
  end.

(** [c in s] for a one-character [c] *)
Fixpoint contains (c : ascii) (s : string) : bool :=
  match s with
  | EmptyString => false
  | String b s' => Ascii.eqb b c || contains c s'
  end.

(** [s.lstrip(chars)], [s.rstrip(chars)], [s.strip(chars)], the character
    set given as a predicate *)
Fixpoint lstrip (p : ascii -> bool) (s : string) : string :=
  match s with
  | EmptyString => EmptyString
  | String c s' => if p c then lstrip p s' else s
  end.

Fixpoint rstrip (p : ascii -> bool) (s : string) : string :=
  match s with
  | EmptyString => EmptyString
  | String c s' =>
      match rstrip p s' with
      | EmptyString => if p c then EmptyString else String c EmptyString
      | r => String c r
      end
  end.

Definition strip (p : ascii -> bool) (s : string) : string :=
  rstrip p (lstrip p s).

(** [s.split(sep)]: never empty, so it is computed as head and tail *)
Fixpoint split_ne (sep : ascii) (s : string) : string * list string :=
  match s with
  | EmptyString => (EmptyString, [])
  | String c s' =>
      let '(h, t) := split_ne sep s' in
      if Ascii.eqb c sep then (EmptyString, h :: t) else (String c h, t)
  end.

Definition split (sep : ascii) (s : string) : list string :=
  let '(h, t) := split_ne sep s in h :: t.

(** [s.split(sep, 1)] when [sep in s]: the text before and after the first
    separator; [None] when [sep] does not occur *)
Fixpoint split_once (sep : ascii) (s : string) : option (string * string) :=
  match s with
  | EmptyString => None
  | String c s' =>
      if Ascii.eqb c sep then Some (EmptyString, s')
      else match split_once sep s' with
           | Some (a, b) => Some (String c a, b)
           | None => None
           end
  end.

(** truthiness of a string: [if s] *)
Definition truthy (s : string) : bool :=
  match s with EmptyString => false | String _ _ => true end.

(** [sub in s] for a string [sub] *)
Fixpoint isin (sub s : string) : bool :=
  startswith sub s ||
  match s with
  | EmptyString => false
  | String _ s' => isin sub s'
  end.

(** [all(p(c) for c in s)] *)
Fixpoint all (p : ascii -> bool) (s : string) : bool :=
  match s with
  | EmptyString => true
  | String c s' => p c && all p s'
  end.

End Str.

(** ** The outside world read by the package *)

Record world : Type := World {
  (** [os.environ] *)
  environ : gmap string string;
  (** [datetime.now(timezone.utc).isoformat(timespec="seconds")
       .replace("+00:00", "Z")] *)
  now_iso : string;
  (** [uuid.uuid4().hex] *)
  uuid4_hex : string;
  (** [datetime.datetime.utcnow().replace(microsecond=0).isoformat()] *)
  utcnow_iso : string
}.

(** [os.getenv(var, default)] *)
Definition getenv (w : world) (var default : string) : string :=
  match environ w !! var with
  | Some v => v
  | None => default
  end.

(** ** config.py *)

Record MappingRule : Type := mkMappingRule {
  from_field : string;
  to_path : string
}.

(** The static children of the root: a scalar leaf or a nested object, in
    the order the keys were declared.  Scalars are strings. *)
Inductive jval : Type :=
  | JStr (s : string)
  | JObj (members : list (string * jval)).

Record RootSpec : Type := mkRootSpec {
  qname : string;
  attributes : list (string * string);
  children : list (string * jval);
  xmlns : option string
}.

Record GeneratorConfig : Type := mkGeneratorConfig {
  namespaces : gmap string string;
  root : RootSpec;
  record_element : option string;
  fields : list MappingRule;
  record_container_qname : option string;
  record_element_qname : option string
}.

Definition is_brace (c : ascii) : bool :=
  Ascii.eqb c "{" || Ascii.eqb c "}".

(** [resolve_macros].  The unpacking [_, var, *rest = parts] raises
    [ValueError] on fewer than two parts. *)
Definition resolve_macros (w : world) (value : string) : result string :=
  if Str.startswith "{ENV:" value && Str.endswith "}" value then
    match Str.split ":" (Str.strip is_brace value) with
    | _ :: var :: rest =>
        let default := match rest with d :: _ => d | [] => "" end in
        Ok (getenv w var default)
    | _ => Raise (ValueError "not enough values to unpack")
    end
  else if String.eqb value "{NOW_ISO}" then Ok (now_iso w)
  else Ok value.

(** The two recognised macro forms, as [resolve_macros] tests them. *)
Definition is_macro (value : string) : bool :=
  (Str.startswith "{ENV:" value && Str.endswith "}" value)
  || String.eqb value "{NOW_ISO}".

(** ** domain.py and mapper.py *)

(** [TradeRecord.data]: a CSV row; a short row leaves a column at [None]. *)
Record TradeRecord : Type := mkTradeRecord {
  data : gmap string (option string)
}.

(** The value a rule resolves to: the column when the row has it, the
    rule's left side as a literal or macro otherwise. *)
Definition rule_value (w : world) (trade : TradeRecord) (rule : MappingRule)
    : result (option string) :=
  let src := from_field rule in
  match data trade !! src with
  | Some v => Ok v
  | None => v ← resolve_macros w src; Ok (Some v)
  end.

(** One iteration of the loop of [FieldMapper.to_xml_fields]. *)
Definition map_rule (w : world) (trade : TradeRecord) (rule : MappingRule)
    (pairs : list (string * string)) : result (list (string * string)) :=
  val ← rule_value w trade rule;
  match val with
  | None => Ok pairs
  | Some v =>
      if String.eqb v "" then Ok pairs
      else Ok (pairs ++ [(to_path rule, v)])
  end.

Fixpoint map_rules (w : world) (trade : TradeRecord) (rules : list MappingRule)
    (pairs : list (string * string)) : result (list (string * string)) :=
  match rules with
  | [] => Ok pairs
  | rule :: more =>
      pairs' ← map_rule w trade rule pairs;
      map_rules w trade more pairs'
  end.

Definition to_xml_fields (cfg : GeneratorConfig) (w : world)
    (trade : TradeRecord) : result (list (string * string)) :=
  map_rules w trade (fields cfg) [].

(** ** XML elements *)

(** An element of either tree library: its tag ([{uri}local] or a bare
    name), the namespace declarations given at creation, its attributes in
    insertion order, its text, and its children in document order. *)
Inductive element : Type := Element {
  tag : string;
  nsmap : list (option string * string);
  attrib : list (string * string);
  text : option string;
  child_nodes : list element
}.

(** [Element(tag)] *)
Definition new_element (t : string) : element := Element t [] [] None [].

Definition with_children (e : element) (l : list element) : element :=
  Element (tag e) (nsmap e) (attrib e) (text e) l.

(** [e.text = v] *)
Definition set_text (v : string) (e : element) : element :=
  Element (tag e) (nsmap e) (attrib e) (Some v) (child_nodes e).

(** Assignment to a key of an insertion-ordered dictionary. *)
Fixpoint dict_set (k v : string) (d : list (string * string))
    : list (string * string) :=
  match d with
  | [] => [(k, v)]
  | (k', v') :: d' =>
      if String.eqb k' k then (k, v) :: d' else (k', v') :: dict_set k v d'
  end.

Fixpoint dict_get (k : string) (d : list (string * string)) : option string :=
  match d with
  | [] => None
  | (k', v') :: d' => if String.eqb k' k then Some v' else dict_get k d'
  end.

(** [e.set(k, v)] *)
Definition set_attr (k v : string) (e : element) : element :=
  Element (tag e) (nsmap e) (dict_set k v (attrib e)) (text e) (child_nodes e).

(** [parent.append(child)], and [SubElement(parent, tag)] for a child that
    is filled in afterwards *)
Definition append_child (parent child : element) : element :=
  with_children parent (child_nodes parent ++ [child]).

(** [parent.insert(i, child)] *)
Definition insert_child (i : nat) (parent child : element) : element :=
  with_children parent
    (take i (child_nodes parent) ++ child :: drop i (child_nodes parent)).

(** [parent.find(tag)]: the first direct child with this tag *)
Fixpoint find_child (t : string) (l : list element) : option element :=
  match l with
  | [] => None
  | c :: l' => if String.eqb (tag c) t then Some c else find_child t l'
  end.

(** The in-place update of the element [find] returned: [k] is applied to
    the first child with tag [t]. *)
Fixpoint modify_first (t : string) (k : element -> element) (l : list element)
    : list element :=
  match l with
  | [] => []
  | c :: l' =>
      if String.eqb (tag c) t then k c :: l' else c :: modify_first t k l'
  end.

(** The same when the update can raise. *)
Fixpoint modify_firstM (t : string) (k : element -> result element)
    (l : list element) : result (list element) :=
  match l with
  | [] => Ok []
  | c :: l' =>
      if String.eqb (tag c) t then c' ← k c; Ok (c' :: l')
      else l'' ← modify_firstM t k l'; Ok (c :: l'')
  end.

(** [LET.QName(ns, tag)] for a non-empty namespace *)
Definition QName (ns local : string) : string :=
  "{" +:+ ns +:+ "}" +:+ local.

(** A handle on a node inside a tree the caller also holds: the child
    indices leading to it.  [at_path p f e] is the mutation [f] performed
    through the handle [p], seen from the root [e].  A handle that
    designates no node changes nothing; the one [build_root] returns
    designates the record container. *)
Fixpoint at_path (p : list nat) (f : element -> result element) (e : element)
    : result element :=
  match p with
  | [] => f e
  | i :: p' =>
      match child_nodes e !! i with
      | Some c =>
          c' ← at_path p' f c;
          Ok (with_children e (<[i := c']> (child_nodes e)))
      | None => Ok e
      end
  end.

Fixpoint node_at (p : list nat) (e : element) : option element :=
  match p with
  | [] => Some e
  | i :: p' =>
      match child_nodes e !! i with
      | Some c => node_at p' c
      | None => None
      end
  end.

(** The tree [e] after the node the handle [p] designates has been
    replaced by its image under [k]. *)
Fixpoint update_at (p : list nat) (k : element -> element) (e : element)
    : element :=
  match p with
  | [] => k e
  | i :: p' =>
      match child_nodes e !! i with
      | Some c => with_children e (<[i := update_at p' k c]> (child_nodes e))
      | None => e
      end
  end.

(** ** xml_builder_iso.py: the enhanced builder *)

Module IsoXmlBuilder.

Definition NS_AUTH : string := "urn:iso:std:iso:20022:tech:xsd:auth.016.001.01".
Definition NS_HEAD : string := "urn:iso:std:iso:20022:tech:xsd:head.001.001.01".
Definition INNER_TX_ORDER : list string :=
  ["TradDt"; "TradgCpcty"; "Qty"; "Pric"; "TradVn"].

Definition _uri (cfg : GeneratorConfig) (prefix : string) : result string :=
  match namespaces cfg !! prefix with
  | Some uri =>
      if Str.truthy uri then Ok uri
      else Raise (KeyError ("Unknown ns prefix: " +:+ prefix))
  | None => Raise (KeyError ("Unknown ns prefix: " +:+ prefix))
  end.

(** [get_ns]: [t[1:].split("}")[0]] when the tag starts with a brace *)
Definition get_ns (elem : element) : option string :=
  match tag elem with
  | String c t1 =>
      if Ascii.eqb c "{" then Some (fst (Str.split_ne "}" t1)) else None
  | EmptyString => None
  end.

(** [a or b] with [a] an optional string *)
Definition or_else (a : option string) (b : string) : string :=
  match a with
  | Some s => if Str.truthy s then s else b
  | None => b
  end.

(** [tag.split("}", 1)[-1]] *)
Definition local_name (t : string) : string :=
  match Str.split_once "}" t with
  | Some (_, l) => l
  | None => t
  end.

Definition is_inner_tx (parent : element) : bool :=
  if negb (Str.endswith "}Tx" (tag parent) || String.eqb (tag parent) "Tx")
  then false
  else if negb (bool_decide (get_ns parent = Some NS_AUTH)) then false
  else forallb
         (fun child =>
            let ln := local_name (tag child) in
            negb (String.eqb ln "New" || String.eqb ln "Cxl"))
         (child_nodes parent).

(** [l.index(x)]; [None] stands for the [ValueError] the caller catches *)
Fixpoint list_index (x : string) (l : list string) : option nat :=
  match l with
  | [] => None
  | y :: l' => if String.eqb y x then Some 0 else S <$> list_index x l'
  end.

(** The inner loop of [insert_child_in_order]: the position of the first
    sibling whose local name is [after_ln]. *)
Fixpoint sibling_index (after_ln : string) (sibs : list element) : option nat :=
  match sibs with
  | [] => None
  | sib :: sibs' =>
      if String.eqb (local_name (tag sib)) after_ln then Some 0
      else S <$> sibling_index after_ln sibs'
  end.

(** The outer loop: the names ranked after the new child, in rank order. *)
Fixpoint insertion_index (afters : list string) (sibs : list element)
    : option nat :=
  match afters with
  | [] => None
  | after_ln :: afters' =>
      match sibling_index after_ln sibs with
      | Some i => Some i
      | None => insertion_index afters' sibs
      end
  end.

Definition insert_child_in_order (parent new_child : element) : element :=
  if negb (is_inner_tx parent) then append_child parent new_child
  else
    let new_ln := local_name (tag new_child) in
    match list_index new_ln INNER_TX_ORDER with
    | None => append_child parent new_child
    | Some new_idx =>
        match insertion_index (drop (new_idx + 1) INNER_TX_ORDER)
                (child_nodes parent) with
        | Some i => insert_child i parent new_child
        | None => append_child parent new_child
        end
    end.

(** One find-or-create step followed by what the rest of the call does to
    the child the cursor moved to: [child = current.find(t)], creation and
    ordered insertion when it is [None], then [k] on [child]. *)
Definition find_or_create (current : element) (t : string) : element :=
  match find_child t (child_nodes current) with
  | Some _ => current
  | None => insert_child_in_order current (new_element t)
  end.

Definition descend (current : element) (t : string)
    (k : element -> element) : element :=
  let current' := find_or_create current t in
  with_children current' (modify_first t k (child_nodes current')).

(** The loop of [_ensure_path] from the cursor [current] over the
    remaining segments, and the text assignment after the loop. *)
Fixpoint walk (default_ns : string) (parts : list string)
    (value : option string) (current : element) : element :=
  match parts with
  | [] =>
      match value with
      | Some v => set_text v current
      | None => current
      end
  | part :: rest =>
      match Str.split_once "@" part with
      | Some (elem_tag, attr_name) =>
          let set_it := fun e =>
            match value with
            | Some v => set_attr attr_name v e
            | None => e
            end in
          if Str.truthy elem_tag then
            let ns := or_else (get_ns current) default_ns in
            descend current (QName ns elem_tag) set_it
          else set_it current
      | None =>
          let ns := or_else (get_ns current) default_ns in
          descend current (QName ns part) (walk default_ns rest value)
      end
  end.

(** [parts = [p for p in path.split("/") if p]] *)
Definition path_parts (path : string) : list string :=
  filter (fun p => p <> "") (Str.split "/" path).

(** [default_ns = get_ns(root) or NS_AUTH] *)
Definition default_ns (root : element) : string :=
  or_else (get_ns root) NS_AUTH.

Definition _ensure_path (root : element) (path : string)
    (value : option string) : element :=
  walk (default_ns root) (path_parts path) value root.

(** [for path, value in fields: self._ensure_path(tx, path, value)] *)
Definition ensure_fields (tx : element) (fields : list (string * string))
    : element :=
  fold_left (fun tx '(path, value) => _ensure_path tx path (Some value))
    fields tx.

(** [append_tx]: the wrapper is appended to the container and then
    filled; the container is returned with the finished wrapper last. *)
Definition append_tx (cfg : GeneratorConfig) (fields : list (string * string))
    (container : element) : result element :=
  msg_ns ← _uri cfg "msg";
  let tx := new_element (QName msg_ns "Tx") in
  let tx := match find_child (QName msg_ns "New") (child_nodes tx) with
            | Some _ => tx
            | None => append_child tx (new_element (QName msg_ns "New"))
            end in
  let tx := ensure_fields tx fields in
  Ok (append_child container tx).

(** [build_root].  The second component is the handle on the record
    container inside the returned root. *)
Definition build_root (cfg : GeneratorConfig) (w : world)
    : result (element * list nat) :=
  _ ← foldlM (fun _ needed =>
                match namespaces cfg !! needed with
                | Some _ => Ok ()
                | None => Raise (ValueError ("Missing '" +:+ needed +:+
                                             "' in mapping.json -> namespaces"))
                end)
             () ["head003"; "head001"; "msg"; "xsi"];
  head003 ← _uri cfg "head003";
  head001 ← _uri cfg "head001";
  msg ← _uri cfg "msg";
  xsi ← _uri cfg "xsi";
  root_attrib ←
    match dict_get "xsi:schemaLocation" (attributes (root cfg)) with
    | Some sl =>
        if Str.truthy sl then
          v ← resolve_macros w sl; Ok [(QName xsi "schemaLocation", v)]
        else Ok []
    | None => Ok []
    end;
  fr_id ← resolve_macros w "{ENV:FIRM_LEI:UNKNOWN}";
  to_id ← resolve_macros w "{ENV:TO_LEI:UNKNOWN}";
  let leaf := fun (t : string) (v : string) =>
    Element (QName head001 t) [] [] (Some v) [] in
  let node := fun (ns t : string) (l : list element) =>
    Element (QName ns t) [] [] None l in
  let party := fun (t id : string) =>
    node head001 t
      [node head001 "OrgId"
         [node head001 "Id"
            [node head001 "OrgId"
               [node head001 "Othr"
                  [leaf "Id" id;
                   node head001 "SchmeNm" [leaf "Prtry" "LEI"]]]]]] in
  let apphdr :=
    Element (QName head001 "AppHdr") [(None, head001)] [] None
      [party "Fr" fr_id;
       party "To" to_id;
       leaf "BizMsgIdr" ("mf-" +:+ String.substring 0 33 (uuid4_hex w));
       leaf "MsgDefIdr" "auth.016.001.01";
       leaf "CreDt" (utcnow_iso w +:+ "Z")] in
  let container := node msg "FinInstrmRptgTxRpt" [] in
  let doc := Element (QName msg "Document") [(None, msg)] [] None [container] in
  let root :=
    Element (QName head003 "BizData") [(None, head003); (Some "xsi", xsi)]
      root_attrib None
      [node head003 "Hdr" [apphdr];
       node head003 "Pyld" [doc]] in
  Ok (root, [1; 0; 0]).

(** [write]: the file at [out_path] holds the serialisation of [root]. *)
Definition write (root : element) : result element := Ok root.

End IsoXmlBuilder.

(** ** xml_builder.py: the baseline builder *)

Module XmlBuilder.

Definition _qname (cfg : GeneratorConfig) (qname : string) : result string :=
  match Str.split_once ":" qname with
  | Some (prefix, local) =>
      match namespaces cfg !! prefix with
      | Some uri =>
          if Str.truthy uri then Ok ("{" +:+ uri +:+ "}" +:+ local)
          else Raise (KeyError ("Unknown namespace prefix '" +:+ prefix +:+
                                "' in qname '" +:+ qname +:+ "'"))
      | None =>
          Raise (KeyError ("Unknown namespace prefix '" +:+ prefix +:+
                           "' in qname '" +:+ qname +:+ "'"))
      end
  | None => Ok qname
  end.

(** [_append_child_object], returning the element it appends to [parent] *)
Fixpoint child_object (cfg : GeneratorConfig) (w : world)
    (child_qname : string) (obj : jval) : result element :=
  t ← _qname cfg child_qname;
  match obj with
  | JObj members =>
      kids ← (fix each (ms : list (string * jval)) : result (list element) :=
                match ms with
                | [] => Ok []
                | (k, v) :: ms' =>
                    c ← match v with
                        | JObj _ => child_object cfg w k v
                        | JStr s =>
                            t' ← _qname cfg k;
                            v' ← resolve_macros w s;
                            Ok (set_text v' (new_element t'))
                        end;
                    cs ← each ms';
                    Ok (c :: cs)
                end) members;
      Ok (with_children (new_element t) kids)
  | JStr s =>
      v ← resolve_macros w s;
      Ok (set_text v (new_element t))
  end.

(** [build_root].  [_register_namespaces] only records serialisation
    prefixes and leaves the tree alone. *)
Definition build_root (cfg : GeneratorConfig) (w : world) : result element :=
  let spec := root cfg in
  t ← _qname cfg (qname spec);
  root ← foldlM (fun root '(k, v) =>
                   k' ← _qname cfg k;
                   v' ← resolve_macros w v;
                   Ok (set_attr k' v' root))
                (new_element t) (attributes spec);
  foldlM (fun root '(child_qname, obj) =>
            el ← child_object cfg w child_qname obj;
            Ok (append_child root el))
         root (children spec).

(** The loop of [_ensure_path] from the cursor [current]. *)
Fixpoint walk (cfg : GeneratorConfig) (parts : list string) (value : string)
    (current : element) : result element :=
  match parts with
  | [] => Ok current
  | part :: rest =>
      t ← _qname cfg part;
      let current' :=
        match find_child t (child_nodes current) with
        | Some _ => current
        | None => append_child current (new_element t)
        end in
      kids ← modify_firstM t
               (fun found =>
                  walk cfg rest value
                    (match rest with
                     | [] => set_text value found
                     | _ :: _ => found
                     end))
               (child_nodes current');
      Ok (with_children current' kids)
  end.

Definition _ensure_path (cfg : GeneratorConfig) (base : element)
    (path value : string) : result element :=
  walk cfg (Str.split "/" path) value base.

Definition opt_truthy (o : option string) : bool :=
  match o with Some s => Str.truthy s | None => false end.

(** [append_record].  The class defines neither [ensure_container] nor
    [append_record_into]. *)
Definition append_record (cfg : GeneratorConfig)
    (fields : list (string * string)) (parent : element) : result element :=
  if opt_truthy (record_container_qname cfg)
     && opt_truthy (record_element_qname cfg)
  then Raise (AttributeError
                "'XmlBuilder' object has no attribute 'ensure_container'")
  else
    t ← _qname cfg (if opt_truthy (record_element cfg)
                    then default "Record" (record_element cfg)
                    else "Record");
    rec_el ← foldlM (fun rec_el '(path, value) =>
                       _ensure_path cfg rec_el path value)
                    (new_element t) fields;
    Ok (append_child parent rec_el).

Definition write (root : element) : result element := Ok root.

End XmlBuilder.

(** ** generator.py *)

(** [ReportGenerator.generate].  [has_lxml] is the module flag [_HAS_LXML];
    [rows] is what [CsvReader.rows] yields.  The result is the tree whose
    serialisation is written to [out_path]; a raise leaves no file. *)
Definition generate (has_lxml : bool) (cfg : GeneratorConfig) (w : world)
    (rows : list (gmap string (option string))) : result element :=
  if has_lxml then
    '(root, container) ← IsoXmlBuilder.build_root cfg w;
    root ← foldlM (fun root row =>
                     fields ← to_xml_fields cfg w (mkTradeRecord row);
                     at_path container (IsoXmlBuilder.append_tx cfg fields) root)
                  root rows;
    IsoXmlBuilder.write root
  else
    root ← XmlBuilder.build_root cfg w;
    root ← foldlM (fun root row =>
                     fields ← to_xml_fields cfg w (mkTradeRecord row);
                     XmlBuilder.append_record cfg fields root)
                  root rows;
    XmlBuilder.write root.

(** ** Vocabulary of the statements *)

Import IsoXmlBuilder.

(** A path made of element segments only: no segment carries the
    attribute marker. *)
Definition element_only (parts : list string) : Prop :=
  Forall (fun p => Str.contains "@" p = false) parts.

(** The find-or-create traversal of [walk] along element segments, with
    the action on the node the path ends at left open. *)
Fixpoint ensure_chain (default_ns : string) (parts : list string)
    (k : element -> element) (current : element) : element :=
  match parts with
  | [] => k current
  | part :: rest =>
      let ns := or_else (get_ns current) default_ns in
      descend current (QName ns part) (ensure_chain default_ns rest k)
  end.

(** Reading a tree back along an element path, with the namespace
    inheritance of [_ensure_path] and nothing created: the node the path
    ends at, if every node of the chain exists. *)
Fixpoint node_on_path (default_ns : string) (parts : list string)
    (current : element) : option element :=
  match parts with
  | [] => Some current
  | part :: rest =>
      let ns := or_else (get_ns current) default_ns in
      child ← find_child (QName ns part) (child_nodes current);
      node_on_path default_ns rest child
  end.

(** The tree in which the node the path ends at is replaced by its image
    under [k], every other node staying as it is; [None] if a node of the
    chain is missing. *)
Fixpoint update_on_path (default_ns : string) (parts : list string)
    (k : element -> element) (current : element) : option element :=
  match parts with
  | [] => Some (k current)
  | part :: rest =>
      let ns := or_else (get_ns current) default_ns in
      child ← find_child (QName ns part) (child_nodes current);
      child' ← update_on_path default_ns rest k child;
      Some (with_children current
              (modify_first (QName ns part) (fun _ => child')
                 (child_nodes current)))
  end.

(** [if value is not None: e.text = value] and the same for an attribute *)
Definition set_text_opt (value : option string) (e : element) : element :=
  match value with Some v => set_text v e | None => e end.

Definition set_attr_opt (k : string) (value : option string) (e : element)
    : element :=
  match value with Some v => set_attr k v e | None => e end.

(** The element chain of a path that ends in [elem_tag@attr]: the segments
    before it, and [elem_tag] when it is not empty. *)
Definition attr_chain (pre : list string) (elem_tag : string) : list string :=
  if Str.truthy elem_tag then pre ++ [elem_tag] else pre.

(** The rank of a local name in the ordering policy of the inner record
    node, if it has one. *)
Definition rank (name : string) : option nat :=
  list_index name INNER_TX_ORDER.

(** The local names of a list of siblings, and of the children of a node,
    in sibling order. *)
Definition sibling_names (sibs : list element) : list string :=
  (fun c => local_name (tag c)) <$> sibs.

Definition child_names (e : element) : list string :=
  sibling_names (child_nodes e).

(** The tags of the children of a node, in sibling order. *)
Definition child_tags (e : element) : list string :=
  tag <$> child_nodes e.

(** [a] is ranked, and [b] is ranked above it. *)
Definition ranked_below (a b : string) : Prop :=
  exists ra rb, rank a = Some ra /\ rank b = Some rb /\ ra < rb.

(** [a] may stand before [b]: when both are ranked, the rank of [a] is not
    the greater one. *)
Definition in_rank_order (a b : string) : Prop :=
  forall ra rb, rank a = Some ra -> rank b = Some rb -> ra <= rb.

(** No ranked name stands before a ranked name of lower rank. *)
Definition rank_sorted (names : list string) : Prop :=
  StronglySorted in_rank_order names.

(** Where [insert_child_in_order] puts a new child of rank [r] among the
    children [sibs] of an inner record node: before the sibling its loops
    stop at, at the end when they stop at none. *)
Definition insert_position (r : nat) (sibs : list element) : nat :=
  default (length sibs)
    (insertion_index (drop (r + 1) INNER_TX_ORDER) sibs).

(** Tags the enhanced builder gives the children of an inner record node:
    the message namespace in front of the local name. *)
Definition auth_tags (tags : list string) : Prop :=
  Forall (fun t => t = QName NS_AUTH (local_name t)) tags.

(** The record wrapper [append_tx] starts from: a [Tx] element holding the
    marker child [New]. *)
Definition fresh_wrapper (msg_ns : string) : element :=
  append_child (new_element (QName msg_ns "Tx"))
               (new_element (QName msg_ns "New")).

(** [tx] is the wrapper [append_tx] builds for [row]: the fresh wrapper
    after the row's mapped fields have been applied to it. *)
Definition row_wrapper (cfg : GeneratorConfig) (w : world) (msg_ns : string)
    (row : gmap string (option string)) (tx : element) : Prop :=
  exists fields,
    to_xml_fields cfg w (mkTradeRecord row) = Ok fields /\
    tx = ensure_fields (fresh_wrapper msg_ns) fields.

(** The message of the [KeyError] the baseline builder raises for a prefix
    it cannot resolve. *)
Definition unknown_prefix (prefix qname : string) : exn :=
  KeyError ("Unknown namespace prefix '" +:+ prefix +:+
            "' in qname '" +:+ qname +:+ "'").

(** Fields addressed from the record wrapper, as mapping rules give them:
    each ranked name [n] under [New/Tx]. *)
Definition under_new_tx (fields : list (string * string))
    : list (string * string) :=
  (fun f => ("New/Tx/" +:+ f.1, f.2)) <$> fields.

(** An update that leaves the tag of the node alone. *)
Definition keeps_tag (k : element -> element) : Prop :=
  forall c, tag (k c) = tag c.

(** What one rule contributes to the mapper's output, given the value it
    resolved to. *)
Definition emitted (rule : MappingRule) (val : option string)
    : option (string * string) :=
  match val with
  | Some v => if String.eqb v "" then None else Some (to_path rule, v)
  | None => None
  end.

(** Concrete inputs used to exercise the statements. *)
Module Examples.

Definition ex_world : world :=
  World ∅ "2026-01-01T00:00:00Z" "0123456789abcdef0123456789abcdef"
    "2026-01-01T00:00:00".

(** An environment in which the value of [A] is itself a macro. *)
Definition ex_world_macro_env : world :=
  World {["A" := "{NOW_ISO}"]} "2026-01-01T00:00:00Z"
    "0123456789abcdef0123456789abcdef" "2026-01-01T00:00:00".

(** A fresh inner record node. *)
Definition ex_tx : element :=
  new_element (QName NS_AUTH "Tx").

(** Three ranked fields, supplied out of rank order. *)
Definition ex_ranked_fields : list (string * string) :=
  [("Pric", "101.5"); ("TradDt", "2026-01-02"); ("Qty", "7")].

(** A configuration for the enhanced builder and two rows for it. *)
Definition ex_iso_cfg : GeneratorConfig :=
  mkGeneratorConfig
    {[ "head003" := "urn:iso:std:iso:20022:tech:xsd:head.003.001.01";
       "head001" := NS_HEAD;
       "msg" := NS_AUTH;
       "xsi" := "http://www.w3.org/2001/XMLSchema-instance" ]}
    (mkRootSpec "head003:BizData" [] [] None)
    None
    [mkMappingRule "qty" "New/Tx/Qty"; mkMappingRule "price" "New/Tx/Pric"]
    None None.

Definition ex_rows : list (gmap string (option string)) :=
  [ {[ "qty" := Some "7"; "price" := Some "101.5" ]};
    {[ "qty" := Some "3"; "price" := Some "" ]} ].

Definition ex_skeleton : element :=
  Eval vm_compute in
    match build_root ex_iso_cfg ex_world with
    | Ok (root, _) => root
    | Raise _ => new_element ""
    end.

(** A configuration for the baseline builder with one rule whose target
    carries the prefix [zz], which the namespace map does not have. *)
Definition ex_zz_cfg : GeneratorConfig :=
  mkGeneratorConfig
    {[ "rep" := "urn:example:report" ]}
    (mkRootSpec "rep:Report" [] [] None)
    None
    [mkMappingRule "isin" "zz:Foo"]
    None None.

(** The same rule in a configuration the enhanced builder accepts. *)
Definition ex_zz_iso_cfg : GeneratorConfig :=
  mkGeneratorConfig (namespaces ex_iso_cfg) (root ex_iso_cfg) None
    [mkMappingRule "isin" "zz:Foo"] None None.

Definition ex_zz_row : gmap string (option string) :=
  {[ "isin" := Some "DE0001" ]}.

(** A row that leaves the column of the rule empty. *)
Definition ex_blank_row : gmap string (option string) :=
  {[ "isin" := Some "" ]}.

End Examples.

(** ** config.py: what [GeneratorConfig.load] and [from_paths] run first *)

(** A parsed JSON document, as [json.loads] returns it.  A [dict] keeps
    its keys in insertion order. *)
Inductive json : Type :=
  | JNull
  | JBool (b : bool)
  | JNumber (literal : string)
  | JString (s : string)
  | JList (elems : list json)
  | JDict (items : list (string * json)).

(** [d[k] = v] on an insertion-ordered dictionary: a key already there
    keeps its place and takes the new value. *)
Fixpoint dict_assign {V : Type} (k : string) (v : V) (d : list (string * V))
    : list (string * V) :=
  match d with
  | [] => [(k, v)]
  | (k', v') :: d' =>
      if String.eqb k' k then (k', v) :: d' else (k', v') :: dict_assign k v d'
  end.

(** [nk = "xmlns" if k == "_xmlns" else k] *)
Definition renamed_key (k : string) : string :=
  if String.eqb k "_xmlns" then "xmlns" else k.

Fixpoint _rename_xmlns_keys (obj : json) : json :=
  match obj with
  | JDict items =>
      JDict (fold_left
               (fun new '(k, v) =>
                  dict_assign (renamed_key k) (_rename_xmlns_keys v) new)
               items [])
  | JList elems => JList (_rename_xmlns_keys <$> elems)
  | _ => obj
  end.

(** What [Path(xsd_dir).glob("*.xsd")] and [ET.parse] give for one schema
    file: the file name without its suffix, and either a parse failure or
    the [targetNamespace] attribute of the root, if it has one. *)
Inductive xsd_parse : Type :=
  | ParseError
  | XsdRoot (targetNamespace : option string).

Record xsd_file : Type := XsdFile {
  stem : string;
  parsed : xsd_parse
}.

(** [v in d.values()] *)
Definition has_value (v : string) (d : gmap string string) : bool :=
  bool_decide (v ∈ (map_to_list d).*2).

(** One iteration of the loop of [augment_namespaces_from_xsd] on the
    namespace map. *)
Definition augment_step (nsm : gmap string string) (xsd : xsd_file)
    : gmap string string :=
  match parsed xsd with
  | ParseError => nsm
  | XsdRoot None => nsm
  | XsdRoot (Some ns) =>
      if negb (Str.truthy ns) then nsm
      else
        let hint := (Str.split_ne "_" (stem xsd)).1 in
        let nsm :=
          if Str.isin "auth.016" hint && negb (has_value "rep" nsm) then
            if negb (has_value ns nsm) then <["rep_inferred" := ns]> nsm
            else nsm
          else nsm in
        if Str.isin "head.001" hint && negb (has_value ns nsm)
        then <["hdr_inferred" := ns]> nsm
        else nsm
  end.

(** [augment_namespaces_from_xsd].  [xsd_dir] is [None] when no directory
    is given or it does not exist, and the schema files found in it, in
    the order [glob] yields them, otherwise.  The configuration is
    returned with its namespace map updated. *)
Definition augment_namespaces_from_xsd (cfg : GeneratorConfig)
    (xsd_dir : option (list xsd_file)) : GeneratorConfig :=
  match xsd_dir with
  | None => cfg
  | Some files =>
      mkGeneratorConfig (fold_left augment_step files (namespaces cfg))
        (root cfg) (record_element cfg) (fields cfg)
        (record_container_qname cfg) (record_element_qname cfg)
  end.

(** ** csv_reader.py *)

(** White space as [str.strip()] without argument sees it, a character
    of a [string] being a code point below 256. *)
Definition is_space (c : ascii) : bool :=
  let n := nat_of_ascii c in
  ((9 <=? n) && (n <=? 13) || (28 <=? n) && (n <=? 32)
   || (n =? 133) || (n =? 160))%nat.

(** An item of a row of [csv.DictReader]: a column of the header with the
    cell of this row, [None] when the row is too short to have one; or
    the cells beyond the header, which the reader files under the key
    [None]. *)
Inductive csv_item : Type :=
  | Cell (k : string) (v : option string)
  | Surplus (cells : list string).

(** One item of the dictionary comprehension of [CsvReader.rows]:
    [k.strip(): (v.strip() if isinstance(v, str) else v)]. *)
Definition strip_item (new : gmap string (option string)) (item : csv_item)
    : result (gmap string (option string)) :=
  match item with
  | Cell k v => Ok (<[Str.strip is_space k := Str.strip is_space <$> v]> new)
  | Surplus _ =>
      Raise (AttributeError "'NoneType' object has no attribute 'strip'")
  end.

(** The dictionary [CsvReader.rows] yields for a row of the reader. *)
Definition strip_row (row : list csv_item)
    : result (gmap string (option string)) :=
  foldlM strip_item ∅ row.

(** [CsvReader.rows]: what asking the generator for each row gives, the
    dictionary or the exception. *)
Definition rows (reader : list (list csv_item))
    : list (result (gmap string (option string))) :=
  strip_row <$> reader.

(** ** validator.py *)

Module validator.

(** The removal of repeated base URLs in [validate_xml]:
    [seen = set()] and
    [[b for b in base_urls if not (b in seen or seen.add(b))]]. *)
Fixpoint dedupe_base_urls (seen : gset string) (base_urls : list string)
    : list string :=
  match base_urls with
  | [] => []
  | b :: rest =>
      if bool_decide (b ∈ seen) then dedupe_base_urls seen rest
      else b :: dedupe_base_urls ({[b]} ∪ seen) rest
  end.

(** What [_load_schema_with_bases] can raise: the error of a failed load,
    or the [AssertionError] of its last but one line. *)
Inductive load_error (E : Type) : Type :=
  | AssertionError
  | LoadError (e : E).
Arguments AssertionError {E}.
Arguments LoadError {E} e.

(** The loop of [_load_schema_with_bases] and the two lines after it.
    [load base_url] is the construction of the schema with that base URL:
    the schema, or the exception the [try] catches. *)
Fixpoint try_bases {S E : Type} (load : string -> S + E)
    (base_urls : list string) (last_err : option E) : S + load_error E :=
  match base_urls with
  | [] =>
      match last_err with
      | None => inr AssertionError
      | Some e => inr (LoadError e)
      end
  | base_url :: rest =>
      match load base_url with
      | inl schema => inl schema
      | inr e => try_bases load rest (Some e)
      end
  end.

Definition _load_schema_with_bases {S E : Type} (load : string -> S + E)
    (base_urls : list string) : S + load_error E :=
  try_bases load base_urls None.

End validator.

(** ** Vocabulary of the further statements *)

(** Some dictionary of the document, at any depth, has the key [k]. *)
Fixpoint has_key (k : string) (j : json) : bool :=
  match j with
  | JDict items =>
      existsb (fun '(k', v) => String.eqb k' k || has_key k v) items
  | JList elems => existsb (has_key k) elems
  | _ => false
  end.

(** No dictionary of the document holds both the key [_xmlns] and the key
    [xmlns], and none holds a key twice. *)
Fixpoint no_key_clash (j : json) : bool :=
  match j with
  | JDict items =>
      bool_decide (NoDup (renamed_key <$> items.*1))
      && forallb (fun '(_, v) => no_key_clash v) items
  | JList elems => forallb no_key_clash elems
  | _ => true
  end.

(** Reading a document the way a consumer does: [e.find(t1).find(t2)...],
    each step the first direct child with that tag. *)
Fixpoint find_path (tags : list string) (e : element) : option element :=
  match tags with
  | [] => Some e
  | t :: tags' => c ← find_child t (child_nodes e); find_path tags' c
  end.

(** No two siblings carry the same tag, at any depth. *)
Fixpoint unique_tags (e : element) : bool :=
  match e with
  | Element _ _ _ _ kids =>
      bool_decide (NoDup (tag <$> kids)) && forallb unique_tags kids
  end.

(** No two prefixes of a namespace map stand for the same URI. *)
Definition distinct_uris (nsm : gmap string string) : Prop :=
  forall p q uri, nsm !! p = Some uri -> nsm !! q = Some uri -> p = q.

(** The prefixes [IsoXmlBuilder.build_root] asks for, in the order it
    checks them. *)
Definition needed_prefixes : list string :=
  ["head003"; "head001"; "msg"; "xsi"].

(** The name [append_record] gives the record element in its legacy
    branch: [self.cfg.record_element or "Record"]. *)
Definition record_name (cfg : GeneratorConfig) : string :=
  if XmlBuilder.opt_truthy (record_element cfg)
  then default "Record" (record_element cfg)
  else "Record".

(** [rec] is the record element the baseline builder makes of [row]: a
    fresh element with the record name, after the row's mapped fields
    have been applied to it. *)
Definition baseline_record (cfg : GeneratorConfig) (w : world)
    (row : gmap string (option string)) (rec : element) : Prop :=
  exists t fields,
    XmlBuilder._qname cfg (record_name cfg) = Ok t /\
    to_xml_fields cfg w (mkTradeRecord row) = Ok fields /\
    foldlM (fun rec_el '(path, value) =>
              XmlBuilder._ensure_path cfg rec_el path value)
           (new_element t) fields = Ok rec.

(** The key an item is filed under, after stripping. *)
Definition item_key (item : csv_item) : option string :=
  match item with
  | Cell k _ => Some (Str.strip is_space k)
  | Surplus _ => None
  end.

(** A cell without content: missing, or white space only. *)
Definition blank (v : option string) : Prop :=
  match v with
  | None => True
  | Some s => Forall (fun c => is_space c = true) (list_ascii_of_string s)
  end.

(** The tags leading from the root of the enhanced builder's document to
    the application header, and from there to the identifier of a party
    ([Fr] or [To]). *)
Definition app_header_tags (head003 head001 : string) : list string :=
  [QName head003 "Hdr"; QName head001 "AppHdr"].

Definition party_id_tags (head001 party : string) : list string :=
  QName head001 <$> [party; "OrgId"; "Id"; "OrgId"; "Othr"; "Id"].

(** ** The checks of lxml

    The enhanced builder creates elements, sets attributes and assigns
    text through lxml, which refuses with a [ValueError] what cannot stand
    in an XML document.  The definitions below are these checks, for
    strings of code points below 256.  Whether the namespace of a new
    element is a URI is decided by [xmlParseURI] of libxml2; that
    function stays a parameter, [uri_ok ns] saying that it accepts
    [ns]. *)

Module lxml.

(** A character that can start a name, a letter or the underscore, and
    one that can stand in a name: also a digit, the hyphen, the full stop
    and the middle dot.  The colon is in neither, lxml refuses it in a
    name. *)
Definition is_name_start (c : ascii) : bool :=
  let n := nat_of_ascii c in
  ((65 <=? n) && (n <=? 90) || (97 <=? n) && (n <=? 122) || (n =? 95)
   || (192 <=? n) && (n <=? 214) || (216 <=? n) && (n <=? 246)
   || (248 <=? n))%nat.

Definition is_name_char (c : ascii) : bool :=
  let n := nat_of_ascii c in
  (is_name_start c || (48 <=? n) && (n <=? 57) || (n =? 45) || (n =? 46)
   || (n =? 183))%nat.

(** [_pyXmlNameIsValid]: the name of a tag or of an attribute. *)
Definition name_ok (name : string) : bool :=
  match name with
  | EmptyString => false
  | String c rest => is_name_start c && Str.all is_name_char rest
  end.

(** What a string handed to lxml may hold: no control character but the
    tabulator, the line feed and the carriage return. *)
Definition is_text_char (c : ascii) : bool :=
  let n := nat_of_ascii c in
  ((32 <=? n) || (n =? 9) || (n =? 10) || (n =? 13))%nat.

Definition text_ok (s : string) : bool := Str.all is_text_char s.

Definition invalid_string : exn :=
  ValueError ("All strings must be XML compatible: Unicode or ASCII, " +:+
              "no NULL bytes or control characters").

(** The messages show the name as [repr] does; the quotes are those of a
    name that holds none. *)
Definition invalid_tag_name (name : string) : exn :=
  ValueError ("Invalid tag name '" +:+ name +:+ "'").

Definition invalid_attribute_name (name : string) : exn :=
  ValueError ("Invalid attribute name '" +:+ name +:+ "'").

(** [_utf8]: every string passes through it on its way into the tree. *)
Definition _utf8 (s : string) : result string :=
  if text_ok s then Ok s else Raise invalid_string.

(** [_getNsTag]: [{ns}name] is taken apart at the first closing brace, an
    empty namespace counting as none; any other text is a name. *)
Definition _getNsTag (tag : string) : result (option string * string) :=
  tag ← _utf8 tag;
  match tag with
  | EmptyString => Raise (ValueError "Empty tag name")
  | String c rest =>
      if Ascii.eqb c "{" then
        match Str.split_once "}" rest with
        | None => Raise (ValueError "Invalid tag name")
        | Some (ns, name) =>
            if Str.truthy name
            then Ok (if Str.truthy ns then Some ns else None, name)
            else Raise (ValueError "Empty tag name")
        end
      else Ok (None, tag)
  end.

Definition _tagValidOrRaise (name : string) : result () :=
  if name_ok name then Ok () else Raise (invalid_tag_name name).

Definition _attributeValidOrRaise (name : string) : result () :=
  if name_ok name then Ok () else Raise (invalid_attribute_name name).

(** How lxml writes a name with its namespace. *)
Definition _namespacedName (ns : option string) (name : string) : string :=
  match ns with
  | Some ns => QName ns name
  | None => name
  end.

(** [LET.QName(text_or_uri, tag).text] *)
Definition QName_text (text_or_uri tag : string) : result string :=
  '(ns_utf, tag_utf) ← _getNsTag text_or_uri;
  let ns_utf := default tag_utf ns_utf in
  tag_utf ← _utf8 tag;
  _ ← _tagValidOrRaise tag_utf;
  Ok (QName ns_utf tag_utf).

Definition invalid_namespace_uri (ns : string) : exn :=
  ValueError ("Invalid namespace URI '" +:+ ns +:+ "'").

Definition _uriValidOrRaise (uri_ok : string -> bool) (ns : option string)
    : result () :=
  match ns with
  | Some ns => if uri_ok ns then Ok () else Raise (invalid_namespace_uri ns)
  | None => Ok ()
  end.

(** [LET.Element(tag)] *)
Definition Element (uri_ok : string -> bool) (tag : string) : result element :=
  '(ns, name) ← _getNsTag tag;
  _ ← _tagValidOrRaise name;
  _ ← _uriValidOrRaise uri_ok ns;
  Ok (new_element (_namespacedName ns name)).

(** [e.text = value] *)
Definition set_text (value : string) (e : element) : result element :=
  value ← _utf8 value;
  Ok (set_text value e).

(** [e.set(key, value)]: the key is checked before the value. *)
Definition set (key value : string) (e : element) : result element :=
  '(ns, name) ← _getNsTag key;
  _ ← _attributeValidOrRaise name;
  value ← _utf8 value;
  Ok (set_attr (_namespacedName ns name) value e).

(** A tag an element of a tree of lxml can carry: an accepted name,
    alone or behind a namespace in braces that is not empty. *)
Definition tag_ok (t : string) : bool :=
  match t with
  | EmptyString => false
  | String c rest =>
      if Ascii.eqb c "{" then
        match Str.split_once "}" rest with
        | Some (ns, name) => Str.truthy ns && name_ok name
        | None => false
        end
      else name_ok t
  end.

End lxml.

(** ** xml_builder_iso.py with the checks of lxml

    [IsoXmlBuilder._ensure_path] above is the path engine as the
    repository writes it, every call into lxml succeeding.  Here the same
    code is written with the calls that can refuse their argument: the
    creation of an element, the assignment of a text and the setting of
    an attribute.  Each function takes [uri_ok], what libxml2 accepts as
    a URI, as its first argument.  [find] is, as above, the first child
    with exactly the tag asked for; this is what lxml returns for a name
    it accepts as a tag, in a namespace other than the wildcard [*], and
    for a qualified name [prefix:local], which no element carries.  A
    segment written in the path syntax of [find] (a wildcard, a step, a
    predicate) is outside this model; the statements on what a call
    leaves exclude it. *)

Module LxmlBuilder.

(** [child = current.find(...)] and, when it is [None],
    [new_child = LET.Element(qname(ns, name))] and its ordered
    insertion. *)
Definition find_or_create (uri_ok : string -> bool) (current : element)
    (ns name : string) : result element :=
  match find_child (QName ns name) (child_nodes current) with
  | Some _ => Ok current
  | None =>
      t ← lxml.QName_text ns name;
      new_child ← lxml.Element uri_ok t;
      Ok (IsoXmlBuilder.insert_child_in_order current new_child)
  end.

(** The step to the child, and what the rest of the call does to it. *)
Definition descend (uri_ok : string -> bool) (current : element)
    (ns name : string) (k : element -> result element) : result element :=
  current' ← find_or_create uri_ok current ns name;
  kids ← modify_firstM (QName ns name) k (child_nodes current');
  Ok (with_children current' kids).

(** The loop of [_ensure_path] from the cursor [current] over the
    remaining segments, and the text assignment after the loop. *)
Fixpoint walk (uri_ok : string -> bool) (default_ns : string)
    (parts : list string) (value : option string) (current : element)
    : result element :=
  match parts with
  | [] =>
      match value with
      | Some v => lxml.set_text v current
      | None => Ok current
      end
  | part :: rest =>
      match Str.split_once "@" part with
      | Some (elem_tag, attr_name) =>
          let set_it := fun e =>
            match value with
            | Some v => lxml.set attr_name v e
            | None => Ok e
            end in
          if Str.truthy elem_tag then
            let ns := IsoXmlBuilder.or_else (IsoXmlBuilder.get_ns current)
                        default_ns in
            descend uri_ok current ns elem_tag set_it
          else set_it current
      | None =>
          let ns := IsoXmlBuilder.or_else (IsoXmlBuilder.get_ns current)
                      default_ns in
          descend uri_ok current ns part (walk uri_ok default_ns rest value)
      end
  end.

Definition _ensure_path (uri_ok : string -> bool) (root : element)
    (path : string) (value : option string) : result element :=
  walk uri_ok (IsoXmlBuilder.default_ns root) (IsoXmlBuilder.path_parts path)
    value root.

(** [for path, value in fields: self._ensure_path(tx, path, value)] *)
Definition ensure_fields (uri_ok : string -> bool) (tx : element)
    (fields : list (string * string)) : result element :=
  foldlM (fun tx '(path, value) => _ensure_path uri_ok tx path (Some value))
    tx fields.

(** [append_tx].  The wrapper has no child when [New] is looked for. *)
Definition append_tx (uri_ok : string -> bool) (cfg : GeneratorConfig)
    (fields : list (string * string)) (container : element)
    : result element :=
  msg_ns ← IsoXmlBuilder._uri cfg "msg";
  t ← lxml.QName_text msg_ns "Tx";
  tx ← lxml.Element uri_ok t;
  tx ← match find_child (QName msg_ns "New") (child_nodes tx) with
       | Some _ => Ok tx
       | None =>
           t ← lxml.QName_text msg_ns "New";
           new_el ← lxml.Element uri_ok t;
           Ok (append_child tx new_el)
       end;
  tx ← ensure_fields uri_ok tx fields;
  Ok (append_child container tx).

(** The lxml branch of [ReportGenerator.generate].  The skeleton is that
    of [IsoXmlBuilder.build_root]; what lxml can refuse while it is built
    stops the generation before the first row. *)
Definition generate (uri_ok : string -> bool) (cfg : GeneratorConfig)
    (w : world) (rows : list (gmap string (option string)))
    : result element :=
  '(root, container) ← IsoXmlBuilder.build_root cfg w;
  root ← foldlM (fun root row =>
                   fields ← to_xml_fields cfg w (mkTradeRecord row);
                   at_path container (append_tx uri_ok cfg fields) root)
                root rows;
  IsoXmlBuilder.write root.

End LxmlBuilder.

(** ** Vocabulary of the statements on accepted names *)

(** A value lxml accepts as a text, when there is one. *)
Definition value_ok (value : option string) : bool :=
  match value with Some v => lxml.text_ok v | None => true end.

(** A namespace that lxml takes as it is written and that [find] takes
    literally: a text lxml accepts that does not open with a brace and
    is not the wildcard [*]. *)
Definition plain_ns (ns : string) : bool :=
  lxml.text_ok ns && negb (Str.startswith "{" ns) && negb (String.eqb ns "*").

(** A tag that [find] takes literally, in lxml and in ElementTree: an
    accepted name, alone or behind a namespace in braces that is not the
    wildcard [*]. *)
Definition exact_tag (t : string) : bool :=
  lxml.tag_ok t && negb (Str.startswith "{*}" t).

(** A segment of a baseline path that resolves to such a tag. *)
Definition resolves_exact (cfg : GeneratorConfig) (part : string) : bool :=
  match XmlBuilder._qname cfg part with
  | Ok t => exact_tag t
  | Raise _ => false
  end.

(** A tree lxml can hold: every node carries a tag lxml accepts. *)
Fixpoint valid_tree (e : element) : bool :=
  match e with
  | Element t _ _ _ kids => lxml.tag_ok t && forallb valid_tree kids
  end.

(** Reading by explicit tags, for an update: the tree in which the node
    [find_path] ends at is replaced by its image under [k] and nothing
    else is changed; [None] if a node of the chain is missing. *)
Fixpoint update_tags (tags : list string) (k : element -> element)
    (e : element) : option element :=
  match tags with
  | [] => Some (k e)
  | t :: tags' =>
      c ← find_child t (child_nodes e);
      c' ← update_tags tags' k c;
      Some (with_children e (modify_first t (fun _ => c') (child_nodes e)))
  end.

(** Further inputs used to exercise the statements. *)
Module MoreExamples.
Import Examples.

(** What is known of the URI parser in the examples: it accepts the
    namespaces of the two message definitions. *)
Definition ex_uri_ok (ns : string) : bool :=
  String.eqb ns IsoXmlBuilder.NS_AUTH || String.eqb ns IsoXmlBuilder.NS_HEAD.

(** A value that holds a control character, the bell. *)
Definition ex_bell : string := String (ascii_of_nat 7) "".

(** A rule of the enhanced builder whose qualified segment stands behind
    an attribute segment. *)
Definition ex_zz_attr_cfg : GeneratorConfig :=
  mkGeneratorConfig (namespaces ex_iso_cfg) (root ex_iso_cfg) None
    [mkMappingRule "isin" "Amt@Ccy/zz:Foo"] None None.

End MoreExamples.

(** * Properties

    The statements are numbered as the claims of the specification they
    settle (C1 to C10). *)

Import Examples.

(** ** Strings *)

Section string_facts.
Implicit Types (s p a b : string) (c : ascii).

Lemma startswith_app p s : Str.startswith p (p +:+ s) = true.
Proof.
  induction p as [|x p IH]; simpl; [done|].
  by rewrite Ascii.eqb_refl, IH.
Qed.

Lemma startswith_inv p s :
  Str.startswith p s = true -> exists r, s = p +:+ r.
Proof.
  revert s. induction p as [|x p IH]; intros s H; simpl in *.
  - by exists s.
  - destruct s as [|y s]; [done|].
    apply andb_true_iff in H as [Hxy Hp].
    apply Ascii.eqb_eq in Hxy as ->.
    destruct (IH _ Hp) as [r ->]. by exists r.
Qed.

Lemma endswith_app suffix s : Str.endswith suffix (s +:+ suffix) = true.
Proof.
  induction s as [|x s IH].
  - change ("" +:+ suffix) with suffix.
    destruct suffix; cbn [Str.endswith]; by rewrite String.eqb_refl.
  - change (String x s +:+ suffix) with (String x (s +:+ suffix)).
    cbn [Str.endswith]. rewrite IH. apply orb_true_r.
Qed.

Lemma rstrip_keep f c s :
  f c = false -> Str.rstrip f (String c s) = String c (Str.rstrip f s).
Proof. intros Hc. simpl. rewrite Hc. by destruct (Str.rstrip f s). Qed.

Lemma rstrip_app_keep f a c b :
  f c = false ->
  Str.rstrip f (a +:+ String c b) = a +:+ String c (Str.rstrip f b).
Proof.
  intros Hc. induction a as [|x a IH].
  - by apply rstrip_keep.
  - change (String x a +:+ String c b) with (String x (a +:+ String c b)).
    simpl. rewrite IH. by destruct a.
Qed.

Lemma rstrip_id s :
  Str.endswith "}" s = false -> Str.endswith "{" s = false ->
  Str.rstrip is_brace s = s.
Proof.
  induction s as [|x s IH]; [done|]. simpl.
  intros [H1 H1']%orb_false_iff [H2 H2']%orb_false_iff.
  rewrite IH by done. destruct s as [|y s]; [|done].
  unfold is_brace.
  destruct (Ascii.eqb_spec x "{") as [->|]; [done|].
  destruct (Ascii.eqb_spec x "}") as [->|]; done.
Qed.

Lemma split_ne_cons sep c s :
  Str.split_ne sep (String c s) =
    if Ascii.eqb c sep then (EmptyString, Str.split sep s)
    else (String c (Str.split_ne sep s).1, (Str.split_ne sep s).2).
Proof. unfold Str.split. simpl. by destruct (Str.split_ne sep s). Qed.

Lemma split_app_sep sep a b :
  Str.contains sep a = false ->
  Str.split sep (a +:+ String sep b) = a :: Str.split sep b.
Proof.
  intros Ha. unfold Str.split at 1.
  assert (Str.split_ne sep (a +:+ String sep b) = (a, Str.split sep b))
    as ->; [|done].
  induction a as [|x a IH].
  - simpl. rewrite Ascii.eqb_refl. unfold Str.split.
    by destruct (Str.split_ne sep b).
  - simpl in Ha. apply orb_false_iff in Ha as [Hx Ha].
    change (String x a +:+ String sep b) with (String x (a +:+ String sep b)).
    rewrite split_ne_cons, Hx, IH by done. done.
Qed.

Lemma split_no_sep sep a :
  Str.contains sep a = false -> Str.split sep a = [a].
Proof.
  intros Ha. unfold Str.split.
  assert (Str.split_ne sep a = (a, [])) as ->; [|done].
  induction a as [|x a IH]; [done|].
  simpl in Ha. apply orb_false_iff in Ha as [Hx Ha].
  rewrite split_ne_cons, Hx, IH by done. done.
Qed.

Lemma split_nonempty sep s : exists h t, Str.split sep s = h :: t.
Proof. unfold Str.split. destruct (Str.split_ne sep s). eauto. Qed.
End string_facts.

(** ** Macro resolution *)

Section macro_facts.
Variable w : world.

(** What [strip("{}")] leaves of a literal that starts with "{ENV:". *)
Lemma strip_env rest :
  Str.strip is_brace ("{ENV:" +:+ rest) = "ENV:" +:+ Str.rstrip is_brace rest.
Proof.
  unfold Str.strip.
  change ("{ENV:" +:+ rest)
    with (String "{" (String "E" (String "N" (String "V" (String ":" rest))))).
  change (Str.lstrip is_brace
            (String "{" (String "E" (String "N" (String "V" (String ":" rest))))))
    with (String "E" (String "N" (String "V" (String ":" rest)))).
  by rewrite !rstrip_keep.
Qed.

Lemma resolve_macros_env rest :
  Str.endswith "}" ("{ENV:" +:+ rest) = true ->
  exists var more,
    Str.split ":" (Str.rstrip is_brace rest) = var :: more /\
    resolve_macros w ("{ENV:" +:+ rest) = Ok (getenv w var (hd "" more)).
Proof.
  intros Hend. unfold resolve_macros.
  rewrite startswith_app, Hend. cbv [andb].
  rewrite strip_env.
  change ("ENV:" +:+ Str.rstrip is_brace rest)
    with ("ENV" +:+ String ":" (Str.rstrip is_brace rest)).
  rewrite split_app_sep by done.
  destruct (split_nonempty ":" (Str.rstrip is_brace rest)) as (var & more & ->).
  exists var, more. split; [done|]. by destruct more.
Qed.

Lemma resolve_macros_total value : exists r, resolve_macros w value = Ok r.
Proof.
  destruct (Str.startswith "{ENV:" value && Str.endswith "}" value) eqn:E.
  - apply andb_true_iff in E as [Hs He].
    apply startswith_inv in Hs as [rest ->].
    destruct (resolve_macros_env rest He) as (var & more & _ & ->). eauto.
  - unfold resolve_macros. rewrite E. destruct (String.eqb value "{NOW_ISO}"); eauto.
Qed.

Lemma resolve_macros_plain value :
  is_macro value = false -> resolve_macros w value = Ok value.
Proof.
  unfold is_macro, resolve_macros. intros [-> ->]%orb_false_iff. done.
Qed.
End macro_facts.

(** C6, the claim as stated fails: an environment value that is itself a
    macro is expanded by a second pass, and so is a default that is one,
    whatever the environment holds. *)
Lemma resolve_macros_not_idempotent :
  (environ ex_world_macro_env !! "A" = Some "{NOW_ISO}" /\
   resolve_macros ex_world_macro_env "{ENV:A}" = Ok "{NOW_ISO}" /\
   (resolve_macros ex_world_macro_env "{ENV:A}"
      ≫= resolve_macros ex_world_macro_env)
     <> resolve_macros ex_world_macro_env "{ENV:A}")
  /\ (resolve_macros ex_world "{ENV:X:{NOW_ISO}:}" = Ok "{NOW_ISO}" /\
      (resolve_macros ex_world "{ENV:X:{NOW_ISO}:}"
         ≫= resolve_macros ex_world)
        <> resolve_macros ex_world "{ENV:X:{NOW_ISO}:}").
Proof.
  split; (split; [by vm_compute|]); [split; [by vm_compute|]|];
    vm_compute; discriminate.
Qed.

(** C6, as amended.  With the environment and the clock fixed, resolving
    twice is resolving once whenever the first result is not itself of a
    recognised macro form; and a string that is not of one of the two
    forms is returned as it is. *)
Theorem resolve_macros_idempotent_on_plain_result (w : world) (s r : string) :
  resolve_macros w s = Ok r ->
  is_macro r = false ->
  (resolve_macros w s ≫= resolve_macros w) = resolve_macros w s
  /\ (is_macro s = false -> r = s).
Proof.
  intros Hs Hr. split.
  - rewrite Hs. simpl. by apply resolve_macros_plain.
  - intros Hplain. rewrite (resolve_macros_plain w s Hplain) in Hs. congruence.
Qed.

Lemma resolve_macros_idempotent_on_plain_result_witness :
  (resolve_macros ex_world "{ENV:UNSET_VAR:NORE}" ≫= resolve_macros ex_world)
    = resolve_macros ex_world "{ENV:UNSET_VAR:NORE}"
  /\ (is_macro "{ENV:UNSET_VAR:NORE}" = false ->
      "NORE" = "{ENV:UNSET_VAR:NORE}").
Proof.
  apply (resolve_macros_idempotent_on_plain_result ex_world
           "{ENV:UNSET_VAR:NORE}" "NORE"); vm_compute; reflexivity.
Defined.

Lemma endswith_app_r suffix a b :
  Str.endswith suffix b = true -> Str.endswith suffix (a +:+ b) = true.
Proof.
  intros Hb. induction a as [|x a IH]; [done|].
  change (String x a +:+ b) with (String x (a +:+ b)).
  cbn [Str.endswith]. rewrite IH. apply orb_true_r.
Qed.

Lemma rstrip_app_brace s :
  Str.rstrip is_brace (s +:+ "}") = Str.rstrip is_brace s.
Proof.
  induction s as [|x s IH]; [done|].
  change (String x s +:+ "}") with (String x (s +:+ "}")).
  cbn [Str.rstrip]. by rewrite IH.
Qed.

Lemma getenv_default w var d : getenv w var d = default d (environ w !! var).
Proof. unfold getenv. by destruct (environ w !! var). Qed.

(** C7, as amended.  For a name and a default without a colon, the default
    not ending in a brace, [{ENV:name:default}] is the value of [name]
    when the environment has it and [default] otherwise; for a name that
    does not end in a brace either, [{ENV:name}] is the value when set and
    the empty string otherwise. *)
Theorem env_macro_defaulting (w : world) (name dflt : string) :
  Str.contains ":" name = false ->
  Str.contains ":" dflt = false ->
  Str.endswith "}" dflt = false ->
  Str.endswith "{" dflt = false ->
  resolve_macros w ("{ENV:" +:+ name +:+ ":" +:+ dflt +:+ "}")
    = Ok (default dflt (environ w !! name))
  /\ (Str.endswith "}" name = false -> Str.endswith "{" name = false ->
      resolve_macros w ("{ENV:" +:+ name +:+ "}")
        = Ok (default "" (environ w !! name))).
Proof.
  intros Hn Hd Hd1 Hd2. split.
  - change (":" +:+ dflt +:+ "}") with (String ":" (dflt +:+ "}")).
    destruct (resolve_macros_env w (name +:+ String ":" (dflt +:+ "}")))
      as (var & more & Hsplit & ->).
    { apply (endswith_app_r "}" "{ENV:"), endswith_app_r.
      apply (endswith_app_r "}" ":"), endswith_app. }
    rewrite rstrip_app_keep, rstrip_app_brace, rstrip_id in Hsplit by done.
    rewrite split_app_sep, split_no_sep in Hsplit by done.
    injection Hsplit as <- <-. by rewrite getenv_default.
  - intros Hn1 Hn2.
    destruct (resolve_macros_env w (name +:+ "}")) as (var & more & Hsplit & ->).
    { apply (endswith_app_r "}" "{ENV:"), endswith_app. }
    rewrite rstrip_app_brace, rstrip_id, split_no_sep in Hsplit by done.
    injection Hsplit as <- <-. by rewrite getenv_default.
Qed.

Lemma env_macro_defaulting_witness :
  resolve_macros ex_world ("{ENV:" +:+ "UNSET_VAR" +:+ ":" +:+ "NORE" +:+ "}")
    = Ok (default "NORE" (environ ex_world !! "UNSET_VAR"))
  /\ (Str.endswith "}" "UNSET_VAR" = false ->
      Str.endswith "{" "UNSET_VAR" = false ->
      resolve_macros ex_world ("{ENV:" +:+ "UNSET_VAR" +:+ "}")
        = Ok (default "" (environ ex_world !! "UNSET_VAR"))).
Proof.
  apply (env_macro_defaulting ex_world "UNSET_VAR" "NORE"); reflexivity.
Defined.

(** C7, the claim as stated fails: a default with a colon in it is not
    returned literally. *)
Lemma env_default_with_colon_not_literal :
  environ ex_world !! "X" = None /\
  resolve_macros ex_world "{ENV:X:a:b}" <> Ok "a:b".
Proof. split; [by vm_compute|]. vm_compute. discriminate. Qed.

(** C10.  When the default of [{ENV:name:default}] contains a colon and
    [name] is unset, the result is the text of the default up to its first
    colon. *)
Theorem env_default_cut_at_first_colon (w : world) (name d1 d2 : string) :
  Str.contains ":" name = false ->
  Str.contains ":" d1 = false ->
  environ w !! name = None ->
  resolve_macros w ("{ENV:" +:+ name +:+ ":" +:+ d1 +:+ ":" +:+ d2 +:+ "}")
    = Ok d1.
Proof.
  intros Hn Hd Hunset.
  change (":" +:+ d1 +:+ ":" +:+ d2 +:+ "}")
    with (String ":" (d1 +:+ String ":" (d2 +:+ "}"))).
  destruct (resolve_macros_env w
              (name +:+ String ":" (d1 +:+ String ":" (d2 +:+ "}"))))
    as (var & more & Hsplit & ->).
  { apply (endswith_app_r "}" "{ENV:"), endswith_app_r.
    apply (endswith_app_r "}" ":"), endswith_app_r.
    apply (endswith_app_r "}" ":"), endswith_app. }
  rewrite !rstrip_app_keep in Hsplit by done.
  rewrite !split_app_sep in Hsplit by done.
  injection Hsplit as <- <-. rewrite getenv_default, Hunset. done.
Qed.

Lemma env_default_cut_at_first_colon_witness :
  resolve_macros ex_world
    ("{ENV:" +:+ "X" +:+ ":" +:+ "a" +:+ ":" +:+ "b" +:+ "}") = Ok "a".
Proof.
  apply (env_default_cut_at_first_colon ex_world "X" "a" "b"); reflexivity.
Defined.

(** ** Field mapping *)

Section mapper_facts.
Variables (w : world) (trade : TradeRecord).

Lemma rule_value_total rule : exists val, rule_value w trade rule = Ok val.
Proof.
  unfold rule_value. destruct (data trade !! from_field rule); [eauto|].
  destruct (resolve_macros_total w (from_field rule)) as [r ->]. simpl. eauto.
Qed.

Lemma map_rule_emitted rule val pairs :
  rule_value w trade rule = Ok val ->
  map_rule w trade rule pairs = Ok (pairs ++ option_list (emitted rule val)).
Proof.
  intros Hval. unfold map_rule. rewrite Hval. simpl.
  destruct val as [v|]; simpl; [|by rewrite app_nil_r].
  destruct (String.eqb v ""); simpl; by rewrite ?app_nil_r.
Qed.

Lemma map_rules_emitted rules : forall pairs,
  exists vals,
    Forall2 (fun rule val => rule_value w trade rule = Ok val) rules vals /\
    map_rules w trade rules pairs
      = Ok (pairs ++ omap (fun rv => emitted rv.1 rv.2) (zip rules vals)).
Proof.
  induction rules as [|rule more IH]; intros pairs.
  - exists []. split; [constructor|]. simpl. by rewrite app_nil_r.
  - destruct (rule_value_total rule) as [val Hval].
    destruct (IH (pairs ++ option_list (emitted rule val)))
      as (vals & Hvals & Hrun).
    exists (val :: vals). split; [by constructor|].
    simpl. rewrite (map_rule_emitted _ _ _ Hval). simpl. rewrite Hrun.
    rewrite <-app_assoc. by destruct (emitted rule val).
Qed.
End mapper_facts.

(** C8 (skip-empty).  The mapper never raises; every rule resolves to a
    value, and the output is, in declaration order, the pair of target
    path and value of each rule whose value is neither absent nor the
    empty string, and nothing for the other rules. *)
Theorem to_xml_fields_skips_empty (cfg : GeneratorConfig) (w : world)
    (trade : TradeRecord) :
  exists vals : list (option string),
    Forall2 (fun rule val => rule_value w trade rule = Ok val) (fields cfg) vals /\
    to_xml_fields cfg w trade
      = Ok (omap (fun rv => emitted rv.1 rv.2) (zip (fields cfg) vals)).
Proof. apply (map_rules_emitted w trade (fields cfg) []). Qed.

(** ** Trees *)

#[local] Arguments descend : simpl never.
#[local] Arguments find_or_create : simpl never.

Section tree_facts.
Implicit Types (e c cur : element) (l : list element) (t : string).

Lemma find_child_None t l :
  find_child t l = None <-> Forall (fun c => tag c <> t) l.
Proof.
  induction l as [|c l IH]; simpl.
  - split; [constructor|done].
  - destruct (String.eqb_spec (tag c) t) as [Heq|Hne].
    + split; [done|]. intros H. by inv H.
    + rewrite IH. split; [by constructor|]. intros H. by inv H.
Qed.

Lemma find_child_Some_tag t l c : find_child t l = Some c -> tag c = t.
Proof.
  induction l as [|c' l IH]; simpl; [done|].
  destruct (String.eqb_spec (tag c') t); [|done]. by intros [= <-].
Qed.

Lemma find_child_app t l1 l2 :
  find_child t (l1 ++ l2) =
    match find_child t l1 with
    | Some c => Some c
    | None => find_child t l2
    end.
Proof.
  induction l1 as [|c l1 IH]; simpl; [done|].
  by destruct (String.eqb (tag c) t).
Qed.

Lemma find_child_middle t l1 l2 c :
  find_child t (l1 ++ l2) = None -> tag c = t ->
  find_child t (l1 ++ c :: l2) = Some c.
Proof.
  rewrite !find_child_app. intros H Hc.
  destruct (find_child t l1); [done|]. simpl.
  by rewrite Hc, String.eqb_refl.
Qed.

Lemma modify_first_ext t (f g : element -> element) l :
  (forall c, tag c = t -> f c = g c) -> modify_first t f l = modify_first t g l.
Proof.
  intros Hfg. induction l as [|c l IH]; simpl; [done|].
  destruct (String.eqb_spec (tag c) t); [by rewrite Hfg|by rewrite IH].
Qed.

Lemma modify_first_twice t (f g : element -> element) l :
  (forall c, tag (g c) = tag c) ->
  modify_first t f (modify_first t g l) = modify_first t (fun c => f (g c)) l.
Proof.
  intros Hg. induction l as [|c l IH]; simpl; [done|].
  destruct (String.eqb_spec (tag c) t) as [Heq|Hne]; simpl.
  - by rewrite Hg, Heq, String.eqb_refl.
  - destruct (String.eqb_spec (tag c) t); [done|]. by rewrite IH.
Qed.

Lemma find_child_modify_first t (k : element -> element) l :
  (forall c, tag (k c) = tag c) ->
  find_child t (modify_first t k l) = k <$> find_child t l.
Proof.
  intros Hk. induction l as [|c l IH]; simpl; [done|].
  destruct (String.eqb_spec (tag c) t) as [Heq|Hne]; simpl.
  - by rewrite Hk, Heq, String.eqb_refl.
  - destruct (String.eqb_spec (tag c) t); [done|]. by rewrite IH.
Qed.

(** The ordered insertion puts the new child somewhere among the old
    children, which keep their order. *)
Lemma insert_child_in_order_split parent c :
  exists l1 l2,
    child_nodes parent = l1 ++ l2 /\
    insert_child_in_order parent c = with_children parent (l1 ++ c :: l2).
Proof.
  unfold insert_child_in_order, append_child, insert_child.
  assert (exists l1 l2, child_nodes parent = l1 ++ l2 /\
            with_children parent (child_nodes parent ++ [c])
              = with_children parent (l1 ++ c :: l2)) as Happ.
  { exists (child_nodes parent), []. by rewrite app_nil_r. }
  destruct (negb (is_inner_tx parent)); [done|].
  destruct (list_index _ _) as [idx|]; [|done].
  destruct (insertion_index _ _) as [i|]; [|done].
  exists (take i (child_nodes parent)), (drop i (child_nodes parent)).
  by rewrite take_drop.
Qed.

Lemma tag_insert_child_in_order parent c :
  tag (insert_child_in_order parent c) = tag parent.
Proof.
  destruct (insert_child_in_order_split parent c) as (l1 & l2 & _ & ->). done.
Qed.

Lemma tag_find_or_create cur t : tag (find_or_create cur t) = tag cur.
Proof.
  unfold find_or_create. destruct (find_child _ _); [done|].
  apply tag_insert_child_in_order.
Qed.

Lemma find_child_find_or_create cur t :
  find_child t (child_nodes (find_or_create cur t))
    = Some (default (new_element t) (find_child t (child_nodes cur))).
Proof.
  unfold find_or_create. destruct (find_child t (child_nodes cur)) eqn:E; [done|].
  destruct (insert_child_in_order_split cur (new_element t)) as (l1 & l2 & Hl & ->).
  simpl. apply find_child_middle; [by rewrite <-Hl|done].
Qed.

Lemma find_or_create_found cur t c :
  find_child t (child_nodes cur) = Some c -> find_or_create cur t = cur.
Proof. unfold find_or_create. by intros ->. Qed.

Lemma tag_descend cur t k : tag (descend cur t k) = tag cur.
Proof. unfold descend. simpl. apply tag_find_or_create. Qed.

Lemma get_ns_tag e e' : tag e = tag e' -> get_ns e = get_ns e'.
Proof. unfold get_ns. by intros ->. Qed.

Lemma tag_walk dns parts value cur : tag (walk dns parts value cur) = tag cur.
Proof.
  destruct parts as [|part rest]; simpl.
  - by destruct value.
  - destruct (Str.split_once "@" part) as [[elem_tag attr_name]|].
    + destruct (Str.truthy elem_tag); [apply tag_descend|by destruct value].
    + apply tag_descend.
Qed.

Lemma descend_twice cur t (f g : element -> element) :
  (forall c, tag (g c) = tag c) ->
  descend (descend cur t g) t f = descend cur t (fun c => f (g c)).
Proof.
  intros Hg. unfold descend at 1.
  assert (find_or_create (descend cur t g) t = descend cur t g) as ->.
  { unfold descend. set (cur' := find_or_create cur t).
    unfold find_or_create at 1. simpl.
    rewrite find_child_modify_first by done.
    unfold cur'. rewrite find_child_find_or_create. done. }
  unfold descend. simpl. by rewrite modify_first_twice.
Qed.
End tree_facts.

Lemma tag_ensure_path root path value :
  tag (_ensure_path root path value) = tag root.
Proof. apply tag_walk. Qed.

Lemma tag_ensure_fields fields : forall tx, tag (ensure_fields tx fields) = tag tx.
Proof.
  induction fields as [|[path value] fields IH]; intros tx; [done|].
  unfold ensure_fields in *. simpl. rewrite IH. apply tag_ensure_path.
Qed.

Lemma split_once_None sep s :
  Str.contains sep s = false -> Str.split_once sep s = None.
Proof.
  induction s as [|c s IH]; simpl; [done|].
  intros [-> H]%orb_false_iff. by rewrite IH.
Qed.

Lemma split_once_app sep a b :
  Str.contains sep a = false ->
  Str.split_once sep (a +:+ String sep b) = Some (a, b).
Proof.
  induction a as [|c a IH]; simpl.
  - by rewrite Ascii.eqb_refl.
  - intros [-> H]%orb_false_iff. by rewrite IH.
Qed.

Section walk_facts.
Variable dns : string.

Lemma walk_element_step part rest value cur :
  Str.contains "@" part = false ->
  walk dns (part :: rest) value cur
    = descend cur (QName (or_else (get_ns cur) dns) part) (walk dns rest value).
Proof. intros H. simpl. by rewrite split_once_None. Qed.

End walk_facts.

Lemma keeps_tag_set_text_opt value : keeps_tag (set_text_opt value).
Proof. intros c. by destruct value. Qed.
Lemma keeps_tag_set_attr_opt a value : keeps_tag (set_attr_opt a value).
Proof. intros c. by destruct value. Qed.

Lemma modify_first_found t (k : element -> element) l c :
  find_child t l = Some c -> modify_first t k l = modify_first t (fun _ => k c) l.
Proof.
  induction l as [|c' l IH]; simpl; [done|].
  destruct (String.eqb (tag c') t); [by intros [= ->]|].
  intros H. by rewrite IH.
Qed.

Lemma with_children_same e : with_children e (child_nodes e) = e.
Proof. by destruct e. Qed.

Section chain_facts.
Variable dns : string.

Lemma tag_ensure_chain parts k cur :
  keeps_tag k -> tag (ensure_chain dns parts k cur) = tag cur.
Proof. intros Hk. destruct parts; [apply Hk|apply tag_descend]. Qed.

(** On element segments [walk] is the chain traversal ending in the text
    assignment. *)
Lemma walk_ensure_chain parts value : forall cur,
  element_only parts ->
  walk dns parts value cur = ensure_chain dns parts (set_text_opt value) cur.
Proof.
  induction parts as [|part rest IH]; intros cur Hparts; [done|].
  inv Hparts. rewrite walk_element_step by done. simpl.
  unfold descend. f_equal. apply modify_first_ext. intros c _. by apply IH.
Qed.

(** A segment with the attribute marker ends the traversal, whatever
    follows it: the element part, when there is one, is one more link of
    the chain, and the attribute goes on the node the chain ends at. *)
Lemma walk_attribute pre elem_tag attr_name rest value : forall cur,
  element_only pre ->
  Str.contains "@" elem_tag = false ->
  walk dns (pre ++ (elem_tag +:+ "@" +:+ attr_name) :: rest) value cur
    = ensure_chain dns (attr_chain pre elem_tag) (set_attr_opt attr_name value) cur.
Proof.
  intros cur Hpre Htag. revert cur. unfold attr_chain.
  induction Hpre as [|part pre Hpart Hpre IH]; intros cur.
  - simpl. change ("@" +:+ attr_name) with (String "@" attr_name).
    rewrite split_once_app by done.
    by destruct (Str.truthy elem_tag).
  - rewrite <-app_comm_cons, walk_element_step by done.
    transitivity
      (ensure_chain dns
         (part :: (if Str.truthy elem_tag then pre ++ [elem_tag] else pre))
         (set_attr_opt attr_name value) cur);
      [|by destruct (Str.truthy elem_tag)].
    cbn [ensure_chain].
    unfold descend. f_equal. apply modify_first_ext. intros c _. apply IH.
Qed.

Lemma ensure_chain_twice parts (f g : element -> element) : forall cur,
  keeps_tag g ->
  ensure_chain dns parts f (ensure_chain dns parts g cur)
    = ensure_chain dns parts (fun c => f (g c)) cur.
Proof.
  induction parts as [|part rest IH]; intros cur Hg; [done|].
  simpl. set (t := QName (or_else (get_ns cur) dns) part).
  rewrite (get_ns_tag (descend cur t (ensure_chain dns rest g)) cur)
    by apply tag_descend.
  fold t. rewrite descend_twice by (intros; by apply tag_ensure_chain).
  unfold descend. f_equal. apply modify_first_ext. intros c _. by apply IH.
Qed.

Lemma ensure_chain_ext parts (f g : element -> element) : forall cur,
  (forall c, f c = g c) ->
  ensure_chain dns parts f cur = ensure_chain dns parts g cur.
Proof.
  induction parts as [|part rest IH]; intros cur Hfg; [apply Hfg|].
  simpl. unfold descend. f_equal. apply modify_first_ext. intros c _. by apply IH.
Qed.

Lemma node_on_path_fresh parts t :
  node_on_path dns parts (new_element t) ≫= text = None.
Proof. by destruct parts. Qed.

(** After the traversal the chain exists, and the node it ends at is the
    image under [k] of a node [e0] that carries the text the path led to
    before the call (none if the chain was incomplete). *)
Lemma node_on_path_ensure_chain parts : forall cur,
  exists e0,
    (forall k, keeps_tag k ->
       node_on_path dns parts (ensure_chain dns parts k cur) = Some (k e0)) /\
    text e0 = node_on_path dns parts cur ≫= text.
Proof.
  induction parts as [|part rest IH]; intros cur.
  - exists cur. split; [done|done].
  - set (t := QName (or_else (get_ns cur) dns) part).
    destruct (IH (default (new_element t) (find_child t (child_nodes cur))))
      as (e0 & Hnode & Htext).
    exists e0. split.
    + intros k Hk. simpl. fold t.
      rewrite (get_ns_tag (descend cur t (ensure_chain dns rest k)) cur)
        by apply tag_descend.
      fold t. unfold descend. simpl.
      rewrite find_child_modify_first by (intros; by apply tag_ensure_chain).
      rewrite find_child_find_or_create. simpl. by apply Hnode.
    + rewrite Htext. simpl. fold t.
      destruct (find_child t (child_nodes cur)); simpl; [done|].
      apply node_on_path_fresh.
Qed.

(** When the chain exists the traversal creates nothing: it is the update
    of the node the path ends at. *)
Lemma update_on_path_existing parts k : forall cur,
  is_Some (node_on_path dns parts cur) ->
  update_on_path dns parts k cur = Some (ensure_chain dns parts k cur).
Proof.
  induction parts as [|part rest IH]; intros cur Hex; [done|].
  simpl in *. set (t := QName (or_else (get_ns cur) dns) part) in *.
  destruct (find_child t (child_nodes cur)) as [c|] eqn:Hc; simpl in *;
    [|by destruct Hex].
  rewrite IH by done. simpl. f_equal.
  unfold descend. rewrite (find_or_create_found _ _ _ Hc).
  f_equal. symmetry. by apply modify_first_found.
Qed.
End chain_facts.

Lemma ensure_path_twice (root : element) (path : string)
    (v1 : option string) (v2 : string) :
  element_only (path_parts path) ->
  let r1 := _ensure_path root path v1 in
  let r2 := _ensure_path r1 path (Some v2) in
  r2 = _ensure_path root path (Some v2)
  /\ update_on_path (default_ns root) (path_parts path) (set_text v2) r1 = Some r2
  /\ exists e, node_on_path (default_ns root) (path_parts path) r2 = Some e
               /\ text e = Some v2.
Proof.
  intros Hparts r1 r2. unfold r2, r1, _ensure_path.
  assert (default_ns (walk (default_ns root) (path_parts path) v1 root)
            = default_ns root) as ->.
  { unfold default_ns. f_equal. apply get_ns_tag, tag_walk. }
  set (dns := default_ns root). set (parts := path_parts path) in *.
  rewrite !walk_ensure_chain by done.
  destruct (node_on_path_ensure_chain dns parts root) as (e0 & Hnode & _).
  split; [|split].
  - rewrite ensure_chain_twice by apply keeps_tag_set_text_opt.
    apply ensure_chain_ext. intros c. by destruct v1.
  - apply update_on_path_existing.
    rewrite Hnode by apply keeps_tag_set_text_opt. eauto.
  - rewrite ensure_chain_twice by apply keeps_tag_set_text_opt.
    exists (set_text v2 (set_text_opt v1 e0)). split; [|done].
    apply (Hnode (fun c => set_text_opt (Some v2) (set_text_opt v1 c))).
    intros c. by destruct v1.
Qed.

Lemma dict_get_set k v d : dict_get k (dict_set k v d) = Some v.
Proof.
  induction d as [|[k' v'] d IH]; simpl.
  - by rewrite String.eqb_refl.
  - destruct (String.eqb k' k) eqn:E; simpl; [by rewrite String.eqb_refl|].
    by rewrite E.
Qed.

Lemma element_only_snoc pre p :
  element_only pre -> Str.contains "@" p = false -> element_only (pre ++ [p]).
Proof. intros Hpre Hp. apply Forall_app. split; [done|by constructor]. Qed.

Lemma element_only_attr_chain pre elem_tag :
  element_only pre -> Str.contains "@" elem_tag = false ->
  element_only (attr_chain pre elem_tag).
Proof.
  intros Hpre Htag. unfold attr_chain.
  destruct (Str.truthy elem_tag); [by apply element_only_snoc|done].
Qed.

Section attribute_terminal.
Variables (dns : string) (pre : list string) (elem_tag attr_name : string).
Hypothesis Hpre : element_only pre.
Hypothesis Htag : Str.contains "@" elem_tag = false.

(** A path ending in [elem_tag@attr_name]: the chain of elements is found
    or created as for the element path, the attribute is set on the node
    it ends at, and that node keeps the text it had. *)
Lemma walk_attribute_terminal rest value cur :
  let chain := attr_chain pre elem_tag in
  let res := walk dns (pre ++ (elem_tag +:+ "@" +:+ attr_name) :: rest) value cur in
  update_on_path dns chain (set_attr_opt attr_name value) (walk dns chain None cur)
    = Some res
  /\ exists e0,
       node_on_path dns chain res = Some (set_attr_opt attr_name value e0)
       /\ text e0 = node_on_path dns chain cur ≫= text.
Proof.
  intros chain res. unfold res. rewrite walk_attribute by done. fold chain.
  assert (element_only chain) as Hchain by by apply element_only_attr_chain.
  rewrite walk_ensure_chain by done.
  destruct (node_on_path_ensure_chain dns chain cur) as (e0 & Hnode & Htext).
  split.
  - rewrite update_on_path_existing
      by (rewrite Hnode by apply keeps_tag_set_text_opt; eauto).
    f_equal. rewrite ensure_chain_twice by apply keeps_tag_set_text_opt. done.
  - exists e0. split; [|done]. apply Hnode, keeps_tag_set_attr_opt.
Qed.
End attribute_terminal.


Example amt_ccy_eur :
  _ensure_path ex_tx "Amt@Ccy" (Some "EUR")
  = append_child ex_tx
      (set_attr "Ccy" "EUR" (new_element (QName NS_AUTH "Amt"))).
Proof. by vm_compute. Qed.



Section list_index_facts.
Implicit Types (x : string) (l : list string).

Lemma list_index_lookup x l i : list_index x l = Some i -> l !! i = Some x.
Proof.
  revert i. induction l as [|y l IH]; intros i; simpl; [done|].
  destruct (String.eqb_spec y x) as [->|Hne]; [by intros [= <-]|].
  destruct (list_index x l) as [j|]; simpl; [|done].
  intros [= <-]. by apply IH.
Qed.

Lemma lookup_list_index x l i :
  NoDup l -> l !! i = Some x -> list_index x l = Some i.
Proof.
  intros Hnd. revert i. induction Hnd as [|y l Hy Hnd IH]; intros i; [done|].
  destruct i as [|i]; simpl.
  - intros [= ->]. by rewrite String.eqb_refl.
  - intros Hi. destruct (String.eqb_spec y x) as [->|Hne].
    + destruct Hy. by eapply list_elem_of_lookup_2.
    + by rewrite (IH _ Hi).
Qed.
End list_index_facts.

Section rank_facts.
Lemma NoDup_order : NoDup INNER_TX_ORDER.
Proof. apply (bool_decide_unpack (NoDup INNER_TX_ORDER)). by vm_compute. Qed.

Lemma rank_lookup name r : rank name = Some r <-> INNER_TX_ORDER !! r = Some name.
Proof.
  split; [apply list_index_lookup|apply lookup_list_index, NoDup_order].
Qed.

Lemma rank_inj a b r : rank a = Some r -> rank b = Some r -> a = b.
Proof. rewrite !rank_lookup. congruence. Qed.

(** The names the outer loop of the ordered insertion runs over are the
    names ranked above [r]. *)
Lemma elem_of_afters name r :
  name ∈ drop (r + 1) INNER_TX_ORDER <->
  exists r', rank name = Some r' /\ r < r'.
Proof.
  rewrite list_elem_of_lookup. split.
  - intros [j Hj]. rewrite lookup_drop in Hj.
    exists (r + 1 + j). rewrite rank_lookup. split; [done|lia].
  - intros (r' & Hr' & Hlt). exists (r' - (r + 1)).
    rewrite lookup_drop. apply rank_lookup in Hr'.
    by replace (r + 1 + (r' - (r + 1))) with r' by lia.
Qed.

Lemma order_increasing : StronglySorted ranked_below INNER_TX_ORDER.
Proof.
  repeat first
    [ apply SSorted_nil
    | apply SSorted_cons
    | apply Forall_nil_2
    | apply Forall_cons_2
    | (eexists _, _; split; [by vm_compute|split; [by vm_compute|lia]]) ].
Qed.

Lemma afters_increasing r :
  StronglySorted ranked_below (drop (r + 1) INNER_TX_ORDER).
Proof.
  pose proof order_increasing as H.
  rewrite <-(take_drop (r + 1) INNER_TX_ORDER) in H.
  by apply StronglySorted_app_1_r in H.
Qed.
End rank_facts.

Section ordered_insertion.
Implicit Types (sibs : list element) (a b : string).

Lemma sibling_index_Some a sibs i :
  sibling_index a sibs = Some i ->
  (a ∉ sibling_names (take i sibs)) /\
  sibling_names (drop i sibs) !! 0 = Some a.
Proof.
  revert i. induction sibs as [|s sibs IH]; intros i; simpl; [done|].
  destruct (String.eqb_spec (local_name (tag s)) a) as [Heq|Hne].
  - intros [= <-]. simpl. split; [apply not_elem_of_nil|by rewrite Heq].
  - destruct (sibling_index a sibs) as [j|]; simpl; [|done].
    intros [= <-]. destruct (IH j eq_refl) as [Hpre Hat]. simpl.
    split; [|done]. rewrite not_elem_of_cons. done.
Qed.

Lemma sibling_index_None a sibs :
  sibling_index a sibs = None -> a ∉ sibling_names sibs.
Proof.
  induction sibs as [|s sibs IH]; simpl; [intros _; apply not_elem_of_nil|].
  destruct (String.eqb_spec (local_name (tag s)) a) as [Heq|Hne]; [done|].
  destruct (sibling_index a sibs); simpl; [done|].
  intros _. rewrite not_elem_of_cons. split; [done|by apply IH].
Qed.

Lemma insertion_index_Some afters sibs i :
  insertion_index afters sibs = Some i ->
  exists pre a post,
    afters = pre ++ a :: post /\
    sibling_index a sibs = Some i /\
    Forall (fun b => b ∉ sibling_names sibs) pre.
Proof.
  induction afters as [|a afters IH]; simpl; [done|].
  destruct (sibling_index a sibs) as [j|] eqn:Ha.
  - intros [= <-]. exists [], a, afters. split; [done|]. split; [done|constructor].
  - intros (pre & a' & post & -> & Hidx & Hpre)%IH.
    exists (a :: pre), a', post. split; [done|]. split; [done|].
    constructor; [by apply sibling_index_None|done].
Qed.

Lemma insertion_index_None afters sibs :
  insertion_index afters sibs = None ->
  Forall (fun b => b ∉ sibling_names sibs) afters.
Proof.
  induction afters as [|a afters IH]; simpl; [constructor|].
  destruct (sibling_index a sibs) eqn:Ha; [done|].
  intros H. constructor; [by apply sibling_index_None|by apply IH].
Qed.

(** Where the ordered insertion puts a child of rank [r] among siblings
    that are in rank order: every ranked sibling before it has rank at
    most [r], every ranked sibling after it has rank above [r]. *)
Lemma insertion_point sibs r :
  rank_sorted (sibling_names sibs) ->
  (forall n rn,
     n ∈ sibling_names (take (insert_position r sibs) sibs) ->
     rank n = Some rn -> rn <= r) /\
  (forall n rn,
     n ∈ sibling_names (drop (insert_position r sibs) sibs) ->
     rank n = Some rn -> r < rn).
Proof.
  intros Hsorted. unfold insert_position.
  destruct (insertion_index _ sibs) as [i|] eqn:Hidx; simpl.
  - apply insertion_index_Some in Hidx as (pre & a & post & Hafters & Hidx & Hpre).
    apply sibling_index_Some in Hidx as [Hbefore Hat].
    assert (exists ra, rank a = Some ra /\ r < ra) as (ra & Hra & Hlt).
    { apply elem_of_afters. rewrite Hafters. set_solver. }
    unfold rank_sorted in Hsorted.
    rewrite <-(take_drop i sibs) in Hsorted. unfold sibling_names in *.
    rewrite fmap_app in Hsorted.
    destruct ((fun c => local_name (tag c)) <$> drop i sibs)
      as [|a' rest] eqn:Hdrop; [done|].
    simpl in Hat. injection Hat as ->.
    split.
    + intros n rn Hn Hrn.
      destruct (decide (rn <= r)) as [|Hgt]; [done|]. exfalso.
      assert (n ∈ drop (r + 1) INNER_TX_ORDER) as Hin.
      { apply elem_of_afters. exists rn. split; [done|lia]. }
      rewrite Hafters in Hin.
      apply elem_of_app in Hin as [Hin|Hin].
      * rewrite Forall_forall in Hpre. apply (Hpre n Hin).
        rewrite <-(take_drop i sibs), fmap_app. apply elem_of_app. by left.
      * apply elem_of_cons in Hin as [->|Hin]; [done|].
        pose proof (afters_increasing r) as Hinc. rewrite Hafters in Hinc.
        apply StronglySorted_app_1_r in Hinc.
        apply StronglySorted_cons in Hinc as [Hinc _].
        rewrite Forall_forall in Hinc.
        destruct (Hinc n Hin) as (ra' & rn' & Hra' & Hrn' & Hlt').
        assert (rn <= ra).
        { eapply (StronglySorted_app_1_elem_of _ _ _ n a Hsorted);
            [done|by left|done|done]. }
        simplify_eq. lia.
    + intros n rn Hn Hrn.
      apply StronglySorted_app_1_r, StronglySorted_cons in Hsorted as [Hafter _].
      apply elem_of_cons in Hn as [->|Hn]; [by simplify_eq|].
      rewrite Forall_forall in Hafter.
      specialize (Hafter n Hn ra rn Hra Hrn). lia.
  - apply insertion_index_None in Hidx. rewrite Forall_forall in Hidx.
    rewrite firstn_all, drop_all. split; [|by intros ?? ?%elem_of_nil].
    intros n rn Hn Hrn.
    destruct (decide (rn <= r)) as [|Hgt]; [done|]. exfalso.
    apply (Hidx n); [|done]. apply elem_of_afters. exists rn. split; [done|lia].
Qed.
End ordered_insertion.

Section sorted_lists.
Context {A : Type} (R : relation A).

Lemma StronglySorted_weaken (R' : relation A) l :
  (forall x y, R x y -> R' x y) -> StronglySorted R l -> StronglySorted R' l.
Proof.
  intros HR. induction 1 as [|x l Hl IH Hx]; constructor; [done|].
  eapply Forall_impl; [done|]. auto.
Qed.

Lemma StronglySorted_filter (P : A -> Prop) `{!forall x, Decision (P x)} l :
  StronglySorted R l -> StronglySorted R (filter P l).
Proof.
  induction 1 as [|x l Hl IH Hx]; [constructor|].
  rewrite filter_cons. destruct (decide (P x)); [|done].
  constructor; [done|].
  rewrite Forall_forall in Hx |- *. intros y [_ Hy]%list_elem_of_filter. auto.
Qed.
End sorted_lists.

Lemma ranked_below_in_rank_order a b : ranked_below a b -> in_rank_order a b.
Proof. intros (ra & rb & Ha & Hb & Hlt) ra' rb' Ha' Hb'. simplify_eq. lia. Qed.

Lemma rank_cases p r :
  rank p = Some r ->
  p = "TradDt" \/ p = "TradgCpcty" \/ p = "Qty" \/ p = "Pric" \/ p = "TradVn".
Proof.
  intros Hp%rank_lookup%list_elem_of_lookup_2.
  unfold INNER_TX_ORDER in Hp.
  repeat (apply elem_of_cons in Hp as [->|Hp]; [tauto|]).
  by apply elem_of_nil in Hp.
Qed.

Lemma is_inner_tx_ns tx : is_inner_tx tx = true -> get_ns tx = Some NS_AUTH.
Proof.
  unfold is_inner_tx. destruct (negb (_ || _)); [done|].
  destruct (bool_decide (get_ns tx = Some NS_AUTH)) eqn:E; [|done].
  by apply bool_decide_eq_true in E.
Qed.

Lemma is_inner_tx_names tx tx' :
  tag tx' = tag tx ->
  (forall n, n ∈ child_names tx' -> n ∈ child_names tx \/ is_Some (rank n)) ->
  is_inner_tx tx = true -> is_inner_tx tx' = true.
Proof.
  intros Htag Hnames. unfold is_inner_tx.
  rewrite (get_ns_tag tx' tx Htag), Htag.
  destruct (negb (_ || _)); [done|].
  destruct (negb (bool_decide _)); [done|].
  rewrite !forallb_forall. intros Hold c Hc%list_elem_of_In.
  destruct (Hnames (local_name (tag c))) as [Hin|[r Hr]].
  { unfold child_names, sibling_names. apply list_elem_of_fmap. eauto. }
  - unfold child_names, sibling_names in Hin.
    apply list_elem_of_fmap in Hin as (c0 & Heq & Hc0).
    rewrite Heq. apply Hold. by apply list_elem_of_In.
  - apply rank_cases in Hr as [-> | [-> | [-> | [-> | ->]]]]; done.
Qed.

Lemma ensure_path_ranked tx p r value :
  is_inner_tx tx = true -> rank p = Some r ->
  _ensure_path tx p value = descend tx (QName NS_AUTH p) (set_text_opt value).
Proof.
  intros Hns%is_inner_tx_ns Hp. unfold _ensure_path, default_ns.
  assert (path_parts p = [p] /\ Str.contains "@" p = false) as [-> Hat].
  { apply rank_cases in Hp as [-> | [-> | [-> | [-> | ->]]]]; by vm_compute. }
  rewrite walk_element_step by done. rewrite Hns. done.
Qed.

Section ranked_step.
Variables (tx : element) (p : string) (r : nat) (k : element -> element).
Hypothesis Hinner : is_inner_tx tx = true.
Hypothesis Hrank : rank p = Some r.
Hypothesis Hk : keeps_tag k.

Lemma child_tags_modify_first t l :
  tag <$> modify_first t k l = tag <$> l.
Proof.
  induction l as [|c l IH]; [done|]. cbn [modify_first].
  destruct (String.eqb (tag c) t); rewrite !fmap_cons;
    [by rewrite Hk|by rewrite IH].
Qed.

Lemma child_names_tags e : child_names e = local_name <$> child_tags e.
Proof.
  unfold child_names, sibling_names, child_tags.
  by rewrite <-list_fmap_compose.
Qed.

Lemma insert_child_in_order_ranked :
  child_nodes (insert_child_in_order tx (new_element (QName NS_AUTH p)))
    = take (insert_position r (child_nodes tx)) (child_nodes tx)
      ++ new_element (QName NS_AUTH p)
         :: drop (insert_position r (child_nodes tx)) (child_nodes tx).
Proof.
  unfold insert_child_in_order. rewrite Hinner. cbn [negb].
  change (local_name (tag (new_element (QName NS_AUTH p)))) with p.
  change (list_index p INNER_TX_ORDER) with (rank p). rewrite Hrank.
  unfold insert_position.
  destruct (insertion_index _ _) as [j|]; simpl; [done|].
  by rewrite firstn_all, drop_all.
Qed.

(** The children after one find-or-create step for a ranked name under
    the inner record node: unchanged tags when the child was there, the
    new tag at the insertion point otherwise. *)
Lemma child_tags_descend :
  (QName NS_AUTH p ∈ child_tags tx /\
   child_tags (descend tx (QName NS_AUTH p) k) = child_tags tx)
  \/ ((QName NS_AUTH p ∉ child_tags tx) /\
      child_tags (descend tx (QName NS_AUTH p) k)
        = take (insert_position r (child_nodes tx)) (child_tags tx)
          ++ QName NS_AUTH p
             :: drop (insert_position r (child_nodes tx)) (child_tags tx)).
Proof.
  unfold descend, find_or_create, child_tags. simpl.
  destruct (find_child (QName NS_AUTH p) (child_nodes tx)) as [c|] eqn:Hfind.
  - left. rewrite child_tags_modify_first. split; [|done].
    apply list_elem_of_fmap. exists c. split.
    + symmetry. by eapply find_child_Some_tag.
    + clear -Hfind. induction (child_nodes tx) as [|c' l IH]; simpl in *; [done|].
      destruct (String.eqb (tag c') _); [injection Hfind as ->; by left|].
      right. by apply IH.
  - right. rewrite child_tags_modify_first, insert_child_in_order_ranked.
    split.
    + apply find_child_None in Hfind. rewrite Forall_forall in Hfind.
      intros (c & Hc & Hin)%list_elem_of_fmap. by apply (Hfind c).
    + by rewrite fmap_app, fmap_cons, fmap_take, fmap_drop.
Qed.
End ranked_step.

Lemma rank_sorted_insert names x r i :
  rank x = Some r ->
  rank_sorted names ->
  (forall n rn, n ∈ take i names -> rank n = Some rn -> rn <= r) ->
  (forall n rn, n ∈ drop i names -> rank n = Some rn -> r < rn) ->
  rank_sorted (take i names ++ x :: drop i names).
Proof.
  intros Hx Hsorted Hbefore Hafter. unfold rank_sorted in *.
  rewrite <-(take_drop i names) in Hsorted.
  apply StronglySorted_app_2.
  - intros n m Hn [->|Hm]%elem_of_cons.
    + intros rn rx Hrn Hrx. simplify_eq. by eapply Hbefore.
    + by eapply StronglySorted_app_1_elem_of.
  - by eapply StronglySorted_app_1_l.
  - constructor; [by eapply StronglySorted_app_1_r|].
    apply Forall_forall. intros m Hm rx rm Hrx Hrm. simplify_eq.
    specialize (Hafter m rm Hm Hrm). lia.
Qed.

Lemma elem_of_insert_middle {A} (x y : A) (l : list A) i :
  y ∈ take i l ++ x :: drop i l <-> y = x \/ y ∈ l.
Proof.
  assert (y ∈ l <-> y ∈ take i l \/ y ∈ drop i l) as ->
    by by rewrite <-elem_of_app, take_drop.
  rewrite elem_of_app, elem_of_cons. tauto.
Qed.

Lemma NoDup_insert_middle {A} (x : A) (l : list A) i :
  x ∉ l -> NoDup l -> NoDup (take i l ++ x :: drop i l).
Proof.
  intros Hx Hl. rewrite <-Permutation_middle, take_drop. by constructor.
Qed.

(** One ranked field under the inner record node. *)
Lemma ensure_path_ranked_step tx p r value :
  is_inner_tx tx = true ->
  rank p = Some r ->
  rank_sorted (child_names tx) ->
  let tx' := _ensure_path tx p value in
  is_inner_tx tx' = true /\
  rank_sorted (child_names tx') /\
  (forall n, n ∈ child_names tx' <-> n = p \/ n ∈ child_names tx) /\
  (auth_tags (child_tags tx) -> NoDup (child_tags tx) ->
   auth_tags (child_tags tx') /\ NoDup (child_tags tx')).
Proof.
  intros Hinner Hp Hsorted tx'. unfold tx'.
  rewrite (ensure_path_ranked tx p r value Hinner Hp).
  set (k := set_text_opt value).
  assert (keeps_tag k) as Hk by apply keeps_tag_set_text_opt.
  set (i := insert_position r (child_nodes tx)).
  assert (forall n, n ∈ child_names (descend tx (QName NS_AUTH p) k)
                    <-> n = p \/ n ∈ child_names tx) as Hmem.
  { intros n. rewrite !child_names_tags.
    destruct (child_tags_descend tx p r k Hinner Hp Hk) as [[Hin ->]|[Hnot ->]].
    - split; [auto|]. intros [->|?]; [|done].
      apply list_elem_of_fmap. by exists (QName NS_AUTH p).
    - rewrite fmap_app, fmap_cons, fmap_take, fmap_drop.
      apply elem_of_insert_middle. }
  split; [|split; [|split; [done|]]].
  - apply (is_inner_tx_names tx); [apply tag_descend| |done].
    intros n [->|Hn]%Hmem; [right; eauto|by left].
  - rewrite child_names_tags.
    destruct (child_tags_descend tx p r k Hinner Hp Hk) as [[Hin ->]|[Hnot ->]].
    + by rewrite <-child_names_tags.
    + rewrite fmap_app, fmap_cons, fmap_take, fmap_drop.
      rewrite <-child_names_tags.
      destruct (insertion_point (child_nodes tx) r Hsorted) as [Hbefore Hafter].
      fold i in Hbefore, Hafter. unfold sibling_names in Hbefore, Hafter.
      rewrite fmap_take in Hbefore. rewrite fmap_drop in Hafter.
      by apply (rank_sorted_insert _ p r).
  - intros Hauth Hnd.
    destruct (child_tags_descend tx p r k Hinner Hp Hk) as [[Hin ->]|[Hnot ->]];
      [done|].
    split.
    + apply Forall_app. split; [by apply Forall_take|].
      constructor; [done|by apply Forall_drop].
    + by apply NoDup_insert_middle.
Qed.

(** Every field in turn. *)
Lemma ensure_fields_ranked fields : forall tx,
  is_inner_tx tx = true ->
  rank_sorted (child_names tx) ->
  Forall (fun f => is_Some (rank f.1)) fields ->
  let tx' := ensure_fields tx fields in
  is_inner_tx tx' = true /\
  rank_sorted (child_names tx') /\
  (forall n, n ∈ child_names tx' <-> n ∈ child_names tx \/ n ∈ fields.*1) /\
  (auth_tags (child_tags tx) -> NoDup (child_tags tx) ->
   auth_tags (child_tags tx') /\ NoDup (child_tags tx')).
Proof.
  induction fields as [|[p v] fields IH]; intros tx Hinner Hsorted Hfields.
  - simpl. split; [done|]. split; [done|]. split; [|done].
    intros n. rewrite elem_of_nil. tauto.
  - inv Hfields. destruct H1 as [r Hr].
    destruct (ensure_path_ranked_step tx p r (Some v) Hinner Hr Hsorted)
      as (Hinner1 & Hsorted1 & Hmem1 & Hauth1).
    destruct (IH _ Hinner1 Hsorted1 H2) as (Hinner2 & Hsorted2 & Hmem2 & Hauth2).
    split; [done|]. split; [done|]. split.
    + intros n. etransitivity; [apply Hmem2|].
      rewrite Hmem1, fmap_cons, elem_of_cons. simpl. tauto.
    + intros Ha Hn. destruct (Hauth1 Ha Hn). by apply Hauth2.
Qed.

Lemma NoDup_auth_names tags :
  auth_tags tags -> NoDup tags -> NoDup (local_name <$> tags).
Proof.
  intros Hauth Hnd. apply NoDup_fmap_2_strong; [|done].
  unfold auth_tags in Hauth. rewrite Forall_forall in Hauth.
  intros t1 t2 H1 H2 Heq. rewrite (Hauth t1 H1), (Hauth t2 H2). by rewrite Heq.
Qed.

Lemma rank_sorted_order_filter (P : string -> Prop) `{!forall n, Decision (P n)} :
  rank_sorted (filter P INNER_TX_ORDER).
Proof.
  apply StronglySorted_filter.
  eapply StronglySorted_weaken; [|apply order_increasing].
  apply ranked_below_in_rank_order.
Qed.

Lemma insert_child_in_order_unranked parent child :
  rank (local_name (tag child)) = None ->
  child_nodes (insert_child_in_order parent child) = child_nodes parent ++ [child].
Proof.
  intros Hrank. unfold insert_child_in_order.
  destruct (negb (is_inner_tx parent)); [done|].
  change (list_index (local_name (tag child)) INNER_TX_ORDER)
    with (rank (local_name (tag child))).
  by rewrite Hrank.
Qed.

(** Starting from an inner record node without children, the children
    are exactly the supplied names, in the order of the policy. *)
Lemma ensure_fields_fresh_order (tx : element) (fields : list (string * string)) :
  is_inner_tx tx = true ->
  child_nodes tx = [] ->
  Forall (fun f => is_Some (rank f.1)) fields ->
  child_names (ensure_fields tx fields)
    = filter (fun n => n ∈ fields.*1) INNER_TX_ORDER.
Proof.
  intros Hinner Hfresh Hfields.
  assert (child_tags tx = []) as Htags by (unfold child_tags; by rewrite Hfresh).
  assert (child_names tx = []) as Hnames
    by (unfold child_names; by rewrite Hfresh).
  destruct (ensure_fields_ranked fields tx Hinner) as (_ & Hsorted' & Hmem & Hauth);
    [rewrite Hnames; constructor|done|].
  destruct Hauth as [Hauth' Hnd'];
    [rewrite Htags; constructor|rewrite Htags; constructor|].
  rewrite Forall_forall in Hfields.
  assert (forall n, n ∈ child_names (ensure_fields tx fields) <-> n ∈ fields.*1)
    as Hmem'.
  { intros n. rewrite Hmem, Hnames, elem_of_nil. tauto. }
  apply (StronglySorted_unique_strong in_rank_order).
  - intros a b Ha [Hb Hb']%list_elem_of_filter Hab Hba.
    apply Hmem', list_elem_of_fmap in Ha as ([p v] & -> & [ra Hra]%Hfields).
    apply list_elem_of_fmap in Hb as ([p' v'] & -> & [rb Hrb]%Hfields).
    simpl in *. specialize (Hab _ _ Hra Hrb). specialize (Hba _ _ Hrb Hra).
    apply (rank_inj _ _ ra); [done|]. rewrite Hrb. f_equal. lia.
  - done.
  - apply rank_sorted_order_filter.
  - apply NoDup_Permutation.
    + rewrite child_names_tags. by apply NoDup_auth_names.
    + apply NoDup_filter, NoDup_order.
    + intros n. rewrite Hmem', list_elem_of_filter. split; [|tauto].
      intros Hn. split; [done|].
      apply list_elem_of_fmap in Hn as ([p v] & -> & [rp Hrp]%Hfields).
      apply rank_lookup in Hrp. by eapply list_elem_of_lookup_2.
Qed.

Lemma or_else_twice a b : or_else a (or_else a b) = or_else a b.
Proof. destruct a as [s|]; simpl; [|done]. by destruct (Str.truthy s). Qed.

Lemma ensure_chain_app dns pre rest k : forall cur,
  ensure_chain dns (pre ++ rest) k cur
    = ensure_chain dns pre (ensure_chain dns rest k) cur.
Proof.
  induction pre as [|part pre IH]; intros cur; [done|].
  rewrite <-app_comm_cons. cbn [ensure_chain].
  unfold descend. f_equal. apply modify_first_ext. intros c _. apply IH.
Qed.

(** A one-segment element path addresses a child of the root whatever the
    default namespace the call starts from. *)
Lemma ensure_path_single cur n value :
  path_parts n = [n] -> Str.contains "@" n = false ->
  _ensure_path cur n value = ensure_chain NS_AUTH [n] (set_text_opt value) cur.
Proof.
  intros Hparts Hat. unfold _ensure_path, default_ns. rewrite Hparts.
  rewrite walk_ensure_chain by by repeat constructor.
  cbn [ensure_chain]. by rewrite or_else_twice.
Qed.

Lemma ranked_path_parts n r :
  rank n = Some r ->
  path_parts n = [n] /\ Str.contains "@" n = false /\
  path_parts ("New/Tx/" +:+ n) = ["New"; "Tx"; n].
Proof. intros [-> | [-> | [-> | [-> | ->]]]]%rank_cases; by vm_compute. Qed.

Section record_fragment.
Lemma default_ns_wrapper fields :
  default_ns (ensure_fields (fresh_wrapper NS_AUTH) fields) = NS_AUTH.
Proof.
  unfold default_ns.
  rewrite (get_ns_tag _ (fresh_wrapper NS_AUTH)) by apply tag_ensure_fields.
  done.
Qed.

Lemma ensure_fields_snoc tx fields f :
  ensure_fields tx (fields ++ [f])
    = _ensure_path (ensure_fields tx fields) f.1 (Some f.2).
Proof. unfold ensure_fields. rewrite fold_left_app. by destruct f. Qed.

(** Filling the wrapper with fields under [New/Tx] is filling the inner
    node with the same fields addressed from it. *)
Lemma ensure_fields_under_new_tx fields :
  Forall (fun f => is_Some (rank f.1)) fields ->
  ensure_chain NS_AUTH ["New"; "Tx"] (fun c => c)
    (ensure_fields (fresh_wrapper NS_AUTH) (under_new_tx fields))
  = ensure_chain NS_AUTH ["New"; "Tx"] (fun c => ensure_fields c fields)
      (fresh_wrapper NS_AUTH).
Proof.
  induction fields as [|f fields IH] using rev_ind; intros Hfields; [done|].
  apply Forall_app in Hfields as [Hfields Hf]. inv Hf. destruct H1 as [r Hr].
  destruct (ranked_path_parts _ _ Hr) as (Hparts & Hat & Hnested).
  unfold under_new_tx in *. rewrite fmap_app. cbn [fmap list_fmap].
  rewrite ensure_fields_snoc. cbn [fst snd].
  set (W := ensure_fields (fresh_wrapper NS_AUTH) _) in *.
  unfold _ensure_path. rewrite Hnested.
  assert (default_ns W = NS_AUTH) as -> by apply default_ns_wrapper.
  rewrite walk_ensure_chain by (repeat constructor; done).
  change ["New"; "Tx"; f.1] with (["New"; "Tx"] ++ [f.1]).
  rewrite ensure_chain_app.
  rewrite ensure_chain_twice by (intros c; by apply tag_ensure_chain).
  transitivity (ensure_chain NS_AUTH ["New"; "Tx"]
                  (fun c => ensure_chain NS_AUTH [f.1] (set_text_opt (Some f.2)) c)
                  (ensure_chain NS_AUTH ["New"; "Tx"] (fun c => c) W)).
  { by rewrite ensure_chain_twice. }
  rewrite IH by done.
  rewrite ensure_chain_twice
    by (intros c; apply tag_ensure_fields).
  apply ensure_chain_ext. intros c.
  rewrite ensure_fields_snoc. by rewrite ensure_path_single.
Qed.
End record_fragment.

Section existing_chain.
Variable dns : string.

Lemma modify_first_id t l : modify_first t (fun c => c) l = l.
Proof.
  induction l as [|c l IH]; simpl; [done|].
  destruct (String.eqb (tag c) t); [done|by rewrite IH].
Qed.

Lemma ensure_chain_id_existing parts : forall cur,
  is_Some (node_on_path dns parts cur) ->
  ensure_chain dns parts (fun c => c) cur = cur.
Proof.
  induction parts as [|part rest IH]; intros cur Hex; [done|].
  cbn [ensure_chain node_on_path] in *.
  set (t := QName (or_else (get_ns cur) dns) part) in *.
  destruct (find_child t (child_nodes cur)) as [c|] eqn:Hc; simpl in Hex;
    [|by destruct Hex].
  unfold descend. rewrite (find_or_create_found _ _ _ Hc).
  rewrite (modify_first_found _ _ _ _ Hc), (IH _ Hex).
  rewrite <-(modify_first_found _ (fun c => c) _ _ Hc), modify_first_id.
  apply with_children_same.
Qed.

Lemma node_on_path_prefix pre rest : forall cur,
  is_Some (node_on_path dns (pre ++ rest) cur) ->
  is_Some (node_on_path dns pre cur).
Proof.
  induction pre as [|part pre IH]; intros cur; [by eauto|].
  rewrite <-app_comm_cons. cbn [node_on_path].
  destruct (find_child _ _) as [c|]; simpl; [apply IH|done].
Qed.
End existing_chain.

(** The inner record node of the wrapper [append_tx] fills from ranked
    fields under [New/Tx] is the fresh inner node filled with the same
    fields. *)
Lemma wrapper_inner_node fields :
  fields <> [] ->
  Forall (fun f => is_Some (rank f.1)) fields ->
  node_on_path NS_AUTH ["New"; "Tx"]
    (ensure_fields (fresh_wrapper NS_AUTH) (under_new_tx fields))
  = Some (ensure_fields (new_element (QName NS_AUTH "Tx")) fields).
Proof.
  intros Hne Hfields.
  set (E := ensure_fields (fresh_wrapper NS_AUTH) (under_new_tx fields)).
  assert (is_Some (node_on_path NS_AUTH ["New"; "Tx"] E)) as Hex.
  { destruct fields as [|f fields _] using rev_ind; [done|].
    apply Forall_app in Hfields as [_ Hf]. inv Hf. destruct H1 as [r Hr].
    destruct (ranked_path_parts _ _ Hr) as (_ & Hat & Hnested).
    unfold E, under_new_tx. rewrite fmap_app. cbn [fmap list_fmap].
    rewrite ensure_fields_snoc. cbn [fst snd].
    unfold _ensure_path. rewrite Hnested, default_ns_wrapper.
    rewrite walk_ensure_chain by (repeat constructor; done).
    apply (node_on_path_prefix NS_AUTH ["New"; "Tx"] [f.1]).
    destruct (node_on_path_ensure_chain NS_AUTH (["New"; "Tx"] ++ [f.1])
                (ensure_fields (fresh_wrapper NS_AUTH)
                   ((fun f => ("New/Tx/" +:+ f.1, f.2)) <$> fields)))
      as (e0 & He0 & _).
    rewrite He0 by apply keeps_tag_set_text_opt. eauto. }
  rewrite <-(ensure_chain_id_existing NS_AUTH _ E Hex).
  unfold E. rewrite ensure_fields_under_new_tx by done.
  destruct (node_on_path_ensure_chain NS_AUTH ["New"; "Tx"] (fresh_wrapper NS_AUTH))
    as (e0 & He0 & _).
  assert (e0 = new_element (QName NS_AUTH "Tx")) as ->.
  { specialize (He0 (fun c => c) ltac:(done)). vm_compute in He0.
    injection He0 as <-. reflexivity. }
  apply He0. intros c. apply tag_ensure_fields.
Qed.

Section any_path.
Implicit Types (tx : element) (k : element -> element).

Lemma child_tags_descend_incl tx t k :
  keeps_tag k -> child_tags tx ⊆ child_tags (descend tx t k).
Proof.
  intros Hk. unfold descend, child_tags. cbn [child_nodes with_children].
  rewrite (child_tags_modify_first k Hk).
  unfold find_or_create. destruct (find_child t (child_nodes tx)); [done|].
  destruct (insert_child_in_order_split tx (new_element t))
    as (l1 & l2 & -> & ->).
  cbn [child_nodes with_children]. rewrite !fmap_app, fmap_cons.
  intros x. rewrite !elem_of_app, elem_of_cons. tauto.
Qed.

Lemma child_names_descend_incl tx t k :
  keeps_tag k -> child_names tx ⊆ child_names (descend tx t k).
Proof.
  intros Hk n. rewrite !child_names_tags.
  intros (t' & -> & Ht')%list_elem_of_fmap.
  apply list_elem_of_fmap. exists t'. split; [done|].
  by apply child_tags_descend_incl.
Qed.

Lemma keeps_tag_walk dns parts value : keeps_tag (walk dns parts value).
Proof. intros c. apply tag_walk. Qed.

(** A call never takes a child away, whatever its path. *)
Lemma child_names_walk_incl dns parts value tx :
  child_names tx ⊆ child_names (walk dns parts value tx).
Proof.
  destruct parts as [|part rest]; cbn [walk].
  - by destruct value.
  - destruct (Str.split_once "@" part) as [[elem_tag attr_name]|].
    + destruct (Str.truthy elem_tag).
      * apply child_names_descend_incl. intros c. by destruct value.
      * by destruct value.
    + apply child_names_descend_incl, keeps_tag_walk.
Qed.

(** Once a node has left the ordering context it stays out of it. *)
Lemma is_inner_tx_earlier tx tx' :
  tag tx' = tag tx ->
  child_names tx ⊆ child_names tx' ->
  is_inner_tx tx' = true -> is_inner_tx tx = true.
Proof.
  intros Htag Hincl. unfold is_inner_tx.
  rewrite (get_ns_tag tx' tx Htag), Htag.
  destruct (negb (_ || _)); [done|].
  destruct (negb (bool_decide _)); [done|].
  rewrite !forallb_forall. intros Hnew c Hc%list_elem_of_In.
  assert (local_name (tag c) ∈ child_names tx') as Hin.
  { apply Hincl. unfold child_names, sibling_names.
    apply list_elem_of_fmap. eauto. }
  unfold child_names, sibling_names in Hin.
  apply list_elem_of_fmap in Hin as (c' & -> & Hc').
  apply Hnew. by apply list_elem_of_In.
Qed.

Lemma rank_sorted_snoc_unranked names x :
  rank x = None -> rank_sorted names -> rank_sorted (names ++ [x]).
Proof.
  intros Hx Hsorted. apply StronglySorted_app_2; [|done|].
  - intros n m _ ->%list_elem_of_singleton ra rb _ Hb. congruence.
  - repeat constructor.
Qed.

(** One find-or-create step under the inner record node, for any name. *)
Lemma descend_inner_sorted tx x k :
  is_inner_tx tx = true ->
  keeps_tag k ->
  rank_sorted (child_names tx) ->
  rank_sorted (child_names (descend tx (QName NS_AUTH x) k)).
Proof.
  intros Hinner Hk Hsorted. rewrite child_names_tags.
  destruct (rank x) as [r|] eqn:Hrank.
  - destruct (child_tags_descend tx x r k Hinner Hrank Hk) as [[_ ->]|[_ ->]].
    + by rewrite <-child_names_tags.
    + rewrite fmap_app, fmap_cons, fmap_take, fmap_drop, <-child_names_tags.
      destruct (insertion_point (child_nodes tx) r Hsorted) as [Hbefore Hafter].
      unfold sibling_names in Hbefore, Hafter.
      rewrite fmap_take in Hbefore. rewrite fmap_drop in Hafter.
      by apply (rank_sorted_insert _ x r).
  - assert (child_tags (descend tx (QName NS_AUTH x) k) = child_tags tx \/
            child_tags (descend tx (QName NS_AUTH x) k)
              = child_tags tx ++ [QName NS_AUTH x]) as [-> | ->].
    { unfold descend, child_tags. cbn [child_nodes with_children].
      rewrite (child_tags_modify_first k Hk). unfold find_or_create.
      destruct (find_child _ (child_nodes tx)); [by left|right].
      rewrite insert_child_in_order_unranked by done. by rewrite fmap_app. }
    + by rewrite <-child_names_tags.
    + rewrite fmap_app, <-child_names_tags.
      by apply rank_sorted_snoc_unranked.
Qed.

Lemma walk_inner_sorted dns parts value tx :
  is_inner_tx tx = true ->
  rank_sorted (child_names tx) ->
  rank_sorted (child_names (walk dns parts value tx)).
Proof.
  intros Hinner Hsorted.
  pose proof (is_inner_tx_ns tx Hinner) as Hns.
  destruct parts as [|part rest]; cbn [walk].
  - by destruct value.
  - rewrite Hns. change (or_else (Some NS_AUTH) dns) with NS_AUTH.
    destruct (Str.split_once "@" part) as [[elem_tag attr_name]|].
    + destruct (Str.truthy elem_tag).
      * apply descend_inner_sorted; [done| |done]. intros c. by destruct value.
      * by destruct value.
    + apply descend_inner_sorted; [done|apply keeps_tag_walk|done].
Qed.

(** The ordering invariant of a node: while it is in the ordering context,
    its ranked children stand in rank order.  Every call keeps it, whatever
    the path and the value. *)
Lemma ensure_path_keeps_order tx path value :
  (is_inner_tx tx = true -> rank_sorted (child_names tx)) ->
  is_inner_tx (_ensure_path tx path value) = true ->
  rank_sorted (child_names (_ensure_path tx path value)).
Proof.
  intros Hinv Hinner'.
  assert (is_inner_tx tx = true) as Hinner.
  { eapply is_inner_tx_earlier; [apply tag_ensure_path| |exact Hinner'].
    apply child_names_walk_incl. }
  apply walk_inner_sorted; auto.
Qed.

Lemma ensure_fields_keeps_order fields : forall tx,
  (is_inner_tx tx = true -> rank_sorted (child_names tx)) ->
  is_inner_tx (ensure_fields tx fields) = true ->
  rank_sorted (child_names (ensure_fields tx fields)).
Proof.
  induction fields as [|[path value] fields IH]; intros tx Hinv; [done|].
  apply IH. by apply ensure_path_keeps_order.
Qed.
End any_path.



Example ranked_fields_in_policy_order :
  child_names (ensure_fields ex_tx ex_ranked_fields) = ["TradDt"; "Qty"; "Pric"].
Proof. by vm_compute. Qed.

(** An unranked child is appended where the children end at that moment;
    ranked children that come later may still go after it. *)
Example unranked_child_is_appended :
  child_names
    (ensure_fields ex_tx
       [("Pric", "1"); ("Foo", "x"); ("Qty", "3"); ("TradVn", "9")])
  = ["Qty"; "Pric"; "Foo"; "TradVn"].
Proof. by vm_compute. Qed.


Section monad_facts.
Context {A B : Type}.

Lemma bind_Ok (a : A) (k : A -> result B) : (Ok a ≫= k) = k a.
Proof. done. Qed.

Lemma bind_Ok_inv (m : result A) (k : A -> result B) b :
  m ≫= k = Ok b -> exists a, m = Ok a /\ k a = Ok b.
Proof. destruct m as [a|e]; [eauto|done]. Qed.
End monad_facts.

Section handles.
Implicit Types (p : list nat) (e c : element).

Lemma node_at_update_at p k e :
  node_at p (update_at p k e) = k <$> node_at p e.
Proof.
  revert e. induction p as [|i p IH]; intros e; simpl; [done|].
  destruct (child_nodes e !! i) as [c|] eqn:Hc; simpl; [|by rewrite Hc].
  rewrite list_lookup_insert_eq by by eapply lookup_lt_Some.
  apply IH.
Qed.

Lemma update_at_twice p k1 k2 e :
  update_at p k2 (update_at p k1 e) = update_at p (fun c => k2 (k1 c)) e.
Proof.
  revert e. induction p as [|i p IH]; intros e; simpl; [done|].
  destruct (child_nodes e !! i) as [c|] eqn:Hc; simpl; [|by rewrite Hc].
  rewrite list_lookup_insert_eq by by eapply lookup_lt_Some.
  by rewrite list_insert_insert_eq, IH.
Qed.

Lemma update_at_ext p k k' e c :
  node_at p e = Some c -> k c = k' c -> update_at p k e = update_at p k' e.
Proof.
  revert e. induction p as [|i p IH]; intros e; simpl.
  - by intros [= ->].
  - destruct (child_nodes e !! i) as [c'|]; [|done].
    intros Hnode Hk. by rewrite (IH _ Hnode Hk).
Qed.

Lemma update_at_id p e c :
  node_at p e = Some c -> update_at p (fun _ => c) e = e.
Proof.
  revert e. induction p as [|i p IH]; intros e; simpl.
  - by intros [= ->].
  - destruct (child_nodes e !! i) as [c'|] eqn:Hc; [|done].
    intros Hnode. rewrite (IH _ Hnode), list_insert_id by done.
    by destruct e.
Qed.

(** A mutation through a handle is the mutation of the designated node,
    seen in the tree. *)
Lemma at_path_node p f e c :
  node_at p e = Some c ->
  at_path p f e = c' ← f c; Ok (update_at p (fun _ => c') e).
Proof.
  revert e. induction p as [|i p IH]; intros e; simpl.
  - intros [= ->]. by destruct (f c).
  - destruct (child_nodes e !! i) as [c0|]; [|done].
    intros Hnode. rewrite (IH _ Hnode). by destruct (f c).
Qed.
End handles.

Lemma to_xml_fields_total cfg w trade :
  exists fields, to_xml_fields cfg w trade = Ok fields.
Proof.
  destruct (map_rules_emitted w trade (fields cfg) []) as (vals & _ & H).
  eauto.
Qed.

Lemma build_root_container cfg w root0 container :
  build_root cfg w = Ok (root0, container) ->
  exists msg_ns,
    _uri cfg "msg" = Ok msg_ns /\
    node_at container root0
      = Some (new_element (QName msg_ns "FinInstrmRptgTxRpt")).
Proof.
  unfold build_root. intros H.
  repeat (apply bind_Ok_inv in H as (? & ? & H)).
  injection H as <- <-. eauto.
Qed.

Lemma append_tx_wrapper cfg msg_ns fields container :
  _uri cfg "msg" = Ok msg_ns ->
  append_tx cfg fields container
    = Ok (append_child container (ensure_fields (fresh_wrapper msg_ns) fields)).
Proof. unfold append_tx. intros ->. done. Qed.

Section generation.
Variables (cfg : GeneratorConfig) (w : world).
Variables (root0 : element) (container : list nat) (msg_ns : string).
Hypothesis Hmsg : _uri cfg "msg" = Ok msg_ns.
Hypothesis Hcontainer :
  node_at container root0 = Some (new_element (QName msg_ns "FinInstrmRptgTxRpt")).

Lemma append_rows rows : forall done_txs,
  exists txs,
    Forall2 (row_wrapper cfg w msg_ns) rows txs /\
    foldlM (fun root row =>
              fields ← to_xml_fields cfg w (mkTradeRecord row);
              at_path container (append_tx cfg fields) root)
           (update_at container (fun c => with_children c done_txs) root0) rows
      = Ok (update_at container
              (fun c => with_children c (done_txs ++ txs)) root0).
Proof.
  induction rows as [|row rows IH]; intros done_txs.
  - exists []. split; [constructor|]. simpl. by rewrite app_nil_r.
  - destruct (to_xml_fields_total cfg w (mkTradeRecord row)) as [fields Hfields].
    set (tx := ensure_fields (fresh_wrapper msg_ns) fields).
    destruct (IH (done_txs ++ [tx])) as (txs & Htxs & Hrun).
    exists (tx :: txs). split.
    { constructor; [by exists fields|done]. }
    cbn [foldlM]. rewrite Hfields, bind_Ok.
    erewrite at_path_node
      by (rewrite node_at_update_at, Hcontainer; reflexivity).
    rewrite (append_tx_wrapper _ msg_ns) by done. rewrite bind_Ok.
    rewrite update_at_twice.
    rewrite (update_at_ext _ _
               (fun c => with_children c (done_txs ++ [tx])) _ _ Hcontainer)
      by done.
    rewrite bind_Ok, Hrun. by rewrite <-app_assoc.
Qed.
End generation.

Lemma update_at_clear container root0 c0 :
  node_at container root0 = Some c0 ->
  child_nodes c0 = [] ->
  update_at container (fun c => with_children c []) root0 = root0.
Proof.
  intros Hnode Hempty.
  rewrite (update_at_ext _ _ (fun _ => c0) _ _ Hnode).
  - by apply update_at_id.
  - rewrite <-Hempty. by destruct c0.
Qed.



Example two_rows_two_wrappers :
  (doc ← generate true ex_iso_cfg ex_world ex_rows;
   Ok (tag <$> (default [] (child_nodes <$> node_at [1; 0; 0] doc))))
  = Ok [QName NS_AUTH "Tx"; QName NS_AUTH "Tx"].
Proof. by vm_compute. Qed.


Section baseline.
Variable cfg : GeneratorConfig.

Lemma qname_unknown_prefix prefix local :
  Str.contains ":" prefix = false ->
  namespaces cfg !! prefix = None ->
  XmlBuilder._qname cfg (prefix +:+ ":" +:+ local)
    = Raise (unknown_prefix prefix (prefix +:+ ":" +:+ local)).
Proof.
  intros Hprefix Hns. unfold XmlBuilder._qname.
  change (":" +:+ local) with (String ":" local).
  rewrite split_once_app by done. by rewrite Hns.
Qed.

Lemma modify_firstM_raise t (k : element -> result element) l c e :
  find_child t l = Some c -> k c = Raise e -> modify_firstM t k l = Raise e.
Proof.
  induction l as [|c' l IH]; simpl; [done|].
  destruct (String.eqb (tag c') t).
  - intros [= ->] ->. done.
  - intros Hc Hk. by rewrite (IH Hc Hk).
Qed.

(** The cursor always moves to a child: the one found or the one just
    appended. *)
Lemma find_child_after_ensure t (current : element) :
  exists c,
    find_child t
      (child_nodes match find_child t (child_nodes current) with
                   | Some _ => current
                   | None => append_child current (new_element t)
                   end) = Some c.
Proof.
  destruct (find_child t (child_nodes current)) as [c|] eqn:Hc; [eauto|].
  exists (new_element t). simpl. rewrite find_child_app, Hc. simpl.
  by rewrite String.eqb_refl.
Qed.

(** The first segment that does not resolve decides the error. *)
Lemma walk_first_unresolved pre seg post value e : forall current,
  Forall (fun p => is_ok (XmlBuilder._qname cfg p) = true) pre ->
  XmlBuilder._qname cfg seg = Raise e ->
  XmlBuilder.walk cfg (pre ++ seg :: post) value current = Raise e.
Proof.
  intros current Hpre Hseg. revert current.
  induction Hpre as [|part pre Hpart Hpre IH]; intros current.
  - simpl. by rewrite Hseg.
  - rewrite <-app_comm_cons. cbn [XmlBuilder.walk].
    destruct (XmlBuilder._qname cfg part) as [t|]; [|done]. rewrite bind_Ok.
    destruct (find_child_after_ensure t current) as [c Hc].
    erewrite modify_firstM_raise; [done|exact Hc|].
    apply IH.
Qed.

(** A segment that does not resolve makes the call raise, at that
    segment or before it. *)
Lemma walk_unresolved parts seg value e :
  seg ∈ parts ->
  XmlBuilder._qname cfg seg = Raise e ->
  forall current, exists e', XmlBuilder.walk cfg parts value current = Raise e'.
Proof.
  intros Hin Hseg. induction parts as [|part rest IH]; intros current.
  - by apply elem_of_nil in Hin.
  - cbn [XmlBuilder.walk].
    destruct (XmlBuilder._qname cfg part) as [t|e0] eqn:Hpart; [|by exists e0].
    rewrite bind_Ok.
    apply elem_of_cons in Hin as [->|Hin]; [congruence|].
    destruct (find_child_after_ensure t current) as [c Hc].
    destruct (IH Hin (match rest with [] => set_text value c | _ :: _ => c end))
      as [e' He'].
    exists e'. by erewrite modify_firstM_raise.
Qed.

Lemma foldlM_raise {A B} (f : A -> B -> result A) (l : list B) b :
  b ∈ l ->
  (forall a, exists e, f a b = Raise e) ->
  forall a, exists e, foldlM f a l = Raise e.
Proof.
  intros Hin Hb. induction l as [|b' l IH]; intros a.
  - by apply elem_of_nil in Hin.
  - simpl. apply elem_of_cons in Hin as [<-|Hin].
    + destruct (Hb a) as [e ->]. by exists e.
    + destruct (f a b') as [a'|e]; [|by exists e]. rewrite bind_Ok. by apply IH.
Qed.

Lemma append_record_unresolved fields path value seg e parent :
  (path, value) ∈ fields ->
  seg ∈ Str.split "/" path ->
  XmlBuilder._qname cfg seg = Raise e ->
  exists e', XmlBuilder.append_record cfg fields parent = Raise e'.
Proof.
  intros Hfield Hseg Hq. unfold XmlBuilder.append_record.
  destruct (_ && _); [by eexists|].
  set (record_tag := if XmlBuilder.opt_truthy (record_element cfg)
                     then default "Record" (record_element cfg)
                     else "Record").
  destruct (XmlBuilder._qname cfg record_tag) as [t|e0]; [|by exists e0].
  rewrite bind_Ok.
  destruct (foldlM_raise
              (fun rec_el '(path, value) =>
                 XmlBuilder._ensure_path cfg rec_el path value)
              fields (path, value) Hfield) with (a := new_element t) as [e' He'].
  { intros a. by eapply walk_unresolved. }
  rewrite He'. by exists e'.
Qed.
End baseline.

Lemma generate_baseline_unresolved cfg w rows row fields path value seg e :
  row ∈ rows ->
  to_xml_fields cfg w (mkTradeRecord row) = Ok fields ->
  (path, value) ∈ fields ->
  seg ∈ Str.split "/" path ->
  XmlBuilder._qname cfg seg = Raise e ->
  exists e', generate false cfg w rows = Raise e'.
Proof.
  intros Hrow Hfields Hfield Hseg Hq. unfold generate.
  destruct (XmlBuilder.build_root cfg w) as [root0|e0]; [|by exists e0].
  rewrite bind_Ok.
  destruct (foldlM_raise
              (fun root row =>
                 fields ← to_xml_fields cfg w (mkTradeRecord row);
                 XmlBuilder.append_record cfg fields root)
              rows row Hrow) with (a := root0) as [e' He'].
  { intros a. rewrite Hfields, bind_Ok. by eapply append_record_unresolved. }
  rewrite He'. by exists e'.
Qed.



Example unknown_prefix_zz :
  generate false ex_zz_cfg ex_world [ex_zz_row]
  = Raise (unknown_prefix "zz" "zz:Foo").
Proof. by vm_compute. Qed.


Section baseline_overwrite.
Variable cfg : GeneratorConfig.

Lemma modify_firstM_Ok_tags t (k : element -> result element) l l' :
  (forall c c', k c = Ok c' -> tag c' = tag c) ->
  modify_firstM t k l = Ok l' -> tag <$> l' = tag <$> l.
Proof.
  intros Hk. revert l'. induction l as [|c l IH]; intros l'; simpl.
  - by intros [= <-].
  - destruct (String.eqb (tag c) t).
    + destruct (k c) as [c'|] eqn:Hc; [|done]. intros [= <-].
      rewrite !fmap_cons. by rewrite (Hk _ _ Hc).
    + destruct (modify_firstM t k l) as [l''|]; [|done]. intros [= <-].
      rewrite !fmap_cons. by rewrite (IH l'').
Qed.

Lemma find_child_tags t l l' :
  tag <$> l' = tag <$> l ->
  is_Some (find_child t l) -> is_Some (find_child t l').
Proof.
  revert l'. induction l as [|c l IH]; intros l' Htags.
  - simpl. by intros [? ?].
  - destruct l' as [|c' l']; [done|].
    rewrite !fmap_cons in Htags. injection Htags as Htag Hrest.
    simpl. rewrite Htag.
    destruct (String.eqb (tag c) t); [eauto|]. by apply IH.
Qed.

Lemma modify_firstM_twice t (k1 k2 : element -> result element) l l1 :
  (forall c c1, k1 c = Ok c1 -> tag c1 = tag c /\ k2 c1 = k2 c) ->
  modify_firstM t k1 l = Ok l1 ->
  modify_firstM t k2 l1 = modify_firstM t k2 l.
Proof.
  intros Hk. revert l1. induction l as [|c l IH]; intros l1; simpl.
  - by intros [= <-].
  - destruct (String.eqb (tag c) t) eqn:Htag.
    + destruct (k1 c) as [c1|] eqn:Hc; [|done]. intros [= <-].
      destruct (Hk _ _ Hc) as [Htag1 Hk2]. simpl.
      by rewrite Htag1, Htag, Hk2.
    + destruct (modify_firstM t k1 l) as [l'|]; [|done]. intros [= <-].
      simpl. rewrite Htag. by rewrite (IH l').
Qed.

Lemma walk_Ok_tag parts value current r :
  XmlBuilder.walk cfg parts value current = Ok r -> tag r = tag current.
Proof.
  destruct parts as [|part rest]; simpl; [by intros [= <-]|].
  destruct (XmlBuilder._qname cfg part) as [t|]; [|done]. rewrite bind_Ok.
  destruct (modify_firstM _ _ _) as [kids|]; [|done]. intros [= <-].
  simpl. by destruct (find_child t (child_nodes current)).
Qed.

(** A second call along the same path creates nothing and leaves what a
    single call with the second value leaves. *)
Lemma walk_overwrite_baseline parts v1 v2 : forall current r1,
  XmlBuilder.walk cfg parts v1 current = Ok r1 ->
  XmlBuilder.walk cfg parts v2 r1 = XmlBuilder.walk cfg parts v2 current.
Proof.
  induction parts as [|part rest IH]; intros current r1.
  - simpl. by intros [= <-].
  - cbn [XmlBuilder.walk].
    destruct (XmlBuilder._qname cfg part) as [t|]; [|done]. rewrite !bind_Ok.
    set (current' := match find_child t (child_nodes current) with
                     | Some _ => current
                     | None => append_child current (new_element t)
                     end).
    destruct (modify_firstM t _ (child_nodes current')) as [kids|] eqn:Hkids;
      [|done].
    intros [= <-]. cbn [child_nodes with_children].
    assert (is_Some (find_child t kids)) as [c Hc].
    { eapply find_child_tags.
      - eapply modify_firstM_Ok_tags; [|exact Hkids].
        intros c0 c0' H0. apply walk_Ok_tag in H0. rewrite H0. by destruct rest.
      - destruct (find_child_after_ensure t current) as [c Hc]. by exists c. }
    rewrite Hc.
    erewrite modify_firstM_twice; [done| |exact Hkids].
    intros c0 c1 H0. split.
    + apply walk_Ok_tag in H0. rewrite H0. by destruct rest.
    + destruct rest as [|part' rest'].
      * simpl in H0. injection H0 as <-. done.
      * by apply IH.
Qed.
End baseline_overwrite.

Section baseline_success.
Variable cfg : GeneratorConfig.

Lemma modify_firstM_Ok_inv t (k : element -> result element) l l' c :
  modify_firstM t k l = Ok l' -> find_child t l = Some c ->
  exists c', k c = Ok c'.
Proof.
  revert l'. induction l as [|c0 l IH]; intros l'; simpl; [done|].
  destruct (String.eqb (tag c0) t).
  - destruct (k c0) as [c'|] eqn:Hc; [|done]. intros _ [= <-]. eauto.
  - destruct (modify_firstM t k l) as [l''|]; [|done]. intros _ Hc.
    by eapply IH.
Qed.

Lemma modify_firstM_total t (k : element -> result element) l :
  (forall c, exists c', k c = Ok c') -> exists l', modify_firstM t k l = Ok l'.
Proof.
  intros Hk. induction l as [|c l [l' IH]]; simpl; [eauto|].
  destruct (String.eqb (tag c) t).
  - destruct (Hk c) as [c' ->]. eauto.
  - rewrite IH. eauto.
Qed.

(** Whether the baseline traversal succeeds depends on the segments
    alone: each of them has to resolve. *)
Lemma walk_resolved_Ok parts value : forall current,
  Forall (fun p => is_ok (XmlBuilder._qname cfg p) = true) parts ->
  exists r, XmlBuilder.walk cfg parts value current = Ok r.
Proof.
  induction parts as [|part rest IH]; intros current Hparts; [by eexists|].
  inv Hparts. cbn [XmlBuilder.walk].
  destruct (XmlBuilder._qname cfg part) as [t|]; [|done]. rewrite bind_Ok.
  edestruct (modify_firstM_total t) as [kids ->]; [|by eexists].
  intros c. by apply IH.
Qed.

Lemma walk_Ok_resolved parts value : forall current r,
  XmlBuilder.walk cfg parts value current = Ok r ->
  Forall (fun p => is_ok (XmlBuilder._qname cfg p) = true) parts.
Proof.
  induction parts as [|part rest IH]; intros current r; [constructor|].
  cbn [XmlBuilder.walk].
  destruct (XmlBuilder._qname cfg part) as [t|] eqn:Ht; [|done].
  rewrite bind_Ok.
  destruct (modify_firstM _ _ _) as [kids|] eqn:Hkids; [|done]. intros _.
  destruct (find_child_after_ensure t current) as [c Hc].
  destruct (modify_firstM_Ok_inv _ _ _ _ _ Hkids Hc) as [c' Hc'].
  constructor; [by rewrite Ht|]. by eapply IH.
Qed.
End baseline_success.


Example second_call_overwrites :
  _ensure_path (_ensure_path ex_tx "Qty" (Some "1")) "Qty" (Some "2")
  = append_child ex_tx (set_text "2" (new_element (QName NS_AUTH "Qty"))).
Proof. by vm_compute. Qed.



(** * Further properties of the code

    The properties below are read off the source.  They cover the
    functions around the ones the specification speaks of: the loading
    helpers of the configuration, the error behaviour of the two
    builders, what a call of the path engine leaves alone, and the
    validator's choice of base URLs. *)

(** ** Renaming the [_xmlns] keys of a configuration document *)

Lemma json_nested_ind (P : json -> Prop) :
  P JNull ->
  (forall b, P (JBool b)) ->
  (forall n, P (JNumber n)) ->
  (forall s, P (JString s)) ->
  (forall elems, Forall P elems -> P (JList elems)) ->
  (forall items, Forall (fun kv => P kv.2) items -> P (JDict items)) ->
  forall j, P j.
Proof.
  intros HN HB HNum HS HL HD. fix IH 1. intros [|b|n|s|elems|items].
  - exact HN.
  - apply HB.
  - apply HNum.
  - apply HS.
  - apply HL. induction elems as [|j elems IHl]; constructor; [apply IH|exact IHl].
  - apply HD. induction items as [|[k v] items IHl]; constructor;
      [apply IH|exact IHl].
Qed.

Lemma renamed_key_not_xmlns k : renamed_key k <> "_xmlns".
Proof.
  unfold renamed_key. destruct (String.eqb_spec k "_xmlns"); [discriminate|done].
Qed.

Lemma renamed_key_fixed k : k <> "_xmlns" -> renamed_key k = k.
Proof.
  intros Hk. unfold renamed_key. by destruct (String.eqb_spec k "_xmlns").
Qed.

Section dict_facts.
Context {V : Type}.
Implicit Types (d : list (string * V)) (k : string) (v : V).

Lemma elem_of_dict_assign k v d k' v' :
  (k', v') ∈ dict_assign k v d -> (k', v') ∈ d \/ (k' = k /\ v' = v).
Proof.
  induction d as [|[k0 v0] d IH]; simpl.
  - intros [= -> ->]%list_elem_of_singleton. by right.
  - destruct (String.eqb_spec k0 k) as [->|Hne].
    + intros [[= -> ->]|Hin]%elem_of_cons; [by right|].
      left. apply elem_of_cons. by right.
    + intros [[= -> ->]|Hin]%elem_of_cons; [left; apply elem_of_cons; by left|].
      destruct (IH Hin) as [?|?]; [left; apply elem_of_cons; by right|by right].
Qed.

Lemma dict_assign_fresh k v d : k ∉ d.*1 -> dict_assign k v d = d ++ [(k, v)].
Proof.
  induction d as [|[k0 v0] d IH]; simpl; [done|].
  intros Hk. apply not_elem_of_cons in Hk as [Hne Hk].
  destruct (String.eqb_spec k0 k) as [->|_]; [done|]. by rewrite IH.
Qed.

Lemma keys_dict_assign k v d :
  (dict_assign k v d).*1 = if bool_decide (k ∈ d.*1) then d.*1 else d.*1 ++ [k].
Proof.
  induction d as [|[k0 v0] d IH]; csimpl; [done|].
  destruct (String.eqb_spec k0 k) as [->|Hne]; csimpl.
  - rewrite bool_decide_eq_true_2; [done|by apply elem_of_cons; left].
  - rewrite IH. destruct (decide (k ∈ d.*1)) as [Hin|Hin].
    + rewrite !bool_decide_eq_true_2; [done|by apply elem_of_cons; right|done].
    + rewrite !bool_decide_eq_false_2; [done| |done].
      intros [?|?]%elem_of_cons; [by simplify_eq|done].
Qed.

End dict_facts.

Section rename_facts.
Variable f : json -> json.

(** The loop of [_rename_xmlns_keys] over the items of a dictionary. *)
Lemma rename_items_elem items : forall acc k v,
  (k, v) ∈ fold_left (fun new '(k, v) => dict_assign (renamed_key k) (f v) new)
             items acc ->
  (k, v) ∈ acc \/ exists k0 v0, (k0, v0) ∈ items /\ k = renamed_key k0 /\ v = f v0.
Proof.
  induction items as [|[k0 v0] items IH]; intros acc k v; simpl; [by left|].
  intros [Hin|(k1 & v1 & Hin & -> & ->)]%IH.
  - apply elem_of_dict_assign in Hin as [?|[-> ->]]; [by left|].
    right. exists k0, v0. split; [by apply elem_of_cons; left|done].
  - right. exists k1, v1. split; [by apply elem_of_cons; right|done].
Qed.

Lemma rename_items_pure items : forall acc,
  NoDup (acc.*1 ++ (renamed_key <$> items.*1)) ->
  fold_left (fun new '(k, v) => dict_assign (renamed_key k) (f v) new) items acc
    = acc ++ ((fun '(k, v) => (renamed_key k, f v)) <$> items).
Proof.
  induction items as [|[k0 v0] items IH]; intros acc Hnd; simpl.
  - by rewrite app_nil_r.
  - simpl in Hnd. apply NoDup_app in Hnd as (Hacc & Hdisj & Hnd).
    apply NoDup_cons in Hnd as [Hk0 Hnd].
    rewrite dict_assign_fresh.
    2:{ intros Hin. apply (Hdisj _ Hin). by apply elem_of_cons; left. }
    rewrite IH; [by rewrite <- app_assoc|].
    rewrite fmap_app. simpl. rewrite <- app_assoc. simpl.
    apply NoDup_app. split; [done|]. split; [|by apply NoDup_cons].
    intros x Hx. apply Hdisj. done.
Qed.

Lemma rename_items_keys items : forall acc,
  NoDup acc.*1 ->
  NoDup (fold_left (fun new '(k, v) => dict_assign (renamed_key k) (f v) new)
           items acc).*1.
Proof.
  induction items as [|[k0 v0] items IH]; intros acc Hnd; simpl; [done|].
  apply IH. rewrite keys_dict_assign. case_bool_decide; [done|].
  apply NoDup_app. split; [done|]. split; [|apply NoDup_singleton].
  intros x Hx ->%list_elem_of_singleton. done.
Qed.

End rename_facts.

Lemma has_key_false k items :
  existsb (fun '(k', v) => String.eqb k' k || has_key k v) items = false <->
  Forall (fun kv => kv.1 <> k /\ has_key k kv.2 = false) items.
Proof.
  induction items as [|[k0 v0] items IH]; simpl; [by split; [constructor|]|].
  rewrite orb_false_iff, orb_false_iff, IH, Forall_cons. simpl.
  rewrite String.eqb_neq. tauto.
Qed.

(** X1.  After the renaming no dictionary of the document, at any depth,
    has the key [_xmlns]. *)
Theorem rename_xmlns_keys_leaves_no_underscore_key (j : json) :
  has_key "_xmlns" (_rename_xmlns_keys j) = false.
Proof.
  induction j as [| | | |elems IH|items IH] using json_nested_ind; try done.
  - cbn [_rename_xmlns_keys has_key].
    induction IH as [|j elems Hj _ IHl]; csimpl; [done|].
    by rewrite Hj, IHl.
  - simpl. apply has_key_false. apply Forall_forall. intros [k v] Hin. simpl.
    apply rename_items_elem in Hin as [Hin|(k0 & v0 & Hin & -> & ->)].
    + by apply elem_of_nil in Hin.
    + split; [apply renamed_key_not_xmlns|].
      rewrite Forall_forall in IH. apply (IH (k0, v0) Hin).
Qed.

(** X2.  Renaming a second time changes nothing. *)
Theorem rename_xmlns_keys_idempotent (j : json) :
  _rename_xmlns_keys (_rename_xmlns_keys j) = _rename_xmlns_keys j.
Proof.
  induction j as [| | | |elems IH|items IH] using json_nested_ind; try done.
  - simpl. f_equal. rewrite <- list_fmap_compose.
    apply Forall_fmap_ext_1. done.
  - cbn [_rename_xmlns_keys]. f_equal.
    set (once := fold_left _ items []).
    rewrite rename_items_pure; simpl.
    + rewrite <- (list_fmap_id once) at 2. apply Forall_fmap_ext_1.
      apply Forall_forall. intros [k v] Hin.
      apply rename_items_elem in Hin as [Hin|(k0 & v0 & Hin & -> & ->)];
        [by apply elem_of_nil in Hin|].
      rewrite Forall_forall in IH. specialize (IH (k0, v0) Hin). simpl in IH.
      rewrite IH.
      by rewrite renamed_key_fixed by apply renamed_key_not_xmlns.
    + assert (Hkeys : Forall (fun k => renamed_key k = k) once.*1).
      { apply Forall_fmap, Forall_forall. intros [k v] Hin. simpl.
        apply rename_items_elem in Hin as [Hin|(k0 & v0 & Hin & -> & ->)];
          [by apply elem_of_nil in Hin|].
        apply renamed_key_fixed, renamed_key_not_xmlns. }
      rewrite (Forall_fmap_ext_1 renamed_key id) by done.
      rewrite list_fmap_id. apply rename_items_keys. constructor.
Qed.

(** X3.  On a dictionary that does not hold both [_xmlns] and [xmlns] (and
    no key twice) the renaming maps the keys one by one: every item stays
    at its place, [_xmlns] becomes [xmlns], every other key is kept, and
    the value is renamed within. *)
Theorem rename_xmlns_keys_keeps_items_in_place (items : list (string * json)) :
  NoDup (renamed_key <$> items.*1) ->
  _rename_xmlns_keys (JDict items)
    = JDict ((fun '(k, v) => (renamed_key k, _rename_xmlns_keys v)) <$> items).
Proof.
  intros Hnd. cbn [_rename_xmlns_keys]. f_equal.
  by rewrite rename_items_pure.
Qed.

Lemma rename_xmlns_keys_keeps_items_in_place_witness :
  _rename_xmlns_keys
    (JDict [("qname", JString "BizData");
            ("_xmlns", JString "urn:head");
            ("children", JDict [("_xmlns", JNull)])])
  = JDict ((fun '(k, v) => (renamed_key k, _rename_xmlns_keys v)) <$>
             [("qname", JString "BizData");
              ("_xmlns", JString "urn:head");
              ("children", JDict [("_xmlns", JNull)])]).
Proof.
  apply rename_xmlns_keys_keeps_items_in_place.
  apply (bool_decide_unpack _). by vm_compute.
Defined.

Lemma no_key_clash_items items :
  forallb (fun '(_, v) => no_key_clash v) items = true <->
  Forall (fun kv : string * json => no_key_clash kv.2 = true) items.
Proof.
  induction items as [|[k0 v0] items IH]; simpl; [by split; [constructor|]|].
  rewrite andb_true_iff, IH, Forall_cons. done.
Qed.

(** X4.  A document without any [_xmlns] key comes back unchanged. *)
Theorem rename_xmlns_keys_identity_without_key (j : json) :
  no_key_clash j = true ->
  has_key "_xmlns" j = false ->
  _rename_xmlns_keys j = j.
Proof.
  induction j as [| | | |elems IH|items IH] using json_nested_ind; try done.
  - simpl. intros Hu Hk. f_equal.
    rewrite <- (list_fmap_id elems) at 2. apply Forall_fmap_ext_1.
    induction IH as [|j elems Hj _ IHl]; [done|]. simpl in Hu, Hk.
    apply andb_true_iff in Hu as [Hu1 Hu2]. apply orb_false_iff in Hk as [Hk1 Hk2].
    constructor; [by apply Hj|by apply IHl].
  - intros Hu Hk. simpl in Hu. apply andb_true_iff in Hu as [Hnd Hu].
    apply bool_decide_eq_true in Hnd. apply no_key_clash_items in Hu.
    simpl in Hk. apply has_key_false in Hk.
    cbn [_rename_xmlns_keys]. f_equal. rewrite rename_items_pure by done.
    simpl. rewrite <- (list_fmap_id items) at 2. apply Forall_fmap_ext_1.
    rewrite Forall_forall in IH, Hu, Hk. apply Forall_forall. intros [k v] Hin.
    destruct (Hk _ Hin) as [Hne Hkv].
    specialize (IH _ Hin (Hu _ Hin) Hkv). simpl in IH, Hne.
    by rewrite renamed_key_fixed, IH.
Qed.

Lemma rename_xmlns_keys_identity_without_key_witness :
  _rename_xmlns_keys
    (JDict [("namespaces", JDict [("msg", JString "urn:a")]);
            ("fields", JList [JDict [("from", JString "qty");
                                     ("to", JString "New/Tx/Qty")]])])
  = JDict [("namespaces", JDict [("msg", JString "urn:a")]);
           ("fields", JList [JDict [("from", JString "qty");
                                    ("to", JString "New/Tx/Qty")]])].
Proof.
  apply rename_xmlns_keys_identity_without_key; by vm_compute.
Defined.

(** ** The enhanced builder and the configuration *)

Lemma foldlM_ext {A B} (f g : A -> B -> result A) (l : list B) :
  (forall a b, f a b = g a b) -> forall a, foldlM f a l = foldlM g a l.
Proof.
  intros Hfg. induction l as [|b l IH]; intros a; simpl; [done|].
  rewrite Hfg. destruct (g a b); simpl; [apply IH|done].
Qed.

Section same_reads.
Variables (cfg cfg' : GeneratorConfig) (w : world).
Hypothesis Hns :
  forall p, p ∈ needed_prefixes -> namespaces cfg !! p = namespaces cfg' !! p.
Hypothesis Hsl :
  dict_get "xsi:schemaLocation" (attributes (root cfg))
    = dict_get "xsi:schemaLocation" (attributes (root cfg')).

Lemma uri_same_reads p : p ∈ needed_prefixes -> _uri cfg p = _uri cfg' p.
Proof. intros Hp. unfold _uri. by rewrite (Hns p Hp). Qed.

Lemma build_root_same_reads : build_root cfg w = build_root cfg' w.
Proof.
  unfold build_root. simpl.
  rewrite <- !(Hns _) by (unfold needed_prefixes; set_solver).
  rewrite <- !(uri_same_reads _) by (unfold needed_prefixes; set_solver).
  by rewrite Hsl.
Qed.

Lemma generate_same_reads rows :
  fields cfg = fields cfg' ->
  generate true cfg w rows = generate true cfg' w rows.
Proof.
  intros Hfields. unfold generate. rewrite build_root_same_reads.
  destruct (build_root cfg' w) as [[root0 container]|e]; simpl; [|done].
  erewrite foldlM_ext; [done|]. intros a row. simpl.
  unfold to_xml_fields. rewrite Hfields.
  destruct (map_rules w (mkTradeRecord row) (fields cfg') []) as [fs|e]; simpl;
    [|done].
  unfold append_tx.
  assert (Hmsg : _uri cfg "msg" = _uri cfg' "msg")
    by (apply uri_same_reads; unfold needed_prefixes; set_solver).
  clear -Hmsg. revert a. induction container as [|i p IH]; intros a; simpl.
  - by rewrite Hmsg.
  - destruct (child_nodes a !! i); [|done]. by rewrite IH.
Qed.

End same_reads.

(** X5.  The enhanced builder reads the configuration only through the four
    prefixes it needs, the [xsi:schemaLocation] attribute of the root and
    the mapping rules: two configurations that agree on these give the
    same document, whatever their root name, static children, other
    attributes, other prefixes and record settings are. *)
Theorem enhanced_generation_reads_only (cfg cfg' : GeneratorConfig) (w : world)
    (rows : list (gmap string (option string))) :
  (forall p, p ∈ needed_prefixes -> namespaces cfg !! p = namespaces cfg' !! p) ->
  dict_get "xsi:schemaLocation" (attributes (root cfg))
    = dict_get "xsi:schemaLocation" (attributes (root cfg')) ->
  fields cfg = fields cfg' ->
  build_root cfg w = build_root cfg' w
  /\ generate true cfg w rows = generate true cfg' w rows.
Proof.
  intros Hns Hsl Hf. split;
    [by apply build_root_same_reads|by apply generate_same_reads].
Qed.

Lemma enhanced_generation_reads_only_witness :
  build_root ex_iso_cfg ex_world
    = build_root
        (mkGeneratorConfig (<["rep" := "urn:other"]> (namespaces ex_iso_cfg))
           (mkRootSpec "rep:Report" [("id", "7")] [("rep:Hdr", JStr "x")] None)
           (Some "rep:Trade") (fields ex_iso_cfg) None None)
        ex_world
  /\ generate true ex_iso_cfg ex_world ex_rows
     = generate true
         (mkGeneratorConfig (<["rep" := "urn:other"]> (namespaces ex_iso_cfg))
            (mkRootSpec "rep:Report" [("id", "7")] [("rep:Hdr", JStr "x")] None)
            (Some "rep:Trade") (fields ex_iso_cfg) None None)
         ex_world ex_rows.
Proof.
  apply enhanced_generation_reads_only; [|done|done].
  intros p Hp. cbn [namespaces]. rewrite lookup_insert_ne; [reflexivity|].
  intros <-. revert Hp. unfold needed_prefixes.
  rewrite !elem_of_cons, elem_of_nil. intros [?|[?|[?|[?|[]]]]]; discriminate.
Defined.

#[local] Arguments resolve_macros : simpl never.

Section needed_namespaces.
Variables (cfg : GeneratorConfig) (w : world).

Lemma uri_Ok p uri :
  _uri cfg p = Ok uri <-> namespaces cfg !! p = Some uri /\ uri <> "".
Proof.
  unfold _uri. destruct (namespaces cfg !! p) as [u|];
    [|split; [done|by intros [? ?]]].
  destruct u as [|c u]; simpl.
  - split; [done|]. by intros [[= <-] ?].
  - split; [by intros [= <-]|by intros [[= <-] _]].
Qed.

Lemma uri_is_ok p :
  is_ok (_uri cfg p) = true <->
  exists uri, namespaces cfg !! p = Some uri /\ uri <> "".
Proof.
  split.
  - destruct (_uri cfg p) as [uri|e] eqn:H; [|done]. intros _.
    exists uri. by apply uri_Ok.
  - intros (uri & H). apply uri_Ok in H. by rewrite H.
Qed.

Lemma build_root_Ok_uris :
  is_ok (build_root cfg w) = true <->
  Forall (fun p => is_ok (_uri cfg p) = true) needed_prefixes.
Proof.
  unfold needed_prefixes. rewrite !Forall_cons, Forall_nil.
  assert (Hattr : forall xsi, exists a,
    match dict_get "xsi:schemaLocation" (attributes (root cfg)) with
    | Some sl =>
        if Str.truthy sl
        then v ← resolve_macros w sl; Ok [(QName xsi "schemaLocation", v)]
        else Ok []
    | None => Ok []
    end = Ok a).
  { intros xsi. destruct (dict_get _ _) as [sl|]; [|by eexists].
    destruct (Str.truthy sl); [|by eexists].
    destruct (resolve_macros_total w sl) as [v ->]. by eexists. }
  unfold build_root, _uri. simpl.
  destruct (namespaces cfg !! "head003") as [[|c1 u1]|]; simpl; try tauto;
  destruct (namespaces cfg !! "head001") as [[|c2 u2]|]; simpl; try tauto;
  destruct (namespaces cfg !! "msg") as [[|c3 u3]|]; simpl; try tauto;
  destruct (namespaces cfg !! "xsi") as [[|c4 u4]|]; simpl; try tauto.
  all: try (split; [done|]; intros H; decompose [and] H; done).
  destruct (Hattr (String c4 u4)) as [a Ha]. rewrite Ha. simpl. tauto.
Qed.

End needed_namespaces.


Lemma needed_prefixes_split pre p post :
  needed_prefixes = pre ++ p :: post ->
  (pre = [] /\ p = "head003")
  \/ (pre = ["head003"] /\ p = "head001")
  \/ (pre = ["head003"; "head001"] /\ p = "msg")
  \/ (pre = ["head003"; "head001"; "msg"] /\ p = "xsi").
Proof.
  unfold needed_prefixes. intros H.
  destruct pre as [|a [|b [|c [|d pre]]]]; simplify_eq/=; eauto 6.
  by destruct pre.
Qed.

Lemma generate_build_root_raise cfg w rows e :
  build_root cfg w = Raise e -> generate true cfg w rows = Raise e.
Proof. unfold generate. by intros ->. Qed.

(** X7.  When one of the four prefixes is missing from the namespace map,
    [build_root] raises the [ValueError] that names the first missing
    one, and so does the generation, whatever the rows are: no row is
    read and no document is written. *)
Theorem missing_namespace_aborts_generation (cfg : GeneratorConfig) (w : world)
    (rows : list (gmap string (option string)))
    (pre : list string) (needed : string) (post : list string) :
  needed_prefixes = pre ++ needed :: post ->
  Forall (fun p => is_Some (namespaces cfg !! p)) pre ->
  namespaces cfg !! needed = None ->
  build_root cfg w
    = Raise (ValueError ("Missing '" +:+ needed +:+
                         "' in mapping.json -> namespaces"))
  /\ generate true cfg w rows
     = Raise (ValueError ("Missing '" +:+ needed +:+
                          "' in mapping.json -> namespaces")).
Proof.
  intros Hsplit Hpre Hnone.
  assert (build_root cfg w
    = Raise (ValueError ("Missing '" +:+ needed +:+
                         "' in mapping.json -> namespaces"))) as Hb.
  { unfold build_root.
    apply needed_prefixes_split in Hsplit
      as [[-> ->]|[[-> ->]|[[-> ->]|[-> ->]]]];
      repeat match goal with
             | H : Forall _ (_ :: _) |- _ =>
                 apply Forall_cons in H as [[? ?] ?]
             end; simpl;
      repeat match goal with
             | H : namespaces cfg !! _ = _ |- _ => rewrite H; simpl
             end; done. }
  split; [done|by apply generate_build_root_raise].
Qed.

Lemma missing_namespace_aborts_generation_witness :
  build_root ex_zz_cfg ex_world
    = Raise (ValueError ("Missing '" +:+ "head003" +:+
                         "' in mapping.json -> namespaces"))
  /\ generate true ex_zz_cfg ex_world [ex_zz_row]
     = Raise (ValueError ("Missing '" +:+ "head003" +:+
                          "' in mapping.json -> namespaces")).
Proof.
  apply (missing_namespace_aborts_generation ex_zz_cfg ex_world [ex_zz_row]
           [] "head003" ["head001"; "msg"; "xsi"]); [done|constructor|done].
Defined.

(** X8.  When the four prefixes are all present but one is mapped to the
    empty string, the presence check passes and [_uri] raises the
    [KeyError] for the first such prefix; the generation raises it too. *)
Theorem empty_namespace_uri_aborts_generation (cfg : GeneratorConfig)
    (w : world) (rows : list (gmap string (option string)))
    (pre : list string) (p : string) (post : list string) :
  needed_prefixes = pre ++ p :: post ->
  Forall (fun q => is_Some (namespaces cfg !! q)) needed_prefixes ->
  Forall (fun q => namespaces cfg !! q <> Some "") pre ->
  namespaces cfg !! p = Some "" ->
  build_root cfg w = Raise (KeyError ("Unknown ns prefix: " +:+ p))
  /\ generate true cfg w rows = Raise (KeyError ("Unknown ns prefix: " +:+ p)).
Proof.
  intros Hsplit Hall Hpre Hp.
  assert (build_root cfg w = Raise (KeyError ("Unknown ns prefix: " +:+ p)))
    as Hb.
  { unfold needed_prefixes in Hall.
    repeat match goal with
           | H : Forall _ (_ :: _) |- _ => apply Forall_cons in H as [[? ?] ?]
           end.
    unfold build_root, _uri.
    apply needed_prefixes_split in Hsplit
      as [[-> ->]|[[-> ->]|[[-> ->]|[-> ->]]]];
      repeat match goal with
             | H : Forall _ (_ :: _) |- _ => apply Forall_cons in H as [? ?]
             end; simpl;
      repeat match goal with
             | H : namespaces cfg !! ?q = Some ?u |- _ =>
                 rewrite H in *; simpl; clear H; try (destruct u; [done|]; simpl)
             end; simplify_eq; done. }
  split; [done|by apply generate_build_root_raise].
Qed.

Lemma empty_namespace_uri_aborts_generation_witness :
  build_root
    (mkGeneratorConfig (<["msg" := ""]> (namespaces ex_iso_cfg))
       (root ex_iso_cfg) None [] None None) ex_world
    = Raise (KeyError ("Unknown ns prefix: " +:+ "msg"))
  /\ generate true
       (mkGeneratorConfig (<["msg" := ""]> (namespaces ex_iso_cfg))
          (root ex_iso_cfg) None [] None None) ex_world ex_rows
     = Raise (KeyError ("Unknown ns prefix: " +:+ "msg")).
Proof.
  apply (empty_namespace_uri_aborts_generation _ ex_world ex_rows
           ["head003"; "head001"] "msg" ["xsi"]).
  - done.
  - repeat constructor; by vm_compute; eexists.
  - repeat constructor; by vm_compute.
  - by vm_compute.
Defined.

(** ** Namespaces inferred from the schema directory *)

Lemma has_value_true v (d : gmap string string) :
  has_value v d = true <-> exists k, d !! k = Some v.
Proof.
  unfold has_value. rewrite bool_decide_eq_true, list_elem_of_fmap. split.
  - intros ([k v'] & -> & Hin). exists k. by apply elem_of_map_to_list.
  - intros (k & Hk). exists (k, v). split; [done|by apply elem_of_map_to_list].
Qed.

Lemma has_value_false v (d : gmap string string) :
  has_value v d = false <-> forall k, d !! k <> Some v.
Proof.
  rewrite <- not_true_iff_false, has_value_true. split.
  - intros H k Hk. apply H. by exists k.
  - intros H (k & Hk). by apply (H k).
Qed.

Lemma augment_step_other nsm xsd p :
  p <> "rep_inferred" -> p <> "hdr_inferred" ->
  augment_step nsm xsd !! p = nsm !! p.
Proof.
  intros Hrep Hhdr. unfold augment_step.
  destruct (parsed xsd) as [|[ns|]]; [done| |done].
  destruct (negb (Str.truthy ns)); [done|].
  repeat match goal with
         | |- context [if ?b then _ else _] => destruct b
         end;
    rewrite ?lookup_insert_ne by done; done.
Qed.

Lemma augment_other files p : forall nsm,
  p <> "rep_inferred" -> p <> "hdr_inferred" ->
  fold_left augment_step files nsm !! p = nsm !! p.
Proof.
  induction files as [|xsd files IH]; intros nsm Hrep Hhdr; simpl; [done|].
  rewrite IH by done. by apply augment_step_other.
Qed.

(** X9.  The augmentation touches only the prefixes [rep_inferred] and
    [hdr_inferred]: every other prefix stands for the same URI, or for
    none, as before, and the rest of the configuration is as it was. *)
Theorem augment_keeps_configured_prefixes (cfg : GeneratorConfig)
    (xsd_dir : option (list xsd_file)) (p : string) :
  p <> "rep_inferred" -> p <> "hdr_inferred" ->
  let cfg' := augment_namespaces_from_xsd cfg xsd_dir in
  namespaces cfg' !! p = namespaces cfg !! p
  /\ root cfg' = root cfg /\ fields cfg' = fields cfg
  /\ record_element cfg' = record_element cfg
  /\ record_container_qname cfg' = record_container_qname cfg
  /\ record_element_qname cfg' = record_element_qname cfg.
Proof.
  intros Hrep Hhdr. destruct xsd_dir as [files|]; simpl; [|done].
  split; [by apply augment_other|done].
Qed.

Lemma augment_keeps_configured_prefixes_witness :
  let xsd_dir :=
    Some [XsdFile "auth.016.001.01_ESMAUG" (XsdRoot (Some "urn:new"))] in
  let cfg' := augment_namespaces_from_xsd ex_zz_cfg xsd_dir in
  namespaces cfg' !! "rep" = namespaces ex_zz_cfg !! "rep"
  /\ root cfg' = root ex_zz_cfg /\ fields cfg' = fields ex_zz_cfg
  /\ record_element cfg' = record_element ex_zz_cfg
  /\ record_container_qname cfg' = record_container_qname ex_zz_cfg
  /\ record_element_qname cfg' = record_element_qname ex_zz_cfg.
Proof.
  apply (augment_keeps_configured_prefixes ex_zz_cfg
           (Some [XsdFile "auth.016.001.01_ESMAUG" (XsdRoot (Some "urn:new"))])
           "rep"); done.
Defined.

(** X10.  The document of the enhanced builder does not depend on the schema
    directory: generating from the augmented configuration gives what
    generating from the loaded one gives, an error included. *)
Theorem augment_leaves_enhanced_document (cfg : GeneratorConfig) (w : world)
    (xsd_dir : option (list xsd_file))
    (rows : list (gmap string (option string))) :
  generate true (augment_namespaces_from_xsd cfg xsd_dir) w rows
    = generate true cfg w rows.
Proof.
  destruct xsd_dir as [files|]; [|done].
  apply generate_same_reads; [|done|done].
  intros p Hp. simpl. apply augment_other; intros ->; revert Hp;
    unfold needed_prefixes; rewrite !elem_of_cons, elem_of_nil;
    intros [?|[?|[?|[?|[]]]]]; discriminate.
Qed.

Lemma distinct_uris_insert nsm k ns :
  distinct_uris nsm -> has_value ns nsm = false ->
  distinct_uris (<[k := ns]> nsm).
Proof.
  intros Hd Hv p q uri. pose proof (proj1 (has_value_false _ _) Hv) as Hns.
  destruct (decide (p = k)) as [->|Hp], (decide (q = k)) as [->|Hq];
    rewrite ?lookup_insert_eq, ?lookup_insert_ne by done; try done.
  - intros [= <-] Hq'. by destruct (Hns q).
  - intros Hp' [= <-]. by destruct (Hns p).
  - apply Hd.
Qed.

Lemma distinct_uris_step nsm xsd :
  distinct_uris nsm -> distinct_uris (augment_step nsm xsd).
Proof.
  intros Hd. unfold augment_step.
  destruct (parsed xsd) as [|[ns|]]; [done| |done].
  destruct (negb (Str.truthy ns)); [done|].
  set (nsm1 := if Str.isin "auth.016" _ && _ then _ else nsm).
  assert (distinct_uris nsm1) as Hd1.
  { unfold nsm1. destruct (_ && _); [|done].
    destruct (has_value ns nsm) eqn:Hv; simpl; [done|].
    by apply distinct_uris_insert. }
  destruct (Str.isin "head.001" _); simpl; [|done].
  destruct (has_value ns nsm1) eqn:Hv; simpl; [done|].
  by apply distinct_uris_insert.
Qed.

(** X11.  The augmentation never makes two prefixes stand for the same URI:
    if the prefixes of the loaded configuration stand for distinct URIs,
    so do those of the augmented one. *)
Theorem augment_keeps_uris_distinct (cfg : GeneratorConfig)
    (xsd_dir : option (list xsd_file)) :
  distinct_uris (namespaces cfg) ->
  distinct_uris (namespaces (augment_namespaces_from_xsd cfg xsd_dir)).
Proof.
  destruct xsd_dir as [files|]; simpl; [|done].
  generalize (namespaces cfg). induction files as [|xsd files IH];
    intros nsm Hd; simpl; [done|].
  by apply IH, distinct_uris_step.
Qed.

Lemma augment_keeps_uris_distinct_witness :
  distinct_uris
    (namespaces
       (augment_namespaces_from_xsd ex_zz_cfg
          (Some [XsdFile "auth.016.001.01_ESMAUG" (XsdRoot (Some "urn:new"));
                 XsdFile "head.001.001.01" (XsdRoot (Some "urn:new"))]))).
Proof.
  apply augment_keeps_uris_distinct.
  intros p q uri. simpl. rewrite !lookup_singleton_Some. by intros [<- _] [<- _].
Defined.

(** ** Paths of the enhanced builder *)

Section split_facts.
Implicit Types (a b s : string) (sep : ascii).

Lemma split_cons sep c s :
  Str.split sep (String c s) =
    if Ascii.eqb c sep then EmptyString :: Str.split sep s
    else match Str.split sep s with
         | h :: t => String c h :: t
         | [] => []
         end.
Proof.
  unfold Str.split at 1. rewrite split_ne_cons. unfold Str.split.
  destruct (Ascii.eqb c sep); [done|]. by destruct (Str.split_ne sep s).
Qed.

Lemma split_app sep a b :
  Str.split sep (a +:+ String sep b) = Str.split sep a ++ Str.split sep b.
Proof.
  induction a as [|c a IH].
  - change ("" +:+ String sep b) with (String sep b).
    by rewrite split_cons, Ascii.eqb_refl.
  - change (String c a +:+ String sep b) with (String c (a +:+ String sep b)).
    rewrite !split_cons, IH. destruct (Ascii.eqb c sep); [done|].
    by destruct (split_nonempty sep a) as (h & t & ->).
Qed.

Lemma split_ne_head_clean sep s : Str.contains sep (Str.split_ne sep s).1 = false.
Proof.
  induction s as [|c s IH]; [done|]. rewrite split_ne_cons.
  destruct (Ascii.eqb c sep) eqn:Hc; simpl; [done|]. by rewrite Hc.
Qed.

Lemma split_ne_head_app sep a b :
  Str.contains sep a = false -> (Str.split_ne sep (a +:+ String sep b)).1 = a.
Proof.
  intros Ha. pose proof (split_app_sep sep a b Ha) as H.
  unfold Str.split in H. destruct (Str.split_ne sep (a +:+ String sep b)).
  simpl. by simplify_eq.
Qed.

End split_facts.

Lemma path_parts_app a b :
  path_parts (a +:+ "/" +:+ b) = path_parts a ++ path_parts b.
Proof.
  unfold path_parts. change ("/" +:+ b) with (String "/" b).
  by rewrite split_app, filter_app.
Qed.

(** X12.  Empty segments of a path are ignored by the enhanced builder: a
    leading slash, a trailing slash and a doubled slash change nothing,
    and the empty path addresses the element the call is made on, whose
    text is then set. *)
Theorem ensure_path_skips_empty_segments (root : element) (a b : string)
    (value : option string) :
  path_parts (a +:+ "/" +:+ b) = path_parts a ++ path_parts b
  /\ _ensure_path root ("/" +:+ a) value = _ensure_path root a value
  /\ _ensure_path root (a +:+ "/") value = _ensure_path root a value
  /\ _ensure_path root (a +:+ "//" +:+ b) value
     = _ensure_path root (a +:+ "/" +:+ b) value
  /\ _ensure_path root "" value = set_text_opt value root.
Proof.
  split; [apply path_parts_app|]. unfold _ensure_path.
  repeat split.
  - change ("/" +:+ a) with ("" +:+ "/" +:+ a). by rewrite path_parts_app.
  - change (a +:+ "/") with (a +:+ "/" +:+ ""). rewrite path_parts_app.
    by rewrite app_nil_r.
  - change (a +:+ "//" +:+ b) with (a +:+ "/" +:+ ("" +:+ "/" +:+ b)).
    by rewrite !path_parts_app.
Qed.

Section namespaces_of_a_path.

Lemma get_ns_QName e ns l :
  tag e = QName ns l -> Str.contains "}" ns = false -> get_ns e = Some ns.
Proof.
  intros He Hns. unfold get_ns. rewrite He. unfold QName.
  change ("{" +:+ ns +:+ "}" +:+ l) with (String "{" (ns +:+ String "}" l)).
  cbv beta iota. change (Ascii.eqb "{" "{") with true. cbv iota.
  by rewrite split_ne_head_app.
Qed.

Lemma get_ns_clean e ns : get_ns e = Some ns -> Str.contains "}" ns = false.
Proof.
  unfold get_ns. destruct (tag e) as [|c t]; [done|].
  destruct (Ascii.eqb c "{"); [|done]. intros [= <-]. apply split_ne_head_clean.
Qed.

Lemma default_ns_clean root : Str.contains "}" (default_ns root) = false.
Proof.
  unfold default_ns, or_else. destruct (get_ns root) as [ns|] eqn:Hns; [|done].
  destruct (Str.truthy ns); [|done]. by apply get_ns_clean in Hns.
Qed.

Lemma or_else_default_ns root :
  or_else (get_ns root) (default_ns root) = default_ns root.
Proof. apply or_else_twice. Qed.

Lemma or_else_same ns : or_else (Some ns) ns = ns.
Proof. unfold or_else. by destruct (Str.truthy ns). Qed.

Variable dns : string.
Hypothesis Hdns : Str.contains "}" dns = false.

(** Below a node whose children are created in [dns], every node of an
    element chain is looked up and created in [dns]. *)
Lemma node_on_path_find_path parts : forall cur,
  or_else (get_ns cur) dns = dns ->
  node_on_path dns parts cur = find_path (QName dns <$> parts) cur.
Proof.
  induction parts as [|part rest IH]; intros cur Hcur; csimpl; [done|].
  rewrite Hcur.
  destruct (find_child (QName dns part) (child_nodes cur)) as [c|] eqn:Hc;
    simpl; [|done].
  apply IH. apply find_child_Some_tag in Hc.
  by rewrite (get_ns_QName c dns part), or_else_same.
Qed.

End namespaces_of_a_path.

Lemma ensure_path_reads_back (root : element) (path v : string) :
  element_only (path_parts path) ->
  exists e,
    find_path (QName (default_ns root) <$> path_parts path)
      (_ensure_path root path (Some v)) = Some e
    /\ text e = Some v.
Proof.
  intros Hpath.
  destruct (ensure_path_twice root path None v Hpath) as (Heq & _ & e & He & Hv).
  simpl in Heq, He. rewrite Heq in He. exists e. split; [|done].
  rewrite <- He. symmetry. apply node_on_path_find_path.
  - apply default_ns_clean.
  - rewrite (get_ns_tag _ root) by apply tag_ensure_path.
    apply or_else_default_ns.
Qed.


(** ** What a call leaves alone *)

Lemma string_app_inv_head (p a b : string) : p +:+ a = p +:+ b -> a = b.
Proof.
  induction p as [|c p IH]; [done|].
  change (String c p +:+ a) with (String c (p +:+ a)).
  change (String c p +:+ b) with (String c (p +:+ b)).
  intros [= H]. by apply IH.
Qed.

Lemma QName_inj ns a b : QName ns a = QName ns b -> a = b.
Proof.
  unfold QName. intros H.
  by do 3 apply string_app_inv_head in H.
Qed.

Lemma QName_fmap_inj ns (p q : list string) :
  QName ns <$> p = QName ns <$> q -> p = q.
Proof.
  revert q. induction p as [|a p IH]; intros [|b q]; csimpl; try done.
  intros Heq.
  assert (QName ns a = QName ns b) as Hab by congruence.
  assert (QName ns <$> p = QName ns <$> q) as Hpq by congruence.
  f_equal; [by apply QName_inj in Hab|by apply IH].
Qed.

Section children_of_descend.
Implicit Types (cur c : element) (K : element -> element) (t : string).

Lemma find_child_modify_other t t' K l :
  t <> t' -> keeps_tag K ->
  find_child t (modify_first t' K l) = find_child t l.
Proof.
  intros Hne HK. induction l as [|c l IH]; simpl; [done|].
  destruct (String.eqb_spec (tag c) t') as [Hc|Hc]; simpl.
  - rewrite HK. destruct (String.eqb_spec (tag c) t) as [Hc'|_]; [congruence|done].
  - by rewrite IH.
Qed.

Lemma find_child_find_or_create_other cur t t' :
  t <> t' ->
  find_child t (child_nodes (find_or_create cur t'))
    = find_child t (child_nodes cur).
Proof.
  intros Hne. unfold find_or_create.
  destruct (find_child t' (child_nodes cur)); [done|].
  destruct (insert_child_in_order_split cur (new_element t'))
    as (l1 & l2 & Hl & ->). simpl. rewrite Hl, !find_child_app. simpl.
  destruct (String.eqb_spec t' t) as [?|_]; [congruence|done].
Qed.

Lemma find_child_descend_other cur t t' K :
  t <> t' -> keeps_tag K ->
  find_child t (child_nodes (descend cur t' K)) = find_child t (child_nodes cur).
Proof.
  intros Hne HK. unfold descend. simpl.
  by rewrite find_child_modify_other, find_child_find_or_create_other.
Qed.

Lemma find_child_descend_same cur t K c :
  keeps_tag K ->
  find_child t (child_nodes cur) = Some c ->
  find_child t (child_nodes (descend cur t K)) = Some (K c).
Proof.
  intros HK Hc. unfold descend. simpl.
  rewrite find_child_modify_first by done.
  by rewrite (find_or_create_found cur t c), Hc.
Qed.

Lemma descend_with_children cur t K :
  exists l, descend cur t K = with_children cur l.
Proof.
  unfold descend, find_or_create.
  destruct (find_child t (child_nodes cur)); [by eexists|].
  destruct (insert_child_in_order_split cur (new_element t))
    as (l1 & l2 & _ & ->). by eexists.
Qed.

Lemma child_tags_descend_sublist cur t K :
  keeps_tag K -> child_tags cur `sublist_of` child_tags (descend cur t K).
Proof.
  intros HK. unfold descend, child_tags. simpl.
  rewrite child_tags_modify_first by done. unfold find_or_create.
  destruct (find_child t (child_nodes cur)); [done|].
  destruct (insert_child_in_order_split cur (new_element t))
    as (l1 & l2 & Hl & ->). simpl. rewrite Hl, !fmap_app. csimpl.
  apply sublist_app; [done|]. by apply sublist_cons.
Qed.

End children_of_descend.

Section frame.
Variable dns : string.
Hypothesis Hdns : Str.contains "}" dns = false.
Context {V : Type} (view : element -> V).
Hypothesis view_children : forall e l, view (with_children e l) = view e.
Variable k : element -> element.
Hypothesis Hk_tag : keeps_tag k.
Hypothesis Hk_children : forall c, child_nodes (k c) = child_nodes c.

Lemma keeps_tag_ensure_chain parts : keeps_tag (ensure_chain dns parts k).
Proof. intros c. by apply tag_ensure_chain. Qed.

(** A node that can be reached before the traversal can be reached
    after it, by the same tags; what [view] shows of it is the same
    unless the traversal ends at that very node and [k] changes it. *)
Lemma chain_frame parts : forall cur tags n,
  or_else (get_ns cur) dns = dns ->
  find_path tags cur = Some n ->
  exists n',
    find_path tags (ensure_chain dns parts k cur) = Some n'
    /\ tag n' = tag n
    /\ child_tags n `sublist_of` child_tags n'
    /\ (tags <> QName dns <$> parts \/ (forall c, view (k c) = view c) ->
        view n' = view n).
Proof.
  induction parts as [|part rest IH]; intros cur tags n Hcur Hfind.
  - destruct tags as [|t ts]; simpl in *.
    + simplify_eq. exists (k n). split; [done|]. split; [apply Hk_tag|].
      split; [unfold child_tags; by rewrite Hk_children|].
      intros [?|Hv]; [done|apply Hv].
    + rewrite Hk_children. exists n. by rewrite Hfind.
  - cbn [ensure_chain]. rewrite Hcur. destruct tags as [|t ts].
    + simpl in *. simplify_eq. eexists. split; [done|].
      split; [apply tag_descend|].
      split; [apply child_tags_descend_sublist, keeps_tag_ensure_chain|].
      intros _.
      destruct (descend_with_children n (QName dns part)
                  (ensure_chain dns rest k)) as [l ->].
      apply view_children.
    + cbn [find_path] in *.
      destruct (find_child t (child_nodes cur)) as [c|] eqn:Hc; [|done].
      simpl in Hfind.
      destruct (decide (t = QName dns part)) as [->|Hne].
      * rewrite (find_child_descend_same cur _ _ c)
          by (done || apply keeps_tag_ensure_chain). simpl.
        destruct (IH c ts n) as (n' & Hn' & Htag & Hsub & Hview); [|done|].
        { apply find_child_Some_tag in Hc.
          by rewrite (get_ns_QName c dns part), or_else_same. }
        exists n'. split; [done|]. split; [done|]. split; [done|].
        intros [Hts|Hv]; apply Hview; [left|by right].
        intros ->. by apply Hts.
      * rewrite find_child_descend_other
          by (done || apply keeps_tag_ensure_chain).
        rewrite Hc. simpl. exists n. by rewrite Hfind.
Qed.

End frame.

Lemma ensure_path_frame (root : element) (path : string)
    (value : option string) (tags : list string) (n : element) :
  element_only (path_parts path) ->
  find_path tags root = Some n ->
  exists n',
    find_path tags (_ensure_path root path value) = Some n'
    /\ tag n' = tag n
    /\ attrib n' = attrib n
    /\ child_tags n `sublist_of` child_tags n'
    /\ (tags <> QName (default_ns root) <$> path_parts path ->
        text n' = text n).
Proof.
  intros Hpath Hn. unfold _ensure_path. rewrite walk_ensure_chain by done.
  destruct (chain_frame (default_ns root) (default_ns_clean root) attrib
              (fun _ _ => eq_refl) (set_text_opt value)
              (keeps_tag_set_text_opt value)
              (fun c => match value with Some _ => eq_refl | None => eq_refl end)
              (path_parts path) root tags n (or_else_default_ns root) Hn)
    as (n1 & Hn1 & Htag & Hsub & Hattr).
  destruct (chain_frame (default_ns root) (default_ns_clean root) text
              (fun _ _ => eq_refl) (set_text_opt value)
              (keeps_tag_set_text_opt value)
              (fun c => match value with Some _ => eq_refl | None => eq_refl end)
              (path_parts path) root tags n (or_else_default_ns root) Hn)
    as (n2 & Hn2 & _ & _ & Htext).
  exists n1. split; [done|]. split; [done|]. split; [|split; [done|]].
  - apply Hattr. right. intros c. by destruct value.
  - intros Hne. rewrite Hn1 in Hn2. simplify_eq. apply Htext. by left.
Qed.

(** A call whose path has an attribute segment changes no text, and no
    attribute but on the element of that segment. *)
Lemma attribute_path_frame (root : element) (path : string)
    (pre : list string) (elem_tag attr_name : string) (rest : list string)
    (value : option string) (tags : list string) (n : element) :
  path_parts path = pre ++ (elem_tag +:+ "@" +:+ attr_name) :: rest ->
  element_only pre ->
  Str.contains "@" elem_tag = false ->
  find_path tags root = Some n ->
  exists n',
    find_path tags (_ensure_path root path value) = Some n'
    /\ tag n' = tag n
    /\ text n' = text n
    /\ (tags <> QName (default_ns root) <$> attr_chain pre elem_tag ->
        attrib n' = attrib n).
Proof.
  intros Hparts Hpre Helem Hn. unfold _ensure_path.
  rewrite Hparts, walk_attribute by done.
  destruct (chain_frame (default_ns root) (default_ns_clean root) text
              (fun _ _ => eq_refl) (set_attr_opt attr_name value)
              (keeps_tag_set_attr_opt attr_name value)
              (fun c => match value with Some _ => eq_refl | None => eq_refl end)
              (attr_chain pre elem_tag) root tags n (or_else_default_ns root) Hn)
    as (n1 & Hn1 & Htag & _ & Htext).
  destruct (chain_frame (default_ns root) (default_ns_clean root) attrib
              (fun _ _ => eq_refl) (set_attr_opt attr_name value)
              (keeps_tag_set_attr_opt attr_name value)
              (fun c => match value with Some _ => eq_refl | None => eq_refl end)
              (attr_chain pre elem_tag) root tags n (or_else_default_ns root) Hn)
    as (n2 & Hn2 & _ & _ & Hattr).
  exists n1. split; [done|]. split; [done|]. split.
  - apply Htext. right. intros c. by destruct value.
  - intros Hne. rewrite Hn1 in Hn2. simplify_eq. apply Hattr. by left.
Qed.


(** ** Applying the fields of a record *)

Lemma default_ns_ensure_path root path value :
  default_ns (_ensure_path root path value) = default_ns root.
Proof.
  unfold default_ns. by rewrite (get_ns_tag _ root) by apply tag_ensure_path.
Qed.

Lemma default_ns_ensure_fields fields : forall tx,
  default_ns (ensure_fields tx fields) = default_ns tx.
Proof.
  intros tx. unfold default_ns.
  by rewrite (get_ns_tag _ tx) by apply tag_ensure_fields.
Qed.

Lemma ensure_fields_cons tx f fields :
  ensure_fields tx (f :: fields)
    = ensure_fields (_ensure_path tx f.1 (Some f.2)) fields.
Proof. by destruct f. Qed.

Lemma ensure_fields_app tx fields1 fields2 :
  ensure_fields tx (fields1 ++ fields2)
    = ensure_fields (ensure_fields tx fields1) fields2.
Proof. unfold ensure_fields. by rewrite fold_left_app. Qed.

Lemma ensure_fields_keeps_text fields : forall tx tags n,
  Forall (fun f : string * string => element_only (path_parts f.1)) fields ->
  Forall (fun f : string * string =>
            QName (default_ns tx) <$> path_parts f.1 <> tags) fields ->
  find_path tags tx = Some n ->
  exists n', find_path tags (ensure_fields tx fields) = Some n'
             /\ text n' = text n.
Proof.
  induction fields as [|f fields IH]; intros tx tags n Hel Hne Hn.
  - exists n. by split.
  - apply Forall_cons in Hel as [Hf Hel]. apply Forall_cons in Hne as [Hfne Hne].
    rewrite ensure_fields_cons.
    destruct (ensure_path_frame tx f.1 (Some f.2) tags n Hf Hn)
      as (n1 & Hn1 & _ & _ & _ & Htext).
    destruct (IH (_ensure_path tx f.1 (Some f.2)) tags n1) as (n2 & Hn2 & Ht2);
      [done| |done|].
    { by rewrite default_ns_ensure_path. }
    exists n2. split; [done|]. rewrite Ht2. apply Htext. congruence.
Qed.

(** Among the fields of one record the last write to a path wins, and
    writes to other paths do not disturb it. *)
Lemma ensure_fields_last_wins (tx : element)
    (before after : list (string * string)) (path v : string) :
  Forall (fun f : string * string => element_only (path_parts f.1))
    (before ++ (path, v) :: after) ->
  Forall (fun f : string * string => path_parts f.1 <> path_parts path) after ->
  exists e,
    find_path (QName (default_ns tx) <$> path_parts path)
      (ensure_fields tx (before ++ (path, v) :: after)) = Some e
    /\ text e = Some v.
Proof.
  intros Hel Hafter.
  apply Forall_app in Hel as [_ Hel]. apply Forall_cons in Hel as [Hpath Hel].
  rewrite ensure_fields_app, ensure_fields_cons. simpl.
  set (tx1 := ensure_fields tx before).
  destruct (ensure_path_reads_back tx1 path v Hpath) as (e & He & Hv).
  assert (default_ns tx1 = default_ns tx) as Hdns
    by apply default_ns_ensure_fields.
  rewrite Hdns in He.
  destruct (ensure_fields_keeps_text after (_ensure_path tx1 path (Some v))
              (QName (default_ns tx) <$> path_parts path) e)
    as (e' & He' & Ht); [done| |done|].
  - rewrite default_ns_ensure_path, Hdns.
    eapply Forall_impl; [exact Hafter|]. simpl. intros f Hf Heq.
    by apply Hf, (QName_fmap_inj (default_ns tx)).
  - exists e'. split; [done|congruence].
Qed.


(** ** Sibling tags *)

Lemma unique_tags_unfold e :
  unique_tags e
    = bool_decide (NoDup (tag <$> child_nodes e))
      && forallb unique_tags (child_nodes e).
Proof. by destruct e. Qed.

Lemma forallb_Forall {A} (f : A -> bool) l :
  forallb f l = true <-> Forall (fun x => f x = true) l.
Proof.
  induction l as [|x l IH]; simpl; [by split; [constructor|]|].
  by rewrite andb_true_iff, IH, Forall_cons.
Qed.

Lemma unique_tags_true e :
  unique_tags e = true <->
  NoDup (child_tags e) /\ Forall (fun c => unique_tags c = true) (child_nodes e).
Proof.
  by rewrite unique_tags_unfold, andb_true_iff, bool_decide_eq_true,
    forallb_Forall.
Qed.

Lemma unique_tags_with_children e l :
  unique_tags (with_children e l) = true <->
  NoDup (tag <$> l) /\ Forall (fun c => unique_tags c = true) l.
Proof. apply unique_tags_true. Qed.

Lemma Forall_modify_first (P : element -> Prop) t (K : element -> element) l :
  Forall P l -> (forall c, P c -> P (K c)) -> Forall P (modify_first t K l).
Proof.
  intros Hl HK. induction Hl as [|c l Hc Hl IH]; simpl; [constructor|].
  destruct (String.eqb (tag c) t); constructor; auto.
Qed.

Lemma unique_tags_find_or_create cur t :
  unique_tags cur = true -> unique_tags (find_or_create cur t) = true.
Proof.
  intros [Hnd Hall]%unique_tags_true. unfold find_or_create.
  destruct (find_child t (child_nodes cur)) eqn:Hfind;
    [by apply unique_tags_true|].
  destruct (insert_child_in_order_split cur (new_element t))
    as (l1 & l2 & Hl & ->).
  apply unique_tags_with_children. unfold child_tags in Hnd.
  rewrite Hl in Hnd, Hall, Hfind. rewrite fmap_app in Hnd.
  apply find_child_None, Forall_app in Hfind as [Hf1 Hf2].
  apply Forall_app in Hall as [Ha1 Ha2].
  split.
  - rewrite fmap_app. csimpl. apply NoDup_app in Hnd as (Hn1 & Hdisj & Hn2).
    apply NoDup_app. split; [done|]. split.
    + intros x Hx [->|Hx2]%elem_of_cons; [|by apply (Hdisj x)].
      apply list_elem_of_fmap in Hx as (c & Hc & Hin).
      rewrite Forall_forall in Hf1. by apply (Hf1 c).
    + apply NoDup_cons. split; [|done].
      intros (c & Hc & Hin)%list_elem_of_fmap.
      rewrite Forall_forall in Hf2. by apply (Hf2 c).
  - apply Forall_app. split; [done|]. constructor; [done|done].
Qed.

Lemma unique_tags_descend cur t K :
  keeps_tag K ->
  (forall c, unique_tags c = true -> unique_tags (K c) = true) ->
  unique_tags cur = true -> unique_tags (descend cur t K) = true.
Proof.
  intros Htag HK Hcur. unfold descend.
  apply unique_tags_find_or_create with (t := t) in Hcur.
  apply unique_tags_true in Hcur as [Hnd Hall].
  apply unique_tags_with_children. split.
  - by rewrite child_tags_modify_first.
  - by apply Forall_modify_first.
Qed.

Lemma unique_tags_set_text_opt value c :
  unique_tags c = true -> unique_tags (set_text_opt value c) = true.
Proof. destruct value; [|done]. by rewrite !unique_tags_true. Qed.

Lemma unique_tags_set_attr_opt a value c :
  unique_tags c = true -> unique_tags (set_attr_opt a value c) = true.
Proof. destruct value; [|done]. by rewrite !unique_tags_true. Qed.

Lemma unique_tags_walk dns parts value : forall cur,
  unique_tags cur = true -> unique_tags (walk dns parts value cur) = true.
Proof.
  induction parts as [|part rest IH]; intros cur Hcur.
  - by apply (unique_tags_set_text_opt value).
  - cbn [walk]. destruct (Str.split_once "@" part) as [[elem_tag attr_name]|].
    + destruct (Str.truthy elem_tag).
      * apply unique_tags_descend; [|intros c|done].
        -- apply (keeps_tag_set_attr_opt attr_name value).
        -- apply (unique_tags_set_attr_opt attr_name value).
      * by apply (unique_tags_set_attr_opt attr_name value).
    + apply unique_tags_descend; [apply keeps_tag_walk|apply IH|done].
Qed.

Lemma unique_tags_ensure_fields fields : forall tx,
  unique_tags tx = true -> unique_tags (ensure_fields tx fields) = true.
Proof.
  induction fields as [|[path value] fields IH]; intros tx Htx; [done|].
  apply IH. by apply unique_tags_walk.
Qed.

(** X17.  [_ensure_path] never creates a second sibling with a tag that is
    already there: in a tree in which no two siblings share a tag, at any
    depth, this is still so after the call, whatever the path is. *)
Theorem ensure_path_keeps_sibling_tags_unique (root : element) (path : string)
    (value : option string) :
  unique_tags root = true ->
  unique_tags (_ensure_path root path value) = true.
Proof. apply unique_tags_walk. Qed.

Lemma ensure_path_keeps_sibling_tags_unique_witness :
  unique_tags
    (_ensure_path (fresh_wrapper NS_AUTH) "New/Tx/Pric/Amt@Ccy" (Some "EUR"))
  = true.
Proof.
  apply (ensure_path_keeps_sibling_tags_unique (fresh_wrapper NS_AUTH)).
  by vm_compute.
Defined.

(** X18.  A record wrapper never holds a repeated element: whatever the
    fields of a row are, [append_tx] adds exactly one wrapper after the
    children the container has, and in it no two siblings share a tag, at
    any depth.  Two fields with the same path write to the same node. *)
Theorem append_tx_wrapper_has_no_repeated_sibling (cfg : GeneratorConfig)
    (fields : list (string * string)) (container container' : element) :
  append_tx cfg fields container = Ok container' ->
  exists tx,
    container' = append_child container tx
    /\ unique_tags tx = true
    /\ exists msg_ns, _uri cfg "msg" = Ok msg_ns /\ tag tx = QName msg_ns "Tx".
Proof.
  unfold append_tx. destruct (_uri cfg "msg") as [msg_ns|e]; simpl; [|done].
  intros [= <-]. eexists. split; [done|]. split.
  - apply unique_tags_ensure_fields. apply unique_tags_true.
    split; [apply NoDup_singleton|by repeat constructor].
  - exists msg_ns. split; [done|]. by rewrite tag_ensure_fields.
Qed.

Lemma append_tx_wrapper_has_no_repeated_sibling_witness :
  exists tx,
    append_child (new_element "c")
      (ensure_fields (fresh_wrapper NS_AUTH)
         [("New/Tx/Qty", "1"); ("New/Tx/Qty", "2")])
    = append_child (new_element "c") tx
    /\ unique_tags tx = true
    /\ exists msg_ns,
         _uri ex_iso_cfg "msg" = Ok msg_ns /\ tag tx = QName msg_ns "Tx".
Proof.
  apply (append_tx_wrapper_has_no_repeated_sibling ex_iso_cfg
           [("New/Tx/Qty", "1"); ("New/Tx/Qty", "2")] (new_element "c")).
  by vm_compute.
Defined.

(** ** The ordering context *)

Lemma not_inner_stays tx tx' :
  tag tx' = tag tx -> child_names tx ⊆ child_names tx' ->
  is_inner_tx tx = false -> is_inner_tx tx' = false.
Proof.
  intros Htag Hsub Hnot. destruct (is_inner_tx tx') eqn:Hinner; [|done].
  by rewrite (is_inner_tx_earlier tx tx') in Hnot.
Qed.

Lemma not_inner_ensure_fields fields : forall tx,
  is_inner_tx tx = false -> is_inner_tx (ensure_fields tx fields) = false.
Proof.
  induction fields as [|[path value] fields IH]; intros tx Htx; [done|].
  apply IH. eapply not_inner_stays; [apply tag_ensure_path| |done].
  apply child_names_walk_incl.
Qed.

Lemma descend_not_inner cur t K :
  is_inner_tx cur = false ->
  find_child t (child_nodes cur) = None ->
  child_nodes (descend cur t K) = child_nodes cur ++ [K (new_element t)].
Proof.
  intros Hcur Hfind. unfold descend, find_or_create, insert_child_in_order.
  rewrite Hfind, Hcur. simpl.
  assert (modify_first t K (child_nodes cur) = child_nodes cur) as Hsame.
  { apply find_child_None in Hfind. induction Hfind as [|c l Hc _ IH]; simpl;
      [done|]. destruct (String.eqb_spec (tag c) t); [done|by rewrite IH]. }
  clear Hcur. induction (child_nodes cur) as [|c l IH]; simpl.
  - by rewrite String.eqb_refl.
  - simpl in Hfind, Hsame. destruct (String.eqb (tag c) t); [done|].
    f_equal. apply IH; [done|congruence].
Qed.

Lemma local_name_QName ns l :
  Str.contains "}" ns = false -> local_name (QName ns l) = l.
Proof.
  intros Hns. unfold local_name, QName.
  change ("{" +:+ ns +:+ "}" +:+ l) with (String "{" ns +:+ String "}" l).
  by rewrite split_once_app.
Qed.

Lemma fresh_wrapper_not_inner msg_ns :
  Str.contains "}" msg_ns = false -> is_inner_tx (fresh_wrapper msg_ns) = false.
Proof.
  intros Hns. unfold is_inner_tx, fresh_wrapper.
  destruct (negb _); [done|]. destruct (negb _); [done|]. simpl.
  by rewrite local_name_QName.
Qed.

(** X19.  A node that is outside the ordering context never enters it: no
    call of [_ensure_path] turns it into an inner record node.  A child
    created directly under such a node is appended after the children
    present.  The record wrapper, which holds the marker child New, is
    such a node, so the ordering policy never applies to it, whatever
    fields are applied. *)
Theorem outer_node_is_never_ordered (tx : element)
    (fields : list (string * string)) :
  is_inner_tx tx = false ->
  is_inner_tx (ensure_fields tx fields) = false
  /\ (forall t K,
        find_child t (child_nodes tx) = None ->
        child_nodes (descend tx t K) = child_nodes tx ++ [K (new_element t)])
  /\ (forall msg_ns,
        Str.contains "}" msg_ns = false ->
        is_inner_tx (ensure_fields (fresh_wrapper msg_ns) fields) = false).
Proof.
  intros Htx. split; [by apply not_inner_ensure_fields|]. split.
  - intros t K. by apply descend_not_inner.
  - intros msg_ns Hns. by apply not_inner_ensure_fields, fresh_wrapper_not_inner.
Qed.

Lemma outer_node_is_never_ordered_witness :
  is_inner_tx
    (ensure_fields (fresh_wrapper NS_AUTH) [("TradVn", "x"); ("TradDt", "d")])
    = false
  /\ (forall t K,
        find_child t (child_nodes (fresh_wrapper NS_AUTH)) = None ->
        child_nodes (descend (fresh_wrapper NS_AUTH) t K)
          = child_nodes (fresh_wrapper NS_AUTH) ++ [K (new_element t)])
  /\ (forall msg_ns,
        Str.contains "}" msg_ns = false ->
        is_inner_tx
          (ensure_fields (fresh_wrapper msg_ns)
             [("TradVn", "x"); ("TradDt", "d")]) = false).
Proof.
  apply (outer_node_is_never_ordered (fresh_wrapper NS_AUTH)
           [("TradVn", "x"); ("TradDt", "d")]).
  by vm_compute.
Defined.

(** ** The baseline builder *)

Section baseline_rows.
Variables (cfg : GeneratorConfig) (w : world).

Lemma foldlM_cons {A B} (f : A -> B -> result A) a b l :
  foldlM f a (b :: l) = f a b ≫= fun a' => foldlM f a' l.
Proof. done. Qed.

Lemma append_record_iso_style fields parent :
  XmlBuilder.opt_truthy (record_container_qname cfg) = true ->
  XmlBuilder.opt_truthy (record_element_qname cfg) = true ->
  XmlBuilder.append_record cfg fields parent
    = Raise (AttributeError
               "'XmlBuilder' object has no attribute 'ensure_container'").
Proof. unfold XmlBuilder.append_record. by intros -> ->. Qed.

Lemma baseline_fields_tag fields : forall rec_el rec,
  foldlM (fun rec_el '(path, value) =>
            XmlBuilder._ensure_path cfg rec_el path value) rec_el fields
    = Ok rec ->
  tag rec = tag rec_el.
Proof.
  induction fields as [|[path value] fields IH]; intros rec_el rec; simpl.
  - by intros [= <-].
  - destruct (XmlBuilder._ensure_path cfg rec_el path value) as [r|] eqn:Hr;
      [|done]. simpl. intros Hrec. rewrite (IH _ _ Hrec).
    by apply walk_Ok_tag in Hr.
Qed.

Lemma append_record_Ok fields parent doc :
  XmlBuilder.append_record cfg fields parent = Ok doc ->
  exists t rec,
    XmlBuilder._qname cfg (record_name cfg) = Ok t /\
    foldlM (fun rec_el '(path, value) =>
              XmlBuilder._ensure_path cfg rec_el path value)
           (new_element t) fields = Ok rec /\
    doc = append_child parent rec.
Proof.
  unfold XmlBuilder.append_record. destruct (_ && _); [done|].
  fold (record_name cfg).
  destruct (XmlBuilder._qname cfg (record_name cfg)) as [t|]; [|done].
  rewrite bind_Ok. destruct (foldlM _ _ _) as [rec|] eqn:Hrec; [|done].
  rewrite bind_Ok. intros [= <-]. by exists t, rec.
Qed.

Lemma baseline_rows_Ok rows : forall root1 doc,
  foldlM (fun root row =>
            fields ← to_xml_fields cfg w (mkTradeRecord row);
            XmlBuilder.append_record cfg fields root) root1 rows = Ok doc ->
  exists recs,
    doc = with_children root1 (child_nodes root1 ++ recs)
    /\ Forall2 (baseline_record cfg w) rows recs.
Proof.
  induction rows as [|row rows IH]; intros root1 doc.
  - intros [= <-]. exists []. rewrite app_nil_r, with_children_same.
    split; [done|constructor].
  - rewrite foldlM_cons.
    destruct (to_xml_fields cfg w (mkTradeRecord row)) as [fields|] eqn:Hf;
      [|done]. rewrite bind_Ok.
    destruct (XmlBuilder.append_record cfg fields root1) as [root2|] eqn:Hr;
      [|done]. rewrite bind_Ok.
    apply append_record_Ok in Hr as (t & rec & Ht & Hrec & ->).
    intros (recs & -> & Hrecs)%IH. exists (rec :: recs). split.
    + unfold append_child, with_children. simpl. by rewrite <- app_assoc.
    + constructor; [by exists t, fields|done].
Qed.

End baseline_rows.

(** X20.  With a configuration in the ISO style (a record container and a
    record element name both set) the baseline builder cannot write a
    record: [append_record] calls two methods the class does not define,
    so the generation raises [AttributeError] at the first row; without
    rows the document is the root alone. *)
Theorem baseline_iso_style_config_fails (cfg : GeneratorConfig) (w : world)
    (rows : list (gmap string (option string))) (root0 : element) :
  XmlBuilder.opt_truthy (record_container_qname cfg) = true ->
  XmlBuilder.opt_truthy (record_element_qname cfg) = true ->
  XmlBuilder.build_root cfg w = Ok root0 ->
  rows <> [] ->
  generate false cfg w rows
    = Raise (AttributeError
               "'XmlBuilder' object has no attribute 'ensure_container'")
  /\ generate false cfg w [] = Ok root0.
Proof.
  intros Hc He Hroot Hrows. unfold generate. rewrite Hroot, !bind_Ok.
  split; [|done]. destruct rows as [|row rows]; [done|].
  rewrite foldlM_cons.
  destruct (to_xml_fields_total cfg w (mkTradeRecord row)) as [fields ->].
  rewrite bind_Ok. by rewrite append_record_iso_style.
Qed.

Lemma baseline_iso_style_config_fails_witness :
  generate false
    (mkGeneratorConfig (namespaces ex_zz_cfg) (root ex_zz_cfg) None []
       (Some "rep:Rpt") (Some "rep:Tx")) ex_world [ex_zz_row]
    = Raise (AttributeError
               "'XmlBuilder' object has no attribute 'ensure_container'")
  /\ generate false
       (mkGeneratorConfig (namespaces ex_zz_cfg) (root ex_zz_cfg) None []
          (Some "rep:Rpt") (Some "rep:Tx")) ex_world []
     = Ok (new_element "{urn:example:report}Report").
Proof.
  apply baseline_iso_style_config_fails; by vm_compute.
Defined.

(** X21.  A successful generation with the baseline builder appends one
    record element per row to the root, after the static children and in
    row order, and changes nothing else of the root; each record carries
    the resolved record name, [Record] when none is configured, and is a
    fresh element to which the mapped fields of its row were applied. *)
Theorem baseline_one_record_per_row (cfg : GeneratorConfig) (w : world)
    (rows : list (gmap string (option string))) (doc : element) :
  generate false cfg w rows = Ok doc ->
  exists root0 recs,
    XmlBuilder.build_root cfg w = Ok root0
    /\ doc = with_children root0 (child_nodes root0 ++ recs)
    /\ length recs = length rows
    /\ Forall2 (baseline_record cfg w) rows recs
    /\ Forall (fun rec =>
                 XmlBuilder._qname cfg (record_name cfg) = Ok (tag rec)) recs.
Proof.
  unfold generate.
  destruct (XmlBuilder.build_root cfg w) as [root0|]; [|done]. rewrite bind_Ok.
  destruct (foldlM _ root0 rows) as [doc'|] eqn:Hrows; [|done]. rewrite bind_Ok.
  intros [= <-]. apply baseline_rows_Ok in Hrows as (recs & -> & Hrecs).
  exists root0, recs. split; [done|]. split; [done|].
  split; [symmetry; by eapply Forall2_length|]. split; [done|].
  clear -Hrecs. induction Hrecs as [|row rec rows recs Hrec _ IH]; constructor;
    [|done].
  destruct Hrec as (t & fields & Ht & _ & Hrec).
  by rewrite (baseline_fields_tag cfg _ _ _ Hrec).
Qed.

Lemma baseline_one_record_per_row_witness :
  exists root0 recs,
    XmlBuilder.build_root ex_zz_cfg ex_world = Ok root0
    /\ append_child (new_element "{urn:example:report}Report")
         (new_element "Record")
       = with_children root0 (child_nodes root0 ++ recs)
    /\ length recs = length [ex_blank_row]
    /\ Forall2 (baseline_record ex_zz_cfg ex_world) [ex_blank_row] recs
    /\ Forall (fun rec =>
                 XmlBuilder._qname ex_zz_cfg (record_name ex_zz_cfg)
                   = Ok (tag rec)) recs.
Proof.
  apply (baseline_one_record_per_row ex_zz_cfg ex_world [ex_blank_row]).
  by vm_compute.
Defined.

Section baseline_read_back.
Variable cfg : GeneratorConfig.

Lemma modify_firstM_found t (K : element -> result element) l l' c :
  (forall c c', K c = Ok c' -> tag c' = tag c) ->
  modify_firstM t K l = Ok l' -> find_child t l = Some c ->
  exists c', K c = Ok c' /\ find_child t l' = Some c'.
Proof.
  intros HK. revert l'. induction l as [|c0 l IH]; intros l'; simpl; [done|].
  destruct (String.eqb (tag c0) t) eqn:Htag.
  - destruct (K c0) as [c'|] eqn:Hc; [|done]. simpl. intros [= <-] [= <-].
    exists c'. split; [done|]. simpl. by rewrite (HK _ _ Hc), Htag.
  - destruct (modify_firstM t K l) as [l''|]; [|done]. simpl.
    intros [= <-] Hc. destruct (IH l'' eq_refl Hc) as (c' & Hc' & Hfind).
    exists c'. split; [done|]. simpl. by rewrite Htag.
Qed.

Lemma baseline_walk_read_back parts value : forall current r,
  parts <> [] ->
  XmlBuilder.walk cfg parts value current = Ok r ->
  exists tags e,
    Forall2 (fun p t => XmlBuilder._qname cfg p = Ok t) parts tags
    /\ find_path tags r = Some e
    /\ text e = Some value.
Proof.
  induction parts as [|part rest IH]; intros current r Hne; [done|].
  cbn [XmlBuilder.walk].
  destruct (XmlBuilder._qname cfg part) as [t|] eqn:Ht; [|done].
  rewrite bind_Ok.
  destruct (modify_firstM _ _ _) as [kids|] eqn:Hkids; [|done].
  rewrite bind_Ok. intros [= <-].
  destruct (find_child_after_ensure t current) as [c Hc].
  eapply modify_firstM_found in Hkids as (c' & Hc' & Hfind); [|clear|exact Hc].
  2:{ intros c0 c0' H0. apply walk_Ok_tag in H0. rewrite H0.
      by destruct rest. }
  destruct rest as [|part' rest].
  - simpl in Hc'. simplify_eq. exists [t], (set_text value c).
    split; [by repeat constructor|]. split; [|done].
    simpl. by rewrite Hfind.
  - destruct (IH c c') as (tags & e & Htags & He & Hv); [done|done|].
    exists (t :: tags), e. split; [by constructor|]. split; [|done].
    simpl. by rewrite Hfind.
Qed.

End baseline_read_back.


(** ** Macros and mapping rules, further *)

(** X23.  [resolve_macros] never raises.  The unpacking of the parts of an
    environment macro needs two of them, and a string that starts with
    the macro prefix always splits into two parts at least, also when
    nothing follows the prefix. *)
Theorem resolve_macros_never_raises (w : world) (value : string) :
  is_ok (resolve_macros w value) = true
  /\ (Str.startswith "{ENV:" value = true ->
      exists var rest,
        Str.split ":" (Str.strip is_brace value) = "ENV" :: var :: rest).
Proof.
  split; [by destruct (resolve_macros_total w value) as [r ->]|].
  intros (rest & ->)%startswith_inv. rewrite strip_env.
  change ("ENV:" +:+ Str.rstrip is_brace rest)
    with ("ENV" +:+ String ":" (Str.rstrip is_brace rest)).
  rewrite split_app_sep by done.
  destruct (split_nonempty ":" (Str.rstrip is_brace rest)) as (var & more & ->).
  by exists var, more.
Qed.

Lemma resolve_macros_never_raises_witness :
  is_ok (resolve_macros ex_world "{ENV:}") = true
  /\ (Str.startswith "{ENV:" "{ENV:}" = true ->
      exists var rest,
        Str.split ":" (Str.strip is_brace "{ENV:}") = "ENV" :: var :: rest).
Proof. apply (resolve_macros_never_raises ex_world "{ENV:}"). Defined.

Section mapper_sources.
Variables (w : world) (trade : TradeRecord).

Lemma map_rules_elem rules rule v : forall pairs,
  rule ∈ rules ->
  rule_value w trade rule = Ok (Some v) -> v <> "" ->
  exists out, map_rules w trade rules pairs = Ok out /\ (to_path rule, v) ∈ out.
Proof.
  intros pairs Hin Hval Hv.
  destruct (map_rules_emitted w trade rules pairs) as (vals & Hvals & ->).
  eexists. split; [done|]. apply elem_of_app. right.
  apply list_elem_of_lookup in Hin as [i Hi].
  destruct (Forall2_lookup_l _ _ _ _ _ Hvals Hi) as (val & Hval' & Hrv).
  rewrite Hval in Hrv. simplify_eq.
  apply list_elem_of_omap. exists (rule, Some v). split.
  - apply list_elem_of_lookup. exists i. by rewrite lookup_zip_with, Hi, Hval'.
  - simpl. by destruct (String.eqb_spec v "").
Qed.

End mapper_sources.

(** X24.  Where the value of a rule comes from.  A source that names a
    column of the row gives the cell, also when the name looks like a
    macro; a source that names no column of the row and is not a macro
    is written out as it stands, so a mistyped column name silently
    becomes a constant of every record. *)
Theorem mapper_column_or_literal (cfg : GeneratorConfig) (w : world)
    (trade : TradeRecord) (rule : MappingRule) :
  rule ∈ fields cfg ->
  exists out,
    to_xml_fields cfg w trade = Ok out
    /\ (forall v,
          data trade !! from_field rule = Some (Some v) -> v <> "" ->
          (to_path rule, v) ∈ out)
    /\ (data trade !! from_field rule = None ->
        is_macro (from_field rule) = false -> from_field rule <> "" ->
        (to_path rule, from_field rule) ∈ out).
Proof.
  intros Hin. destruct (to_xml_fields_total cfg w trade) as [out Hout].
  exists out. split; [done|]. split.
  - intros v Hv Hne.
    destruct (map_rules_elem w trade (fields cfg) rule v [] Hin) as (o & Ho & ?);
      [by unfold rule_value; rewrite Hv|done|].
    unfold to_xml_fields in Hout. congruence.
  - intros Hnone Hmacro Hne.
    destruct (map_rules_elem w trade (fields cfg) rule (from_field rule) [] Hin)
      as (o & Ho & ?); [|done|].
    + unfold rule_value. rewrite Hnone. by rewrite resolve_macros_plain.
    + unfold to_xml_fields in Hout. congruence.
Qed.

Lemma mapper_column_or_literal_witness :
  exists out,
    to_xml_fields ex_zz_cfg ex_world (mkTradeRecord ∅) = Ok out
    /\ (forall v,
          data (mkTradeRecord ∅) !! from_field (mkMappingRule "isin" "zz:Foo")
            = Some (Some v) -> v <> "" ->
          (to_path (mkMappingRule "isin" "zz:Foo"), v) ∈ out)
    /\ (data (mkTradeRecord ∅) !! from_field (mkMappingRule "isin" "zz:Foo")
          = None ->
        is_macro (from_field (mkMappingRule "isin" "zz:Foo")) = false ->
        from_field (mkMappingRule "isin" "zz:Foo") <> "" ->
        (to_path (mkMappingRule "isin" "zz:Foo"),
         from_field (mkMappingRule "isin" "zz:Foo")) ∈ out).
Proof.
  apply (mapper_column_or_literal ex_zz_cfg ex_world (mkTradeRecord ∅)
           (mkMappingRule "isin" "zz:Foo")).
  apply list_elem_of_singleton. reflexivity.
Defined.

(** ** The validator's base URLs *)

Section base_urls.
Import validator.

Lemma dedupe_elem seen l x :
  x ∈ dedupe_base_urls seen l <-> x ∈ l /\ x ∉ seen.
Proof.
  revert seen. induction l as [|b l IH]; intros seen; simpl.
  - rewrite elem_of_nil. tauto.
  - case_bool_decide as Hb.
    + rewrite IH, elem_of_cons. split; [tauto|].
      intros [[->|?] ?]; [done|tauto].
    + rewrite !elem_of_cons, IH, elem_of_union, elem_of_singleton.
      split; [intros [->|(? & ?)]; [tauto|tauto]|].
      intros [[->|?] ?]; [by left|].
      destruct (decide (x = b)) as [->|]; [by left|right; tauto].
Qed.

Lemma dedupe_NoDup seen l : NoDup (dedupe_base_urls seen l).
Proof.
  revert seen. induction l as [|b l IH]; intros seen; simpl; [constructor|].
  case_bool_decide; [done|]. constructor; [|done].
  rewrite dedupe_elem, elem_of_union, elem_of_singleton. tauto.
Qed.

Lemma dedupe_sublist seen l : dedupe_base_urls seen l `sublist_of` l.
Proof.
  revert seen. induction l as [|b l IH]; intros seen; simpl; [done|].
  case_bool_decide; [by apply sublist_cons|by apply sublist_skip].
Qed.

Lemma dedupe_fixed seen l :
  NoDup l -> Forall (fun x => x ∉ seen) l -> dedupe_base_urls seen l = l.
Proof.
  revert seen. induction l as [|b l IH]; intros seen Hnd Hl; simpl; [done|].
  apply NoDup_cons in Hnd as [Hb Hnd]. apply Forall_cons in Hl as [Hbs Hl].
  rewrite bool_decide_eq_false_2 by done. f_equal. apply IH; [done|].
  apply Forall_forall. intros x Hx.
  rewrite elem_of_union, elem_of_singleton. intros [->|?]; [done|].
  rewrite Forall_forall in Hl. by apply (Hl x).
Qed.

End base_urls.

(** X25.  The base URLs the validator tries are the candidates without
    repetition: each candidate occurs exactly once, the order of first
    occurrence is kept, and a list without repetition is left as it is. *)
Theorem base_urls_deduplicated (base_urls : list string) :
  let tried := validator.dedupe_base_urls ∅ base_urls in
  NoDup tried
  /\ (forall b, b ∈ tried <-> b ∈ base_urls)
  /\ tried `sublist_of` base_urls
  /\ (forall b rest, base_urls = b :: rest -> head tried = Some b)
  /\ validator.dedupe_base_urls ∅ tried = tried.
Proof.
  simpl. split; [apply dedupe_NoDup|]. split; [|split; [|split]].
  - intros b. rewrite dedupe_elem. split; [tauto|].
    intros Hb. split; [done|apply not_elem_of_empty].
  - apply dedupe_sublist.
  - by intros b rest ->.
  - apply dedupe_fixed; [apply dedupe_NoDup|].
    apply Forall_forall. intros x _. apply not_elem_of_empty.
Qed.

Section schema_bases.
Import validator.
Context {S E : Type} (load : string -> S + E).

Lemma try_bases_first pre b post schema last_err :
  Forall (fun u => exists e, load u = inr e) pre ->
  load b = inl schema ->
  try_bases load (pre ++ b :: post) last_err = inl schema.
Proof.
  intros Hpre Hb. revert last_err.
  induction Hpre as [|u pre [e Hu] _ IH]; intros last_err; simpl.
  - by rewrite Hb.
  - rewrite Hu. apply IH.
Qed.

Lemma try_bases_none pre b e last_err :
  Forall (fun u => exists e, load u = inr e) pre ->
  load b = inr e ->
  try_bases load (pre ++ [b]) last_err = inr (LoadError e).
Proof.
  intros Hpre Hb. revert last_err.
  induction Hpre as [|u pre [e' Hu] _ IH]; intros last_err; simpl.
  - by rewrite Hb.
  - rewrite Hu. apply IH.
Qed.

End schema_bases.

(** X26.  [_load_schema_with_bases] returns the schema of the first base URL
    that loads and tries none after it; when every base URL fails it
    raises the error of the last one, not of the first; with no base URL
    at all it fails its assertion. *)
Theorem load_schema_first_success_last_error {S E : Type}
    (load : string -> S + E) (pre : list string) (b : string) :
  Forall (fun u => exists e, load u = inr e) pre ->
  (forall post schema,
     load b = inl schema ->
     validator._load_schema_with_bases load (pre ++ b :: post) = inl schema)
  /\ (forall e,
        load b = inr e ->
        validator._load_schema_with_bases load (pre ++ [b])
          = inr (validator.LoadError e))
  /\ validator._load_schema_with_bases load [] = inr validator.AssertionError.
Proof.
  intros Hpre. split; [|split; [|done]].
  - intros post schema Hb. by apply try_bases_first.
  - intros e Hb. by apply try_bases_none.
Qed.

Lemma load_schema_first_success_last_error_witness :
  let load := fun u : string =>
    if String.eqb u "file:///xsd" then inl "schema" else inr ("no " +:+ u) in
  (forall post schema,
     load "file:///xsd" = inl schema ->
     validator._load_schema_with_bases load (["file:///main"] ++ "file:///xsd" :: post)
       = inl schema)
  /\ (forall e,
        load "file:///xsd" = inr e ->
        validator._load_schema_with_bases load (["file:///main"] ++ ["file:///xsd"])
          = inr (validator.LoadError e))
  /\ validator._load_schema_with_bases load []
     = inr validator.AssertionError.
Proof.
  apply (load_schema_first_success_last_error
           (fun u : string =>
              if String.eqb u "file:///xsd" then inl "schema"
              else inr ("no " +:+ u))
           ["file:///main"] "file:///xsd").
  repeat constructor. by eexists.
Defined.

(** ** Rows of the CSV reader *)

Section csv_rows.

Lemma lstrip_all p s :
  Forall (fun c => p c = true) (list_ascii_of_string s) -> Str.lstrip p s = "".
Proof.
  induction s as [|c s IH]; simpl; [done|].
  intros [Hc Hs]%Forall_cons. rewrite Hc. by apply IH.
Qed.

Lemma strip_all p s :
  Forall (fun c => p c = true) (list_ascii_of_string s) -> Str.strip p s = "".
Proof. intros H. unfold Str.strip. by rewrite lstrip_all. Qed.

Lemma foldlM_app {A B} (f : A -> B -> result A) l1 l2 : forall a,
  foldlM f a (l1 ++ l2) = foldlM f a l1 ≫= fun a' => foldlM f a' l2.
Proof.
  induction l1 as [|b l1 IH]; intros a; simpl; [done|].
  destruct (f a b); simpl; [apply IH|done].
Qed.

Lemma strip_cells_Ok row : forall new,
  Forall (fun item => is_Some (item_key item)) row ->
  exists m, foldlM strip_item new row = Ok m.
Proof.
  induction row as [|item row IH]; intros new Hrow; [by eexists|].
  apply Forall_cons in Hrow as [[k0 Hk0] Hrow].
  destruct item as [k' v|]; [|done]. simpl. by apply IH.
Qed.

Lemma strip_cells_other row k0 : forall new m,
  Forall (fun item => item_key item <> Some k0) row ->
  foldlM strip_item new row = Ok m -> m !! k0 = new !! k0.
Proof.
  induction row as [|item row IH]; intros new m Hrow; simpl.
  - by intros [= <-].
  - apply Forall_cons in Hrow as [Hk Hrow]. destruct item as [k' v|]; [|done].
    simpl. intros Hm. rewrite (IH _ _ Hrow Hm).
    apply lookup_insert_ne. simpl in Hk. congruence.
Qed.

End csv_rows.

Lemma strip_row_surplus row cells :
  Surplus cells ∈ row ->
  strip_row row
    = Raise (AttributeError "'NoneType' object has no attribute 'strip'").
Proof.
  intros Hin. unfold strip_row. generalize (∅ : gmap string (option string)).
  induction row as [|item row IH]; intros new; [by apply elem_of_nil in Hin|].
  destruct item as [k v|cells']; [|done]. simpl. apply IH.
  by apply elem_of_cons in Hin as [?|?].
Qed.

(** X27.  A row with more cells than the header has columns cannot be
    read: the reader files the surplus cells under the key [None], and
    stripping that key raises [AttributeError] when the generator is
    asked for that row, whatever the row holds besides. *)
Theorem csv_surplus_cells_raise (reader : list (list csv_item)) (i : nat)
    (row : list csv_item) (cells : list string) :
  reader !! i = Some row ->
  Surplus cells ∈ row ->
  rows reader !! i
    = Some (Raise (AttributeError "'NoneType' object has no attribute 'strip'")).
Proof.
  intros Hi Hin. unfold rows. rewrite list_lookup_fmap, Hi. simpl.
  by rewrite (strip_row_surplus row cells).
Qed.

Lemma csv_surplus_cells_raise_witness :
  rows [[Cell "isin" (Some "DE0001")];
        [Cell "isin" (Some "DE0002"); Surplus ["x"]]] !! 1
    = Some (Raise (AttributeError "'NoneType' object has no attribute 'strip'")).
Proof.
  apply (csv_surplus_cells_raise _ 1
           [Cell "isin" (Some "DE0002"); Surplus ["x"]] ["x"]).
  - reflexivity.
  - apply elem_of_cons. right. apply list_elem_of_singleton. reflexivity.
Defined.

(** X28.  Names and cells reach the mapper stripped of surrounding white
    space, and a cell without content gives no field: for a row without
    surplus cells the column is filed under its stripped name with its
    stripped cell (the last one, if two columns strip to the same name),
    and when the cell is missing or holds white space only, a rule that
    reads this column adds nothing to the fields of the record. *)
Theorem csv_blank_cell_gives_no_field (w : world)
    (pre post : list csv_item) (k : string) (v : option string) :
  Forall (fun item => is_Some (item_key item)) (pre ++ Cell k v :: post) ->
  Forall (fun item => item_key item <> Some (Str.strip is_space k)) post ->
  exists m,
    strip_row (pre ++ Cell k v :: post) = Ok m
    /\ m !! Str.strip is_space k = Some (Str.strip is_space <$> v)
    /\ (blank v ->
        forall rule pairs,
          from_field rule = Str.strip is_space k ->
          map_rule w (mkTradeRecord m) rule pairs = Ok pairs).
Proof.
  intros Hrow Hpost. unfold strip_row.
  destruct (strip_cells_Ok _ ∅ Hrow) as [m Hm]. exists m. split; [done|].
  assert (m !! Str.strip is_space k = Some (Str.strip is_space <$> v)) as Hk.
  { rewrite foldlM_app in Hm. apply bind_Ok_inv in Hm as (m1 & _ & Hm).
    simpl in Hm. rewrite (strip_cells_other _ _ _ _ Hpost Hm).
    apply lookup_insert_eq. }
  split; [done|]. intros Hblank rule pairs Hfrom.
  unfold map_rule, rule_value. cbn [data]. rewrite Hfrom, Hk. simpl.
  destruct v as [s|]; [|done]. simpl. by rewrite strip_all.
Qed.

Lemma csv_blank_cell_gives_no_field_witness :
  exists m,
    strip_row ([Cell " isin " (Some "DE0001")] ++ Cell "qty " (Some "  ") :: [])
      = Ok m
    /\ m !! Str.strip is_space "qty " = Some (Str.strip is_space <$> Some "  ")
    /\ (blank (Some "  ") ->
        forall rule pairs,
          from_field rule = Str.strip is_space "qty " ->
          map_rule ex_world (mkTradeRecord m) rule pairs = Ok pairs).
Proof.
  apply (csv_blank_cell_gives_no_field ex_world
           [Cell " isin " (Some "DE0001")] [] "qty " (Some "  "));
    repeat constructor; by eexists.
Defined.

(** ** The header of the enhanced builder's document *)

Lemma QName_eqb ns a b : String.eqb (QName ns a) (QName ns b) = String.eqb a b.
Proof.
  destruct (String.eqb_spec a b) as [->|Hne]; [apply String.eqb_refl|].
  apply String.eqb_neq. by intros ?%QName_inj.
Qed.

Lemma substring_length_le n s : String.length (String.substring 0 n s) <= n.
Proof.
  revert s. induction n as [|n IH]; intros [|c s]; simpl; try lia.
  specialize (IH s). lia.
Qed.

Lemma substring_all n s : String.length s <= n -> String.substring 0 n s = s.
Proof.
  revert s. induction n as [|n IH]; intros [|c s]; simpl; try done; try lia.
  intros Hle. f_equal. apply IH. lia.
Qed.

#[local] Arguments QName : simpl never.

(** X29.  What the header of the enhanced builder's document holds.  The
    identifiers of the sender and of the receiver are the values of the
    environment variables FIRM_LEI and TO_LEI, with UNKNOWN for one that
    is not set, and come from nothing in the configuration; the message
    identifier is the prefix [mf-] and the random hexadecimal string (36
    characters at most, 35 for the 32 digits of a UUID); the message
    definition is the constant auth.016.001.01; the creation time is the
    clock value with [Z] appended; and the record container is the only
    child of the payload's document element. *)
Theorem build_root_header (cfg : GeneratorConfig) (w : world)
    (root0 : element) (container : list nat) :
  build_root cfg w = Ok (root0, container) ->
  exists head003 head001 msg,
    _uri cfg "head003" = Ok head003 /\ _uri cfg "head001" = Ok head001
    /\ _uri cfg "msg" = Ok msg
    /\ tag root0 = QName head003 "BizData"
    /\ (text <$> find_path (app_header_tags head003 head001
                             ++ party_id_tags head001 "Fr") root0
        = Some (Some (default "UNKNOWN" (environ w !! "FIRM_LEI"))))
    /\ (text <$> find_path (app_header_tags head003 head001
                             ++ party_id_tags head001 "To") root0
        = Some (Some (default "UNKNOWN" (environ w !! "TO_LEI"))))
    /\ (exists id,
          text <$> find_path (app_header_tags head003 head001
                               ++ [QName head001 "BizMsgIdr"]) root0
            = Some (Some ("mf-" +:+ id))
          /\ String.length id <= 33
          /\ (String.length (uuid4_hex w) = 32 -> id = uuid4_hex w))
    /\ (text <$> find_path (app_header_tags head003 head001
                             ++ [QName head001 "MsgDefIdr"]) root0
        = Some (Some "auth.016.001.01"))
    /\ (text <$> find_path (app_header_tags head003 head001
                             ++ [QName head001 "CreDt"]) root0
        = Some (Some (utcnow_iso w +:+ "Z")))
    /\ (child_nodes <$> find_path [QName head003 "Pyld"; QName msg "Document"]
                          root0
        = Some [new_element (QName msg "FinInstrmRptgTxRpt")])
    /\ node_at container root0
       = Some (new_element (QName msg "FinInstrmRptgTxRpt")).
Proof.
  unfold build_root.
  destruct (foldlM _ _ _) as [[]|]; [|done]. rewrite bind_Ok.
  destruct (_uri cfg "head003") as [head003|]; [|done]. rewrite bind_Ok.
  destruct (_uri cfg "head001") as [head001|]; [|done]. rewrite bind_Ok.
  destruct (_uri cfg "msg") as [msg|]; [|done]. rewrite bind_Ok.
  destruct (_uri cfg "xsi") as [xsi|]; [|done]. rewrite bind_Ok.
  destruct (match dict_get _ _ with Some _ => _ | None => _ end)
    as [root_attrib|]; [|done]. rewrite bind_Ok.
  assert (resolve_macros w "{ENV:FIRM_LEI:UNKNOWN}"
            = Ok (default "UNKNOWN" (environ w !! "FIRM_LEI"))) as ->
    by (by rewrite <- getenv_default).
  assert (resolve_macros w "{ENV:TO_LEI:UNKNOWN}"
            = Ok (default "UNKNOWN" (environ w !! "TO_LEI"))) as ->
    by (by rewrite <- getenv_default).
  rewrite !bind_Ok. intros [= <- <-].
  exists head003, head001, msg. do 4 (split; [done|]).
  unfold app_header_tags, party_id_tags.
  repeat progress
    (cbn [find_path find_child child_nodes tag text mbind option_bind
          mret option_ret fmap list_fmap option_fmap option_map app];
     rewrite ?QName_eqb;
     repeat match goal with
            | |- context [String.eqb ?a ?b] =>
                let r := eval vm_compute in (String.eqb a b) in
                change (String.eqb a b) with r
            end;
     cbv iota).
  split; [done|]. split; [done|]. split.
  { eexists. split; [done|]. split; [apply substring_length_le|].
    intros Hlen. apply substring_all. lia. }
  split; [done|]. split; [done|]. split; [done|done].
Qed.

Lemma build_root_header_witness :
  exists head003 head001 msg,
    _uri ex_iso_cfg "head003" = Ok head003
    /\ _uri ex_iso_cfg "head001" = Ok head001
    /\ _uri ex_iso_cfg "msg" = Ok msg
    /\ tag ex_skeleton = QName head003 "BizData"
    /\ (text <$> find_path (app_header_tags head003 head001
                             ++ party_id_tags head001 "Fr") ex_skeleton
        = Some (Some (default "UNKNOWN" (environ ex_world !! "FIRM_LEI"))))
    /\ (text <$> find_path (app_header_tags head003 head001
                             ++ party_id_tags head001 "To") ex_skeleton
        = Some (Some (default "UNKNOWN" (environ ex_world !! "TO_LEI"))))
    /\ (exists id,
          text <$> find_path (app_header_tags head003 head001
                               ++ [QName head001 "BizMsgIdr"]) ex_skeleton
            = Some (Some ("mf-" +:+ id))
          /\ String.length id <= 33
          /\ (String.length (uuid4_hex ex_world) = 32 -> id = uuid4_hex ex_world))
    /\ (text <$> find_path (app_header_tags head003 head001
                             ++ [QName head001 "MsgDefIdr"]) ex_skeleton
        = Some (Some "auth.016.001.01"))
    /\ (text <$> find_path (app_header_tags head003 head001
                             ++ [QName head001 "CreDt"]) ex_skeleton
        = Some (Some (utcnow_iso ex_world +:+ "Z")))
    /\ (child_nodes <$> find_path [QName head003 "Pyld"; QName msg "Document"]
                          ex_skeleton
        = Some [new_element (QName msg "FinInstrmRptgTxRpt")])
    /\ node_at [1; 0; 0] ex_skeleton
       = Some (new_element (QName msg "FinInstrmRptgTxRpt")).
Proof.
  apply (build_root_header ex_iso_cfg ex_world ex_skeleton [1; 0; 0]).
  by vm_compute.
Defined.

(** ** The root of the baseline builder's document *)

Section baseline_root.
Variables (cfg : GeneratorConfig) (w : world).

Lemma child_object_tag child_qname obj el :
  XmlBuilder.child_object cfg w child_qname obj = Ok el ->
  XmlBuilder._qname cfg child_qname = Ok (tag el).
Proof.
  destruct obj as [s|members]; cbn [XmlBuilder.child_object];
    destruct (XmlBuilder._qname cfg child_qname) as [t|]; try done;
    rewrite bind_Ok.
  - destruct (resolve_macros w s); [|done]. by intros [= <-].
  - match goal with |- context [(?m ≫= _) = Ok _] => destruct m end; [|done].
    by intros [= <-].
Qed.

Lemma root_attributes_loop attrs : forall r r',
  foldlM (fun root '(k, v) =>
            k' ← XmlBuilder._qname cfg k;
            v' ← resolve_macros w v;
            Ok (set_attr k' v' root)) r attrs = Ok r' ->
  tag r' = tag r /\ text r' = text r /\ child_nodes r' = child_nodes r.
Proof.
  induction attrs as [|[k v] attrs IH]; intros r r'; simpl.
  - by intros [= <-].
  - destruct (XmlBuilder._qname cfg k) as [k'|]; [|done]. simpl.
    destruct (resolve_macros w v) as [v'|]; [|done]. simpl.
    intros (-> & -> & ->)%IH. done.
Qed.

Lemma root_children_loop kids : forall r r',
  foldlM (fun root '(child_qname, obj) =>
            el ← XmlBuilder.child_object cfg w child_qname obj;
            Ok (append_child root el)) r kids = Ok r' ->
  tag r' = tag r /\ text r' = text r /\ attrib r' = attrib r
  /\ exists els,
       child_nodes r' = child_nodes r ++ els
       /\ Forall2 (fun kv el =>
                     XmlBuilder.child_object cfg w kv.1 kv.2 = Ok el) kids els.
Proof.
  induction kids as [|[k obj] kids IH]; intros r r'.
  - intros [= <-]. do 3 (split; [done|]). exists []. rewrite app_nil_r.
    split; [done|constructor].
  - rewrite foldlM_cons.
    destruct (XmlBuilder.child_object cfg w k obj) as [el|] eqn:Hel; [|done].
    rewrite !bind_Ok.
    intros (-> & -> & -> & els & -> & Hels)%IH. do 3 (split; [done|]).
    exists (el :: els). split; [simpl; by rewrite <- app_assoc|].
    by constructor.
Qed.

End baseline_root.

(** X30.  The root the baseline builder makes mirrors the root of the
    configuration: it carries the resolved root name and no text, and
    its children are the static children of the configuration, one
    element per entry, in the order of the entries and each with the
    resolved name of its entry. *)
Theorem baseline_build_root_mirrors_configuration (cfg : GeneratorConfig)
    (w : world) (root0 : element) :
  XmlBuilder.build_root cfg w = Ok root0 ->
  XmlBuilder._qname cfg (qname (root cfg)) = Ok (tag root0)
  /\ text root0 = None
  /\ length (child_nodes root0) = length (children (root cfg))
  /\ Forall2 (fun kv el => XmlBuilder.child_object cfg w kv.1 kv.2 = Ok el)
       (children (root cfg)) (child_nodes root0)
  /\ Forall2 (fun kv el => XmlBuilder._qname cfg kv.1 = Ok (tag el))
       (children (root cfg)) (child_nodes root0).
Proof.
  unfold XmlBuilder.build_root.
  destruct (XmlBuilder._qname cfg (qname (root cfg))) as [t|]; [|done].
  rewrite bind_Ok.
  destruct (foldlM _ (new_element t) _) as [r1|] eqn:Hattrs; [|done].
  rewrite bind_Ok.
  apply root_attributes_loop in Hattrs as (Ht1 & Hx1 & Hc1).
  intros (Ht & Hx & _ & els & Hc & Hels)%root_children_loop.
  rewrite Hc1 in Hc. simpl in Hc. rewrite Hc.
  split; [by rewrite Ht, Ht1|]. split; [by rewrite Hx, Hx1|].
  split; [symmetry; by eapply Forall2_length|]. split; [done|].
  eapply Forall2_impl; [exact Hels|]. intros kv el.
  apply child_object_tag.
Qed.

Lemma baseline_build_root_mirrors_configuration_witness :
  let cfg :=
    mkGeneratorConfig (namespaces ex_zz_cfg)
      (mkRootSpec "rep:Report" [("version", "1")]
         [("rep:Hdr", JObj [("rep:Created", JStr "{NOW_ISO}")]);
          ("rep:Source", JStr "desk")] None)
      None [] None None in
  let root0 :=
    Element "{urn:example:report}Report" [] [("version", "1")] None
      [Element "{urn:example:report}Hdr" [] [] None
         [Element "{urn:example:report}Created" [] []
            (Some "2026-01-01T00:00:00Z") []];
       Element "{urn:example:report}Source" [] [] (Some "desk") []] in
  XmlBuilder._qname cfg (qname (root cfg)) = Ok (tag root0)
  /\ text root0 = None
  /\ length (child_nodes root0) = length (children (root cfg))
  /\ Forall2 (fun kv el => XmlBuilder.child_object cfg ex_world kv.1 kv.2 = Ok el)
       (children (root cfg)) (child_nodes root0)
  /\ Forall2 (fun kv el => XmlBuilder._qname cfg kv.1 = Ok (tag el))
       (children (root cfg)) (child_nodes root0).
Proof.
  apply (baseline_build_root_mirrors_configuration _ ex_world).
  by vm_compute.
Defined.

(** * The path engine and the checks of lxml *)

Import MoreExamples.

(** ** Names and texts *)

Section name_facts.
Implicit Types (s name : string) (c : ascii).

Lemma all_app p a b : Str.all p (a +:+ b) = Str.all p a && Str.all p b.
Proof.
  induction a as [|c a IH]; [done|].
  change (String c a +:+ b) with (String c (a +:+ b)). simpl.
  by rewrite IH, andb_assoc.
Qed.

Lemma all_impl (p q : ascii -> bool) s :
  (forall c, p c = true -> q c = true) ->
  Str.all p s = true -> Str.all q s = true.
Proof.
  intros Hpq. induction s as [|c s IH]; simpl; [done|].
  intros [Hc Hs]%andb_true_iff. by rewrite (Hpq c Hc), IH.
Qed.

Lemma all_contains p c s :
  Str.all p s = true -> p c = false -> Str.contains c s = false.
Proof.
  intros Hs Hc. induction s as [|b s IH]; simpl in *; [done|].
  apply andb_true_iff in Hs as [Hb Hs]. rewrite IH by done.
  destruct (Ascii.eqb_spec b c) as [->|]; [congruence|done].
Qed.

Lemma name_start_char c :
  lxml.is_name_start c = true -> lxml.is_name_char c = true.
Proof. unfold lxml.is_name_char. by intros ->. Qed.

Lemma name_char_text c :
  lxml.is_name_char c = true -> lxml.is_text_char c = true.
Proof. destruct c as [[] [] [] [] [] [] [] []]; by vm_compute. Qed.

Lemma name_ok_all name :
  lxml.name_ok name = true -> Str.all lxml.is_name_char name = true.
Proof.
  destruct name as [|c name]; [done|]. simpl.
  intros [Hc Hs]%andb_true_iff. by rewrite (name_start_char c Hc).
Qed.

Lemma name_ok_contains c name :
  lxml.name_ok name = true -> lxml.is_name_char c = false ->
  Str.contains c name = false.
Proof. intros H%name_ok_all. by apply all_contains. Qed.

Lemma name_ok_text name : lxml.name_ok name = true -> lxml.text_ok name = true.
Proof. intros H%name_ok_all. revert H. apply all_impl, name_char_text. Qed.

Lemma name_ok_truthy name : lxml.name_ok name = true -> Str.truthy name = true.
Proof. by destruct name. Qed.

Lemma name_ok_no_brace name :
  lxml.name_ok name = true -> Str.startswith "{" name = false.
Proof.
  destruct name as [|c name]; [done|]. cbn [lxml.name_ok Str.startswith].
  intros [Hc _]%andb_true_iff. rewrite andb_true_r.
  apply Ascii.eqb_neq. intros <-. by vm_compute in Hc.
Qed.

Lemma name_ok_element_segment name :
  lxml.name_ok name = true -> Str.split_once "@" name = None.
Proof. intros H. apply split_once_None. by apply name_ok_contains. Qed.

(** A name with a character that cannot stand in a name is refused. *)
Lemma not_name_ok c name :
  Str.contains c name = true -> lxml.is_name_char c = false ->
  lxml.name_ok name = false.
Proof.
  intros Hin Hc. destruct (lxml.name_ok name) eqn:Hn; [|done].
  by rewrite (name_ok_contains c name) in Hin.
Qed.

Lemma contains_app c a b :
  Str.contains c (a +:+ b) = Str.contains c a || Str.contains c b.
Proof.
  induction a as [|x a IH]; [done|].
  change (String x a +:+ b) with (String x (a +:+ b)). simpl.
  by rewrite IH, orb_assoc.
Qed.

Lemma qualified_not_name prefix local :
  lxml.name_ok (prefix +:+ ":" +:+ local) = false.
Proof.
  apply (not_name_ok ":"); [|done].
  rewrite contains_app. change (":" +:+ local) with (String ":" local).
  simpl. by rewrite orb_true_r.
Qed.

Lemma qualified_text prefix local :
  lxml.name_ok prefix = true -> lxml.name_ok local = true ->
  lxml.text_ok (prefix +:+ ":" +:+ local) = true.
Proof.
  intros Hp%name_ok_text Hl%name_ok_text. unfold lxml.text_ok in *.
  rewrite all_app, Hp. change (":" +:+ local) with (String ":" local).
  simpl. by rewrite Hl.
Qed.

Lemma qualified_element_segment prefix local :
  lxml.name_ok prefix = true -> lxml.name_ok local = true ->
  Str.contains "@" (prefix +:+ ":" +:+ local) = false.
Proof.
  intros Hp Hl. rewrite contains_app.
  change (":" +:+ local) with (String ":" local). simpl.
  by rewrite !name_ok_contains.
Qed.

Lemma split_once_Some sep s a b :
  Str.split_once sep s = Some (a, b) ->
  s = a +:+ String sep b /\ Str.contains sep a = false.
Proof.
  revert a. induction s as [|c s IH]; intros a; simpl; [done|].
  destruct (Ascii.eqb_spec c sep) as [->|Hne].
  - by intros [= <- <-].
  - destruct (Str.split_once sep s) as [[a' b']|]; [|done].
    intros [= <- <-]. destruct (IH a' eq_refl) as [-> Ha]. split; [done|].
    simpl. rewrite Ha. by destruct (Ascii.eqb_spec c sep).
Qed.

End name_facts.

(** ** The calls into lxml *)

Section lxml_facts.
Implicit Types (ns name t : string) (e : element).

Lemma utf8_Ok s : lxml.text_ok s = true -> lxml._utf8 s = Ok s.
Proof. unfold lxml._utf8. by intros ->. Qed.

Lemma getNsTag_plain s :
  lxml.text_ok s = true -> Str.truthy s = true ->
  Str.startswith "{" s = false ->
  lxml._getNsTag s = Ok (None, s).
Proof.
  intros Htext Hne Hbrace. unfold lxml._getNsTag. rewrite utf8_Ok by done.
  rewrite bind_Ok. destruct s as [|c s]; [done|].
  cbn [Str.startswith] in Hbrace. rewrite andb_true_r in Hbrace.
  rewrite Ascii.eqb_sym in Hbrace. by rewrite Hbrace.
Qed.

Lemma text_ok_QName ns name :
  lxml.text_ok ns = true -> lxml.text_ok name = true ->
  lxml.text_ok (QName ns name) = true.
Proof.
  intros Hns Hname. unfold QName, lxml.text_ok in *.
  change ("{" +:+ ns +:+ "}" +:+ name)
    with (String "{" (ns +:+ String "}" name)).
  simpl. by rewrite all_app, Hns.
Qed.

Lemma getNsTag_QName ns name :
  lxml.text_ok ns = true -> lxml.text_ok name = true ->
  Str.contains "}" ns = false ->
  Str.truthy ns = true -> Str.truthy name = true ->
  lxml._getNsTag (QName ns name) = Ok (Some ns, name).
Proof.
  intros Hns Hname Hclean Hn1 Hn2. unfold lxml._getNsTag.
  rewrite utf8_Ok by by apply text_ok_QName. rewrite bind_Ok.
  unfold QName.
  change ("{" +:+ ns +:+ "}" +:+ name)
    with (String "{" (ns +:+ String "}" name)).
  cbv beta iota. change (Ascii.eqb "{" "{") with true. cbv iota.
  rewrite split_once_app by done. by rewrite Hn1, Hn2.
Qed.

Lemma tagValid_Ok name :
  lxml.name_ok name = true -> lxml._tagValidOrRaise name = Ok ().
Proof. unfold lxml._tagValidOrRaise. by intros ->. Qed.

Section in_a_namespace.
Variable uri_ok : string -> bool.
Variable ns : string.
Hypothesis Htext : lxml.text_ok ns = true.
Hypothesis Hbrace : Str.startswith "{" ns = false.
Hypothesis Hclean : Str.contains "}" ns = false.
Hypothesis Htruthy : Str.truthy ns = true.
Hypothesis Huri : uri_ok ns = true.

(** The creation of an element with an accepted name succeeds... *)
Lemma QName_text_Ok name :
  lxml.name_ok name = true -> lxml.QName_text ns name = Ok (QName ns name).
Proof.
  intros Hname. unfold lxml.QName_text.
  rewrite getNsTag_plain by done. rewrite bind_Ok. cbv beta iota. simpl default.
  rewrite utf8_Ok by by apply name_ok_text. rewrite bind_Ok.
  by rewrite tagValid_Ok.
Qed.

Lemma Element_QName_Ok name :
  lxml.name_ok name = true ->
  lxml.Element uri_ok (QName ns name) = Ok (new_element (QName ns name)).
Proof.
  intros Hname. unfold lxml.Element.
  rewrite getNsTag_QName
    by (done || by apply name_ok_text || by apply name_ok_truthy).
  rewrite bind_Ok. cbv beta iota. rewrite tagValid_Ok by done.
  rewrite bind_Ok. cbn [lxml._uriValidOrRaise]. by rewrite Huri.
Qed.

(** ... and that of an element with any other name raises, whatever the
    tree. *)
Lemma QName_text_refused name :
  lxml.text_ok name = true -> lxml.name_ok name = false ->
  lxml.QName_text ns name = Raise (lxml.invalid_tag_name name).
Proof.
  intros Ht Hname. unfold lxml.QName_text.
  rewrite getNsTag_plain by done. rewrite bind_Ok. cbv beta iota.
  rewrite utf8_Ok by done. rewrite bind_Ok.
  unfold lxml._tagValidOrRaise. by rewrite Hname.
Qed.

End in_a_namespace.

Lemma QName_text_raise ns name :
  lxml.name_ok name = false -> exists err, lxml.QName_text ns name = Raise err.
Proof.
  intros Hname. unfold lxml.QName_text.
  destruct (lxml._getNsTag ns) as [[ns_utf tag_utf]|err]; [|by eexists].
  rewrite bind_Ok. cbv beta iota. unfold lxml._utf8.
  destruct (lxml.text_ok name); [|by eexists]. rewrite bind_Ok.
  unfold lxml._tagValidOrRaise. rewrite Hname. by eexists.
Qed.

Lemma set_text_Ok v e :
  lxml.text_ok v = true -> lxml.set_text v e = Ok (set_text v e).
Proof. intros Hv. unfold lxml.set_text. by rewrite utf8_Ok. Qed.

Lemma set_Ok key v e :
  lxml.name_ok key = true -> lxml.text_ok v = true ->
  lxml.set key v e = Ok (set_attr key v e).
Proof.
  intros Hkey Hv. unfold lxml.set.
  rewrite getNsTag_plain
    by (by apply name_ok_text || by apply name_ok_truthy
        || by apply name_ok_no_brace).
  rewrite bind_Ok. cbv beta iota. unfold lxml._attributeValidOrRaise.
  rewrite Hkey, bind_Ok. by rewrite utf8_Ok.
Qed.

Lemma tag_ok_name name : lxml.name_ok name = true -> lxml.tag_ok name = true.
Proof.
  intros Hname. pose proof (name_ok_no_brace name Hname) as Hb.
  destruct name as [|c name]; [done|].
  cbn [Str.startswith] in Hb. cbn [lxml.tag_ok].
  rewrite andb_true_r, Ascii.eqb_sym in Hb. by rewrite Hb.
Qed.

Lemma tag_ok_QName ns name :
  Str.contains "}" ns = false ->
  lxml.tag_ok (QName ns name) = Str.truthy ns && lxml.name_ok name.
Proof.
  intros Hclean. unfold QName.
  change ("{" +:+ ns +:+ "}" +:+ name)
    with (String "{" (ns +:+ String "}" name)).
  simpl. by rewrite split_once_app.
Qed.

(** What [Element] returns is a fresh element with a tag lxml accepts. *)
Lemma Element_Ok uri_ok t e :
  lxml.Element uri_ok t = Ok e ->
  e = new_element (tag e) /\ lxml.tag_ok (tag e) = true.
Proof.
  unfold lxml.Element, lxml._getNsTag, lxml._utf8.
  destruct (lxml.text_ok t); [|done]. rewrite bind_Ok.
  destruct t as [|c t]; [done|].
  destruct (Ascii.eqb c "{") eqn:Hc.
  - destruct (Str.split_once "}" t) as [[ns name]|] eqn:Hsplit; [|done].
    destruct (Str.truthy name); [|done]. rewrite bind_Ok. cbv beta iota.
    unfold lxml._tagValidOrRaise.
    destruct (lxml.name_ok name) eqn:Hname; [|done]. rewrite bind_Ok.
    destruct (lxml._uriValidOrRaise uri_ok _); [|done]. rewrite bind_Ok.
    intros [= <-]. split; [done|].
    apply split_once_Some in Hsplit as [_ Hclean].
    destruct (Str.truthy ns) eqn:Hns;
      cbn [tag new_element lxml._namespacedName].
    + by rewrite tag_ok_QName, Hns.
    + by apply tag_ok_name.
  - rewrite bind_Ok. cbv beta iota. unfold lxml._tagValidOrRaise.
    destruct (lxml.name_ok (String c t)) eqn:Hname; [|done]. rewrite bind_Ok.
    cbn [lxml._uriValidOrRaise]. rewrite bind_Ok.
    intros [= <-]. split; [done|]. by apply tag_ok_name.
Qed.

End lxml_facts.

(** ** On names lxml accepts, the engine with the checks is the engine *)

Lemma modify_firstM_pure t (K : element -> result element)
    (k : element -> element) l :
  (forall c, tag c = t -> K c = Ok (k c)) ->
  modify_firstM t K l = Ok (modify_first t k l).
Proof.
  intros HK. induction l as [|c l IH]; simpl; [done|].
  destruct (String.eqb_spec (tag c) t) as [Heq|Hne].
  - by rewrite (HK c Heq).
  - by rewrite IH.
Qed.

Lemma default_ns_truthy root : Str.truthy (default_ns root) = true.
Proof.
  unfold default_ns, or_else. destruct (get_ns root) as [ns|]; [|done].
  by destruct (Str.truthy ns) eqn:E.
Qed.

Lemma plain_ns_inv ns :
  plain_ns ns = true ->
  lxml.text_ok ns = true /\ Str.startswith "{" ns = false /\ ns <> "*".
Proof.
  unfold plain_ns. intros [[H1 H2]%andb_true_iff H3]%andb_true_iff.
  split; [done|]. split; [by apply negb_true_iff|].
  apply negb_true_iff in H3. by apply String.eqb_neq.
Qed.

Section agreement.
Variable uri_ok : string -> bool.
Variable dns : string.
Hypothesis Hplain : plain_ns dns = true.
Hypothesis Hclean : Str.contains "}" dns = false.
Hypothesis Htruthy : Str.truthy dns = true.
Hypothesis Huri : uri_ok dns = true.

Lemma find_or_create_agrees cur name :
  lxml.name_ok name = true ->
  LxmlBuilder.find_or_create uri_ok cur dns name
    = Ok (find_or_create cur (QName dns name)).
Proof.
  intros Hname. unfold LxmlBuilder.find_or_create, find_or_create.
  destruct (find_child _ _); [done|].
  destruct (plain_ns_inv dns Hplain) as (Htext & Hbrace & _).
  rewrite QName_text_Ok by done. rewrite bind_Ok.
  by rewrite Element_QName_Ok.
Qed.

Lemma descend_agrees cur name K k :
  lxml.name_ok name = true ->
  (forall c, tag c = QName dns name -> K c = Ok (k c)) ->
  LxmlBuilder.descend uri_ok cur dns name K
    = Ok (descend cur (QName dns name) k).
Proof.
  intros Hname HK. unfold LxmlBuilder.descend, descend.
  rewrite find_or_create_agrees by done. rewrite bind_Ok.
  by rewrite (modify_firstM_pure _ K k).
Qed.

Lemma child_namespace c name :
  tag c = QName dns name -> or_else (get_ns c) dns = dns.
Proof. intros H. by rewrite (get_ns_QName c dns name), or_else_same. Qed.

Lemma walk_agrees parts value : forall cur,
  or_else (get_ns cur) dns = dns ->
  Forall (fun p => lxml.name_ok p = true) parts ->
  value_ok value = true ->
  LxmlBuilder.walk uri_ok dns parts value cur = Ok (walk dns parts value cur).
Proof.
  induction parts as [|part rest IH]; intros cur Hcur Hparts Hv.
  - simpl. destruct value as [v|]; [by apply set_text_Ok|done].
  - inv Hparts. cbn [LxmlBuilder.walk walk].
    rewrite name_ok_element_segment by done. rewrite Hcur.
    apply descend_agrees; [done|]. intros c Hc.
    apply IH; [by eapply child_namespace|done..].
Qed.

Lemma walk_agrees_attribute pre elem_tag attr_name rest value : forall cur,
  or_else (get_ns cur) dns = dns ->
  Forall (fun p => lxml.name_ok p = true) pre ->
  elem_tag = "" \/ lxml.name_ok elem_tag = true ->
  lxml.name_ok attr_name = true ->
  value_ok value = true ->
  LxmlBuilder.walk uri_ok dns (pre ++ (elem_tag +:+ "@" +:+ attr_name) :: rest)
    value cur
  = Ok (walk dns (pre ++ (elem_tag +:+ "@" +:+ attr_name) :: rest) value cur).
Proof.
  intros cur Hcur Hpre Helem Hattr Hv. revert cur Hcur.
  induction Hpre as [|part pre Hpart Hpre IH]; intros cur Hcur.
  - cbn [app LxmlBuilder.walk walk].
    change ("@" +:+ attr_name) with (String "@" attr_name).
    rewrite split_once_app
      by (destruct Helem as [->|H]; [done|by apply name_ok_contains]).
    destruct Helem as [->|Helem].
    + cbn [Str.truthy]. destruct value; [by apply set_Ok|done].
    + rewrite (name_ok_truthy _ Helem). rewrite Hcur.
      apply descend_agrees; [done|]. intros c _.
      destruct value; [by apply set_Ok|done].
  - rewrite <- !app_comm_cons. cbn [LxmlBuilder.walk walk].
    rewrite name_ok_element_segment by done. rewrite Hcur.
    apply descend_agrees; [done|]. intros c Hc.
    apply IH. by eapply child_namespace.
Qed.

End agreement.

Lemma ensure_path_agrees uri_ok root path value :
  plain_ns (default_ns root) = true ->
  uri_ok (default_ns root) = true ->
  Forall (fun p => lxml.name_ok p = true) (path_parts path) ->
  value_ok value = true ->
  LxmlBuilder._ensure_path uri_ok root path value
    = Ok (_ensure_path root path value).
Proof.
  intros Hns Huri Hparts Hv. unfold LxmlBuilder._ensure_path, _ensure_path.
  apply walk_agrees; try done.
  - apply default_ns_clean.
  - apply default_ns_truthy.
  - apply or_else_default_ns.
Qed.

Lemma ensure_path_agrees_attribute uri_ok root path pre elem_tag attr_name
    rest value :
  path_parts path = pre ++ (elem_tag +:+ "@" +:+ attr_name) :: rest ->
  plain_ns (default_ns root) = true ->
  uri_ok (default_ns root) = true ->
  Forall (fun p => lxml.name_ok p = true) pre ->
  elem_tag = "" \/ lxml.name_ok elem_tag = true ->
  lxml.name_ok attr_name = true ->
  value_ok value = true ->
  LxmlBuilder._ensure_path uri_ok root path value
    = Ok (_ensure_path root path value).
Proof.
  intros Hpath Hns Huri Hpre Helem Hattr Hv.
  unfold LxmlBuilder._ensure_path, _ensure_path. rewrite Hpath.
  apply walk_agrees_attribute; try done.
  - apply default_ns_clean.
  - apply default_ns_truthy.
  - apply or_else_default_ns.
Qed.

Lemma ensure_fields_agrees uri_ok fields : forall tx,
  plain_ns (default_ns tx) = true ->
  uri_ok (default_ns tx) = true ->
  Forall (fun f : string * string =>
            Forall (fun p => lxml.name_ok p = true) (path_parts f.1)
            /\ lxml.text_ok f.2 = true) fields ->
  LxmlBuilder.ensure_fields uri_ok tx fields = Ok (ensure_fields tx fields).
Proof.
  induction fields as [|[path v] fields IH]; intros tx Hns Huri Hfields;
    [done|].
  apply Forall_cons in Hfields as [[Hpath Hv] Hfields]. simpl in Hpath, Hv.
  unfold LxmlBuilder.ensure_fields. cbn [foldlM].
  rewrite ensure_path_agrees by done. rewrite bind_Ok.
  rewrite ensure_fields_cons. apply IH; [| |done];
    by rewrite default_ns_ensure_path.
Qed.

Lemma names_element_only parts :
  Forall (fun p => lxml.name_ok p = true) parts -> element_only parts.
Proof.
  intros H. eapply Forall_impl; [exact H|].
  intros p Hp. by apply name_ok_contains.
Qed.

Lemma QName_not_wildcard ns name :
  Str.contains "}" ns = false -> Str.truthy ns = true -> ns <> "*" ->
  Str.startswith "{*}" (QName ns name) = false.
Proof.
  intros Hclean Hne Hstar. unfold QName.
  destruct ns as [|c [|c' ns]]; [done| |].
  - change ("{" +:+ String c "" +:+ "}" +:+ name)
      with (String "{" (String c (String "}" name))).
    cbn [Str.startswith]. rewrite !Ascii.eqb_refl.
    destruct (Ascii.eqb_spec "*"%char c) as [<-|]; [done|done].
  - change ("{" +:+ String c (String c' ns) +:+ "}" +:+ name)
      with (String "{" (String c (String c' (ns +:+ String "}" name)))).
    cbn [Str.startswith]. cbn [Str.contains] in Hclean.
    apply orb_false_iff in Hclean as [_ [Hc' _]%orb_false_iff].
    rewrite (Ascii.eqb_sym "}" c'), Hc'.
    by rewrite andb_false_l, !andb_false_r.
Qed.

Lemma names_exact ns parts :
  Str.contains "}" ns = false -> Str.truthy ns = true -> ns <> "*" ->
  Forall (fun p => lxml.name_ok p = true) parts ->
  Forall (fun t => exact_tag t = true) (QName ns <$> parts).
Proof.
  intros Hclean Hne Hstar Hparts. apply Forall_fmap.
  eapply Forall_impl; [exact Hparts|]. intros p Hp. simpl.
  unfold exact_tag. rewrite tag_ok_QName, Hne, Hp by done.
  by rewrite QName_not_wildcard.
Qed.

(** ** Attribute segments *)

Lemma walk_chain_agrees uri_ok root chain :
  plain_ns (default_ns root) = true ->
  uri_ok (default_ns root) = true ->
  Forall (fun p => lxml.name_ok p = true) chain ->
  LxmlBuilder.walk uri_ok (default_ns root) chain None root
    = Ok (walk (default_ns root) chain None root).
Proof.
  intros Hns Huri Hchain. apply walk_agrees; try done.
  - apply default_ns_clean.
  - apply default_ns_truthy.
  - apply or_else_default_ns.
Qed.

Lemma names_attr_chain pre elem_tag :
  Forall (fun p => lxml.name_ok p = true) pre ->
  elem_tag = "" \/ lxml.name_ok elem_tag = true ->
  Forall (fun p => lxml.name_ok p = true) (attr_chain pre elem_tag)
  /\ Str.contains "@" elem_tag = false.
Proof.
  intros Hpre [->|Helem]; [done|]. split; [|by apply name_ok_contains].
  unfold attr_chain. rewrite (name_ok_truthy _ Helem).
  apply Forall_app. split; [done|by constructor].
Qed.

(** C5, the claim as stated fails: lxml refuses the attribute name
    [xsi:type], so the call raises once the element is there and sets no
    attribute; it refuses a value with a control character as well. *)
Lemma attribute_name_refused :
  path_parts "Amt@xsi:type" = [] ++ ["Amt" +:+ "@" +:+ "xsi:type"]
  /\ LxmlBuilder._ensure_path ex_uri_ok ex_tx "Amt@xsi:type" (Some "x")
     = Raise (lxml.invalid_attribute_name "xsi:type")
  /\ LxmlBuilder._ensure_path ex_uri_ok ex_tx "Amt@Ccy" (Some ex_bell)
     = Raise lxml.invalid_string.
Proof. repeat split; by vm_compute. Qed.

(** C5, as amended.  For a path ending in [elem_tag@attr_name] whose
    element names and attribute name are names lxml accepts, and a value
    it accepts, the call succeeds; its result is the tree the element
    chain alone leaves, found or created with no value, in which the node
    the chain ends at has been given the attribute: that node carries the
    attribute with the value, and the text it had before the call (none
    when it is new). *)
Theorem attribute_terminal_sets_attribute_only (uri_ok : string -> bool)
    (root : element) (path : string) (pre : list string)
    (elem_tag attr_name v : string) :
  path_parts path = pre ++ [elem_tag +:+ "@" +:+ attr_name] ->
  Forall (fun p => lxml.name_ok p = true) pre ->
  lxml.name_ok elem_tag = true ->
  lxml.name_ok attr_name = true ->
  lxml.text_ok v = true ->
  plain_ns (default_ns root) = true ->
  uri_ok (default_ns root) = true ->
  let dns := default_ns root in
  let chain := pre ++ [elem_tag] in
  exists skeleton res e,
    LxmlBuilder.walk uri_ok dns chain None root = Ok skeleton
    /\ LxmlBuilder._ensure_path uri_ok root path (Some v) = Ok res
    /\ update_on_path dns chain (set_attr attr_name v) skeleton = Some res
    /\ node_on_path dns chain res = Some e
    /\ dict_get attr_name (attrib e) = Some v
    /\ text e = node_on_path dns chain root ≫= text.
Proof.
  intros Hpath Hpre Helem Hattr Hv Hns Huri dns chain.
  destruct (names_attr_chain pre elem_tag Hpre (or_intror Helem))
    as [Hchain Hat].
  destruct (walk_attribute_terminal dns pre elem_tag attr_name
              (names_element_only _ Hpre) Hat [] (Some v) root)
    as (Hupd & e0 & Hnode & Htext).
  unfold attr_chain in *. rewrite (name_ok_truthy _ Helem) in *.
  exists (walk dns chain None root), (_ensure_path root path (Some v)),
    (set_attr attr_name v e0).
  split; [by apply walk_chain_agrees|].
  split; [by eapply ensure_path_agrees_attribute; eauto|].
  unfold _ensure_path. rewrite Hpath.
  split; [done|]. split; [done|]. split; [apply dict_get_set|done].
Qed.

Lemma attribute_terminal_sets_attribute_only_witness :
  let root := ex_tx in
  let dns := default_ns root in
  let chain := ["Pric"; "Pric"; "MntryVal"] ++ ["Amt"] in
  exists skeleton res e,
    LxmlBuilder.walk ex_uri_ok dns chain None root = Ok skeleton
    /\ LxmlBuilder._ensure_path ex_uri_ok root "Pric/Pric/MntryVal/Amt@Ccy"
         (Some "EUR") = Ok res
    /\ update_on_path dns chain (set_attr "Ccy" "EUR") skeleton = Some res
    /\ node_on_path dns chain res = Some e
    /\ dict_get "Ccy" (attrib e) = Some "EUR"
    /\ text e = node_on_path dns chain root ≫= text.
Proof.
  apply (attribute_terminal_sets_attribute_only ex_uri_ok ex_tx
           "Pric/Pric/MntryVal/Amt@Ccy" ["Pric"; "Pric"; "MntryVal"]
           "Amt" "Ccy" "EUR").
  - reflexivity.
  - repeat constructor.
  - reflexivity.
  - reflexivity.
  - reflexivity.
  - reflexivity.
  - reflexivity.
Defined.

Example amt_ccy_eur_checked :
  LxmlBuilder._ensure_path ex_uri_ok ex_tx "Amt@Ccy" (Some "EUR")
  = Ok (append_child ex_tx
          (set_attr "Ccy" "EUR" (new_element (QName NS_AUTH "Amt")))).
Proof. by vm_compute. Qed.

(** C9, the claim as stated fails: with an attribute name lxml refuses
    the call does raise, whatever follows the segment, and so it does
    with a value that holds a control character. *)
Lemma attribute_segment_name_refused :
  path_parts "Amt@xsi:type/Extra"
    = [] ++ ("Amt" +:+ "@" +:+ "xsi:type") :: ["Extra"]
  /\ LxmlBuilder._ensure_path ex_uri_ok ex_tx "Amt@xsi:type/Extra" (Some "x")
     = Raise (lxml.invalid_attribute_name "xsi:type")
  /\ LxmlBuilder._ensure_path ex_uri_ok ex_tx "Amt@Ccy/Extra" (Some ex_bell)
     = Raise lxml.invalid_string.
Proof. repeat split; by vm_compute. Qed.

(** C9, as amended.  A segment with the attribute marker ends the call
    wherever it stands, when the names up to it are names lxml accepts
    and the value is one it accepts: the call raises nothing, whatever
    the segments after it are; its result is that of the path cut after
    the segment, and it is the tree the element chain alone leaves in
    which the node the chain ends at has been given the attribute, so
    nothing is created for the segments that follow; that node carries
    the attribute with the value and the text it had before the call. *)
Theorem attribute_segment_ends_path (uri_ok : string -> bool)
    (root : element) (path : string) (pre : list string)
    (elem_tag attr_name : string) (rest : list string)
    (value : option string) :
  path_parts path = pre ++ (elem_tag +:+ "@" +:+ attr_name) :: rest ->
  Forall (fun p => lxml.name_ok p = true) pre ->
  elem_tag = "" \/ lxml.name_ok elem_tag = true ->
  lxml.name_ok attr_name = true ->
  value_ok value = true ->
  plain_ns (default_ns root) = true ->
  uri_ok (default_ns root) = true ->
  let dns := default_ns root in
  let chain := attr_chain pre elem_tag in
  exists skeleton res e,
    LxmlBuilder.walk uri_ok dns chain None root = Ok skeleton
    /\ LxmlBuilder._ensure_path uri_ok root path value = Ok res
    /\ LxmlBuilder.walk uri_ok dns (pre ++ [elem_tag +:+ "@" +:+ attr_name])
         value root = Ok res
    /\ update_on_path dns chain (set_attr_opt attr_name value) skeleton
       = Some res
    /\ node_on_path dns chain res = Some e
    /\ (forall v, value = Some v -> dict_get attr_name (attrib e) = Some v)
    /\ text e = node_on_path dns chain root ≫= text.
Proof.
  intros Hpath Hpre Helem Hattr Hv Hns Huri dns chain.
  destruct (names_attr_chain pre elem_tag Hpre Helem) as [Hchain Hat].
  pose proof (names_element_only _ Hpre) as Hpre'.
  destruct (walk_attribute_terminal dns pre elem_tag attr_name Hpre' Hat
              rest value root) as (Hupd & e0 & Hnode & Htext).
  cbv zeta in Hupd, Hnode. fold chain in Hupd, Hnode, Htext.
  exists (walk dns chain None root), (_ensure_path root path value),
    (set_attr_opt attr_name value e0).
  split; [by apply walk_chain_agrees|].
  split; [by eapply ensure_path_agrees_attribute; eauto|].
  unfold _ensure_path. rewrite Hpath. fold dns.
  split.
  { rewrite walk_agrees_attribute; try done.
    - by rewrite !walk_attribute.
    - apply default_ns_clean.
    - apply default_ns_truthy.
    - apply or_else_default_ns. }
  split; [done|]. split; [done|]. split; [|by destruct value].
  intros v ->. apply dict_get_set.
Qed.

Lemma attribute_segment_ends_path_witness :
  let root := ex_tx in
  let dns := default_ns root in
  let chain := attr_chain ["Pric"] "Amt" in
  exists skeleton res e,
    LxmlBuilder.walk ex_uri_ok dns chain None root = Ok skeleton
    /\ LxmlBuilder._ensure_path ex_uri_ok root "Pric/Amt@Ccy/Extra/Deep"
         (Some "EUR") = Ok res
    /\ LxmlBuilder.walk ex_uri_ok dns (["Pric"] ++ ["Amt" +:+ "@" +:+ "Ccy"])
         (Some "EUR") root = Ok res
    /\ update_on_path dns chain (set_attr_opt "Ccy" (Some "EUR")) skeleton
       = Some res
    /\ node_on_path dns chain res = Some e
    /\ (forall v, Some "EUR" = Some v -> dict_get "Ccy" (attrib e) = Some v)
    /\ text e = node_on_path dns chain root ≫= text.
Proof.
  apply (attribute_segment_ends_path ex_uri_ok ex_tx
           "Pric/Amt@Ccy/Extra/Deep"
           ["Pric"] "Amt" "Ccy" ["Extra"; "Deep"] (Some "EUR")).
  - reflexivity.
  - repeat constructor.
  - by right.
  - reflexivity.
  - reflexivity.
  - reflexivity.
  - reflexivity.
Defined.

Example attribute_segment_cuts_path :
  LxmlBuilder._ensure_path ex_uri_ok ex_tx "Amt@Ccy/Extra/Deep" (Some "EUR")
  = LxmlBuilder._ensure_path ex_uri_ok ex_tx "Amt@Ccy" (Some "EUR").
Proof. by vm_compute. Qed.

(** ** What a call leaves, on names lxml accepts *)

(** X13.  What [_ensure_path] writes can be read back, and every element of
    the path is in the namespace of the element the call is made on (in
    auth.016 when that element has none): a call with a path of names
    lxml accepts and a value it accepts succeeds, and following the path
    from the root afterwards, each name taken in that namespace, leads to
    a node whose text is the value. *)
Theorem ensure_path_read_back (uri_ok : string -> bool) (root : element)
    (path v : string) :
  Forall (fun p => lxml.name_ok p = true) (path_parts path) ->
  lxml.text_ok v = true ->
  plain_ns (default_ns root) = true ->
  uri_ok (default_ns root) = true ->
  exists r e,
    LxmlBuilder._ensure_path uri_ok root path (Some v) = Ok r
    /\ find_path (QName (default_ns root) <$> path_parts path) r = Some e
    /\ text e = Some v.
Proof.
  intros Hpath Hv Hns Huri.
  destruct (ensure_path_reads_back root path v (names_element_only _ Hpath))
    as (e & He & Ht).
  exists (_ensure_path root path (Some v)), e.
  split; [by apply ensure_path_agrees|done].
Qed.

Lemma ensure_path_read_back_witness :
  exists r e,
    LxmlBuilder._ensure_path ex_uri_ok ex_tx "Pric/Pric/MntryVal/Amt"
      (Some "101.5") = Ok r
    /\ find_path
         (QName (default_ns ex_tx) <$> path_parts "Pric/Pric/MntryVal/Amt")
         r = Some e
    /\ text e = Some "101.5".
Proof.
  apply (ensure_path_read_back ex_uri_ok ex_tx "Pric/Pric/MntryVal/Amt"
           "101.5").
  - repeat constructor.
  - reflexivity.
  - reflexivity.
  - reflexivity.
Defined.

(** X14.  A call with a path of names lxml accepts changes the text of one
    node at most and removes nothing.  Every node that could be reached
    from the root before the call, by tags that [find] takes literally,
    is reached by the same tags after it, with the tag and the
    attributes it had and with the children it had in the order they
    were in, a new one possibly among them; its text is what it was
    unless the node is the one the path ends at. *)
Theorem ensure_path_leaves_other_nodes (uri_ok : string -> bool)
    (root : element) (path : string) (value : option string)
    (tags : list string) (n : element) :
  Forall (fun p => lxml.name_ok p = true) (path_parts path) ->
  value_ok value = true ->
  plain_ns (default_ns root) = true ->
  uri_ok (default_ns root) = true ->
  Forall (fun t => exact_tag t = true) tags ->
  find_path tags root = Some n ->
  exists r n',
    LxmlBuilder._ensure_path uri_ok root path value = Ok r
    /\ find_path tags r = Some n'
    /\ tag n' = tag n
    /\ attrib n' = attrib n
    /\ child_tags n `sublist_of` child_tags n'
    /\ (tags <> QName (default_ns root) <$> path_parts path ->
        text n' = text n).
Proof.
  intros Hpath Hv Hns Huri _ Hn.
  destruct (ensure_path_frame root path value tags n
              (names_element_only _ Hpath) Hn) as (n' & Hn').
  exists (_ensure_path root path value), n'.
  split; [by apply ensure_path_agrees|done].
Qed.

Lemma ensure_path_leaves_other_nodes_witness :
  exists r n',
    LxmlBuilder._ensure_path ex_uri_ok
      (append_child ex_tx (set_text "7" (new_element (QName NS_AUTH "Qty"))))
      "Pric/Amt" (Some "1") = Ok r
    /\ find_path [QName NS_AUTH "Qty"] r = Some n'
    /\ tag n' = tag (set_text "7" (new_element (QName NS_AUTH "Qty")))
    /\ attrib n' = attrib (set_text "7" (new_element (QName NS_AUTH "Qty")))
    /\ child_tags (set_text "7" (new_element (QName NS_AUTH "Qty")))
         `sublist_of` child_tags n'
    /\ ([QName NS_AUTH "Qty"]
          <> QName (default_ns
                      (append_child ex_tx
                         (set_text "7" (new_element (QName NS_AUTH "Qty")))))
               <$> path_parts "Pric/Amt" ->
        text n' = text (set_text "7" (new_element (QName NS_AUTH "Qty")))).
Proof.
  apply (ensure_path_leaves_other_nodes ex_uri_ok
           (append_child ex_tx
              (set_text "7" (new_element (QName NS_AUTH "Qty"))))
           "Pric/Amt" (Some "1") [QName NS_AUTH "Qty"]
           (set_text "7" (new_element (QName NS_AUTH "Qty")))).
  - repeat constructor.
  - reflexivity.
  - reflexivity.
  - reflexivity.
  - repeat constructor.
  - reflexivity.
Defined.

(** X15.  A call whose path has an attribute segment changes no text, when
    the names up to that segment are names lxml accepts.  Every node
    that could be reached before the call, by tags that [find] takes
    literally, is reached by the same tags after it, with the tag and
    the text it had; its attributes are what they were unless the node
    is the element of the attribute segment. *)
Theorem attribute_path_leaves_text (uri_ok : string -> bool)
    (root : element) (path : string) (pre : list string)
    (elem_tag attr_name : string) (rest : list string)
    (value : option string) (tags : list string) (n : element) :
  path_parts path = pre ++ (elem_tag +:+ "@" +:+ attr_name) :: rest ->
  Forall (fun p => lxml.name_ok p = true) pre ->
  elem_tag = "" \/ lxml.name_ok elem_tag = true ->
  lxml.name_ok attr_name = true ->
  value_ok value = true ->
  plain_ns (default_ns root) = true ->
  uri_ok (default_ns root) = true ->
  Forall (fun t => exact_tag t = true) tags ->
  find_path tags root = Some n ->
  exists r n',
    LxmlBuilder._ensure_path uri_ok root path value = Ok r
    /\ find_path tags r = Some n'
    /\ tag n' = tag n
    /\ text n' = text n
    /\ (tags <> QName (default_ns root) <$> attr_chain pre elem_tag ->
        attrib n' = attrib n).
Proof.
  intros Hpath Hpre Helem Hattr Hv Hns Huri _ Hn.
  destruct (names_attr_chain pre elem_tag Hpre Helem) as [_ Hat].
  destruct (attribute_path_frame root path pre elem_tag attr_name rest value
              tags n Hpath (names_element_only _ Hpre) Hat Hn) as (n' & Hn').
  exists (_ensure_path root path value), n'.
  split; [by eapply ensure_path_agrees_attribute; eauto|done].
Qed.

Lemma attribute_path_leaves_text_witness :
  exists r n',
    LxmlBuilder._ensure_path ex_uri_ok
      (append_child ex_tx
         (set_text "101.5" (new_element (QName NS_AUTH "Pric"))))
      "Pric@Ccy" (Some "EUR") = Ok r
    /\ find_path [QName NS_AUTH "Pric"] r = Some n'
    /\ tag n' = tag (set_text "101.5" (new_element (QName NS_AUTH "Pric")))
    /\ text n' = text (set_text "101.5" (new_element (QName NS_AUTH "Pric")))
    /\ ([QName NS_AUTH "Pric"]
          <> QName (default_ns
                      (append_child ex_tx
                         (set_text "101.5"
                            (new_element (QName NS_AUTH "Pric")))))
               <$> attr_chain [] "Pric" ->
        attrib n'
          = attrib (set_text "101.5" (new_element (QName NS_AUTH "Pric")))).
Proof.
  apply (attribute_path_leaves_text ex_uri_ok
           (append_child ex_tx
              (set_text "101.5" (new_element (QName NS_AUTH "Pric"))))
           "Pric@Ccy" [] "Pric" "Ccy" [] (Some "EUR")
           [QName NS_AUTH "Pric"]
           (set_text "101.5" (new_element (QName NS_AUTH "Pric")))).
  - reflexivity.
  - constructor.
  - by right.
  - reflexivity.
  - reflexivity.
  - reflexivity.
  - reflexivity.
  - repeat constructor.
  - reflexivity.
Defined.

(** X16.  Among the fields of one record the last write to a path wins, and
    writes to other paths do not disturb it.  When the paths of the
    fields are made of names lxml accepts and their values are values it
    accepts, applying the fields succeeds, and the text read back at a
    path is the value of the last field that addresses it, whatever the
    other fields are, before or after. *)
Theorem ensure_fields_last_value_wins (uri_ok : string -> bool)
    (tx : element) (before after : list (string * string))
    (path v : string) :
  plain_ns (default_ns tx) = true ->
  uri_ok (default_ns tx) = true ->
  Forall (fun f : string * string =>
            Forall (fun p => lxml.name_ok p = true) (path_parts f.1)
            /\ lxml.text_ok f.2 = true)
    (before ++ (path, v) :: after) ->
  Forall (fun f : string * string => path_parts f.1 <> path_parts path) after ->
  exists r e,
    LxmlBuilder.ensure_fields uri_ok tx (before ++ (path, v) :: after) = Ok r
    /\ find_path (QName (default_ns tx) <$> path_parts path) r = Some e
    /\ text e = Some v.
Proof.
  intros Hns Huri Hfields Hafter.
  destruct (ensure_fields_last_wins tx before after path v) as (e & He);
    [|done|].
  { eapply Forall_impl; [exact Hfields|]. intros f [Hf _].
    by apply names_element_only. }
  exists (ensure_fields tx (before ++ (path, v) :: after)), e.
  split; [by apply ensure_fields_agrees|done].
Qed.

Lemma ensure_fields_last_value_wins_witness :
  exists r e,
    LxmlBuilder.ensure_fields ex_uri_ok ex_tx
      ([("Qty", "1"); ("Pric", "9")] ++ ("Qty", "7") :: [("TradDt", "d")])
      = Ok r
    /\ find_path (QName (default_ns ex_tx) <$> path_parts "Qty") r = Some e
    /\ text e = Some "7".
Proof.
  apply (ensure_fields_last_value_wins ex_uri_ok ex_tx
           [("Qty", "1"); ("Pric", "9")] [("TradDt", "d")] "Qty" "7").
  - reflexivity.
  - reflexivity.
  - repeat constructor.
  - repeat constructor. by vm_compute.
Defined.

(** ** The skeleton and the namespace map *)

(** X6.  [build_root] of the enhanced builder succeeds only when each of
    the prefixes head003, head001, msg and xsi is mapped to a non-empty
    URI. *)
Theorem build_root_needs_four_namespaces (cfg : GeneratorConfig) (w : world)
    (root : element) (container : list nat) :
  build_root cfg w = Ok (root, container) ->
  Forall (fun p => exists uri, namespaces cfg !! p = Some uri /\ uri <> "")
    needed_prefixes.
Proof.
  intros Hroot.
  assert (is_ok (build_root cfg w) = true) as Hok by by rewrite Hroot.
  apply build_root_Ok_uris in Hok.
  eapply Forall_impl; [exact Hok|]. intros p Hp. by apply uri_is_ok.
Qed.

Lemma build_root_needs_four_namespaces_witness :
  Forall (fun p => exists uri,
            namespaces ex_iso_cfg !! p = Some uri /\ uri <> "")
    needed_prefixes.
Proof.
  apply (build_root_needs_four_namespaces ex_iso_cfg ex_world
           ex_skeleton [1; 0; 0]).
  by vm_compute.
Defined.

(** ** The baseline path engine on tags taken literally *)

Section baseline_exact.
Variable cfg : GeneratorConfig.

Lemma resolved_is_ok parts tags :
  Forall2 (fun p t => XmlBuilder._qname cfg p = Ok t) parts tags ->
  Forall (fun p => is_ok (XmlBuilder._qname cfg p) = true) parts.
Proof.
  induction 1 as [|p t parts tags Hp _ IH]; constructor; [|done].
  by rewrite Hp.
Qed.

Lemma resolved_functional parts tags tags' :
  Forall2 (fun p t => XmlBuilder._qname cfg p = Ok t) parts tags ->
  Forall2 (fun p t => XmlBuilder._qname cfg p = Ok t) parts tags' ->
  tags = tags'.
Proof.
  intros H. revert tags'.
  induction H as [|p t parts tags Hp _ IH]; intros tags' H'; inv H'; [done|].
  f_equal; [congruence|by apply IH].
Qed.

Lemma modify_firstM_at t (K : element -> result element) l c c' :
  find_child t l = Some c -> K c = Ok c' ->
  modify_firstM t K l = Ok (modify_first t (fun _ => c') l).
Proof.
  induction l as [|c0 l IH]; simpl; [done|].
  destruct (String.eqb (tag c0) t).
  - by intros [= ->] ->.
  - intros Hc HK. by rewrite (IH Hc HK).
Qed.

(** Along a chain that is there already, a call is the update of the
    text of the node the chain ends at. *)
Lemma baseline_walk_existing parts tags v :
  Forall2 (fun p t => XmlBuilder._qname cfg p = Ok t) parts tags ->
  parts <> [] ->
  forall cur e,
    find_path tags cur = Some e ->
    exists r,
      XmlBuilder.walk cfg parts v cur = Ok r
      /\ update_tags tags (set_text v) cur = Some r.
Proof.
  induction 1 as [|p t parts tags Hp Hrest IH]; intros Hne cur e; [done|].
  cbn [find_path XmlBuilder.walk update_tags]. rewrite Hp, bind_Ok.
  destruct (find_child t (child_nodes cur)) as [c|] eqn:Hc; [|done].
  simpl. intros He.
  destruct parts as [|p' parts].
  - inv Hrest. exists (with_children cur
                         (modify_first t (fun _ => set_text v c)
                            (child_nodes cur))).
    split; [|done].
    by erewrite modify_firstM_at.
  - destruct (IH ltac:(done) c e He) as (r' & Hr' & Hupd).
    rewrite Hupd. simpl.
    exists (with_children cur
              (modify_first t (fun _ => r') (child_nodes cur))).
    split; [|done].
    by erewrite modify_firstM_at.
Qed.

Lemma baseline_calls parts tags w1 v2 base :
  Forall2 (fun p t => XmlBuilder._qname cfg p = Ok t) parts tags ->
  parts <> [] ->
  exists b1 b2 e,
    XmlBuilder.walk cfg parts w1 base = Ok b1
    /\ XmlBuilder.walk cfg parts v2 b1 = Ok b2
    /\ XmlBuilder.walk cfg parts v2 base = Ok b2
    /\ update_tags tags (set_text v2) b1 = Some b2
    /\ find_path tags b2 = Some e
    /\ text e = Some v2.
Proof.
  intros Htags Hne.
  destruct (walk_resolved_Ok cfg parts w1 base (resolved_is_ok _ _ Htags))
    as [b1 Hb1].
  destruct (baseline_walk_read_back cfg parts w1 base b1 Hne Hb1)
    as (tags1 & e1 & Htags1 & He1 & _).
  rewrite <- (resolved_functional _ _ _ Htags Htags1) in He1.
  destruct (baseline_walk_existing parts tags v2 Htags Hne b1 e1 He1)
    as (b2 & Hb2 & Hupd).
  destruct (baseline_walk_read_back cfg parts v2 b1 b2 Hne Hb2)
    as (tags2 & e2 & Htags2 & He2 & Hv2).
  rewrite <- (resolved_functional _ _ _ Htags Htags2) in He2.
  exists b1, b2, e2. split; [done|]. split; [done|].
  split; [by rewrite <- (walk_overwrite_baseline cfg parts w1 v2 base b1 Hb1)|].
  done.
Qed.

End baseline_exact.

(** X22.  What the baseline [_ensure_path] writes can be read back: when
    every segment of the path resolves to a tag that [find] takes
    literally, the call succeeds, and following these tags from the
    base element afterwards leads to a node whose text is the value. *)
Theorem baseline_ensure_path_read_back (cfg : GeneratorConfig)
    (base : element) (path value : string) (tags : list string) :
  Forall2 (fun p t => XmlBuilder._qname cfg p = Ok t)
    (Str.split "/" path) tags ->
  Forall (fun t => exact_tag t = true) tags ->
  exists r e,
    XmlBuilder._ensure_path cfg base path value = Ok r
    /\ find_path tags r = Some e
    /\ text e = Some value.
Proof.
  intros Htags _. unfold XmlBuilder._ensure_path.
  destruct (baseline_calls cfg (Str.split "/" path) tags value value base Htags)
    as (b1 & b2 & e & _ & _ & Hb2 & _ & He & Ht).
  { by destruct (split_nonempty "/" path) as (h & t & ->). }
  by exists b2, e.
Qed.

Lemma baseline_ensure_path_read_back_witness :
  exists r e,
    XmlBuilder._ensure_path ex_zz_cfg (new_element "Record")
      "rep:Instrument/rep:ISIN" "DE0001" = Ok r
    /\ find_path ["{urn:example:report}Instrument"; "{urn:example:report}ISIN"]
         r = Some e
    /\ text e = Some "DE0001".
Proof.
  apply (baseline_ensure_path_read_back ex_zz_cfg (new_element "Record")
           "rep:Instrument/rep:ISIN" "DE0001"
           ["{urn:example:report}Instrument"; "{urn:example:report}ISIN"]).
  - repeat constructor.
  - repeat constructor.
Defined.

(** ** Calling twice *)

Section tags_of_a_path.
Variable dns : string.
Hypothesis Hdns : Str.contains "}" dns = false.

Lemma update_on_path_tags parts k : forall cur,
  or_else (get_ns cur) dns = dns ->
  update_on_path dns parts k cur = update_tags (QName dns <$> parts) k cur.
Proof.
  induction parts as [|part rest IH]; intros cur Hcur; csimpl; [done|].
  rewrite Hcur.
  destruct (find_child (QName dns part) (child_nodes cur)) as [c|] eqn:Hc;
    simpl; [|done].
  rewrite IH; [done|]. apply find_child_Some_tag in Hc.
  by rewrite (get_ns_QName c dns part), or_else_same.
Qed.

End tags_of_a_path.

(** C3, the claim as stated fails: an element-only path with a name lxml
    refuses makes the first call raise, so that no element is created
    and no text is left; and a value with a control character makes the
    call raise when the text is assigned. *)
Lemma ensure_path_name_refused :
  element_only (path_parts "zz:Foo")
  /\ LxmlBuilder._ensure_path ex_uri_ok ex_tx "zz:Foo" (Some "1")
     = Raise (lxml.invalid_tag_name "zz:Foo")
  /\ LxmlBuilder._ensure_path ex_uri_ok ex_tx "Qty" (Some ex_bell)
     = Raise lxml.invalid_string.
Proof. split; [repeat constructor|split; by vm_compute]. Qed.

(** C3, as amended (ensure-path idempotence).  In the enhanced builder,
    for a path of names lxml accepts and values it accepts, both calls
    succeed; the second one leaves what a single call with the second
    value leaves; it is the update of the text of the node the path ends
    at in the tree the first call left, so it creates nothing; that node,
    reached from the root by the names of the path, carries the second
    value; and no sibling is duplicated.  In the baseline builder the
    same holds when every segment resolves to a tag that [find] takes
    literally. *)
Theorem ensure_path_second_call_reuses (root : element) (path : string) :
  (forall (uri_ok : string -> bool) (v1 : option string) (v2 : string),
     Forall (fun p => lxml.name_ok p = true) (path_parts path) ->
     value_ok v1 = true ->
     lxml.text_ok v2 = true ->
     plain_ns (default_ns root) = true ->
     uri_ok (default_ns root) = true ->
     let tags := QName (default_ns root) <$> path_parts path in
     exists r1 r2 e,
       LxmlBuilder._ensure_path uri_ok root path v1 = Ok r1
       /\ LxmlBuilder._ensure_path uri_ok r1 path (Some v2) = Ok r2
       /\ LxmlBuilder._ensure_path uri_ok root path (Some v2) = Ok r2
       /\ update_tags tags (set_text v2) r1 = Some r2
       /\ find_path tags r2 = Some e
       /\ text e = Some v2
       /\ (unique_tags root = true -> unique_tags r2 = true))
  /\ (forall (cfg : GeneratorConfig) (tags : list string) (v1 v2 : string),
        Forall2 (fun p t => XmlBuilder._qname cfg p = Ok t)
          (Str.split "/" path) tags ->
        Forall (fun t => exact_tag t = true) tags ->
        exists b1 b2 e,
          XmlBuilder._ensure_path cfg root path v1 = Ok b1
          /\ XmlBuilder._ensure_path cfg b1 path v2 = Ok b2
          /\ XmlBuilder._ensure_path cfg root path v2 = Ok b2
          /\ update_tags tags (set_text v2) b1 = Some b2
          /\ find_path tags b2 = Some e
          /\ text e = Some v2).
Proof.
  split.
  - intros uri_ok v1 v2 Hpath Hv1 Hv2 Hns Huri tags.
    destruct (ensure_path_twice root path v1 v2 (names_element_only _ Hpath))
      as (Hsame & Hupd & e & He & Ht).
    set (r1 := _ensure_path root path v1) in *.
    set (r2 := _ensure_path r1 path (Some v2)) in *.
    assert (or_else (get_ns r1) (default_ns root) = default_ns root) as Hr1.
    { unfold r1. rewrite (get_ns_tag _ root) by apply tag_ensure_path.
      apply or_else_default_ns. }
    assert (or_else (get_ns r2) (default_ns root) = default_ns root) as Hr2.
    { unfold r2, r1. rewrite (get_ns_tag _ root)
        by (rewrite !tag_ensure_path; done).
      apply or_else_default_ns. }
    exists r1, r2, e.
    split; [by apply ensure_path_agrees|].
    split.
    { apply ensure_path_agrees; [| |done..];
        unfold r1; by rewrite default_ns_ensure_path. }
    split; [rewrite Hsame; by apply ensure_path_agrees|].
    split.
    { unfold tags. rewrite <- update_on_path_tags;
        [done|apply default_ns_clean|done]. }
    split.
    { unfold tags. rewrite <- node_on_path_find_path;
        [done|apply default_ns_clean|done]. }
    split; [done|].
    intros Hu. unfold r2, r1. by do 2 apply unique_tags_walk.
  - intros cfg tags v1 v2 Htags _. unfold XmlBuilder._ensure_path.
    apply baseline_calls; [done|].
    by destruct (split_nonempty "/" path) as (h & t & ->).
Qed.

Lemma ensure_path_second_call_reuses_witness :
  (let path := "Pric/Pric/MntryVal/Amt" in
   let tags := QName (default_ns ex_tx) <$> path_parts path in
   exists r1 r2 e,
     LxmlBuilder._ensure_path ex_uri_ok ex_tx path (Some "1") = Ok r1
     /\ LxmlBuilder._ensure_path ex_uri_ok r1 path (Some "2") = Ok r2
     /\ LxmlBuilder._ensure_path ex_uri_ok ex_tx path (Some "2") = Ok r2
     /\ update_tags tags (set_text "2") r1 = Some r2
     /\ find_path tags r2 = Some e
     /\ text e = Some "2"
     /\ (unique_tags ex_tx = true -> unique_tags r2 = true))
  /\ (exists b1 b2 e,
        XmlBuilder._ensure_path ex_zz_cfg ex_tx "rep:Pric/Amt" "1" = Ok b1
        /\ XmlBuilder._ensure_path ex_zz_cfg b1 "rep:Pric/Amt" "2" = Ok b2
        /\ XmlBuilder._ensure_path ex_zz_cfg ex_tx "rep:Pric/Amt" "2" = Ok b2
        /\ update_tags ["{urn:example:report}Pric"; "Amt"] (set_text "2") b1
           = Some b2
        /\ find_path ["{urn:example:report}Pric"; "Amt"] b2 = Some e
        /\ text e = Some "2").
Proof.
  split.
  - apply (proj1 (ensure_path_second_call_reuses ex_tx "Pric/Pric/MntryVal/Amt")
             ex_uri_ok (Some "1") "2").
    + repeat constructor.
    + reflexivity.
    + reflexivity.
    + reflexivity.
    + reflexivity.
  - apply (proj2 (ensure_path_second_call_reuses ex_tx "rep:Pric/Amt")
             ex_zz_cfg ["{urn:example:report}Pric"; "Amt"] "1" "2").
    + repeat constructor.
    + repeat constructor.
Defined.

Example second_call_overwrites_checked :
  (r1 ← LxmlBuilder._ensure_path ex_uri_ok ex_tx "Qty" (Some "1");
   LxmlBuilder._ensure_path ex_uri_ok r1 "Qty" (Some "2"))
  = Ok (append_child ex_tx (set_text "2" (new_element (QName NS_AUTH "Qty")))).
Proof. by vm_compute. Qed.

(** ** A name lxml refuses *)

Section valid_trees.
Implicit Types (e c cur : element) (l : list element).

Lemma valid_tree_true e :
  valid_tree e = true <->
  lxml.tag_ok (tag e) = true
  /\ Forall (fun c => valid_tree c = true) (child_nodes e).
Proof.
  destruct e as [t ? ? ? kids]. cbn [valid_tree tag child_nodes].
  by rewrite andb_true_iff, forallb_Forall.
Qed.

Lemma valid_with_children e l :
  lxml.tag_ok (tag e) = true -> Forall (fun c => valid_tree c = true) l ->
  valid_tree (with_children e l) = true.
Proof. intros. by apply valid_tree_true. Qed.

Lemma valid_set_text v e : valid_tree (set_text v e) = valid_tree e.
Proof. by destruct e. Qed.

Lemma valid_set_attr k v e : valid_tree (set_attr k v e) = valid_tree e.
Proof. by destruct e. Qed.

Lemma find_child_valid t l c :
  Forall (fun c => valid_tree c = true) l -> find_child t l = Some c ->
  valid_tree c = true.
Proof.
  induction 1 as [|c0 l Hc0 _ IH]; simpl; [done|].
  destruct (String.eqb (tag c0) t); [by intros [= <-]|done].
Qed.

(** A tree lxml can hold has no child with a tag lxml refuses. *)
Lemma find_child_refused t cur :
  lxml.tag_ok t = false -> valid_tree cur = true ->
  find_child t (child_nodes cur) = None.
Proof.
  intros Ht [_ Hkids]%valid_tree_true.
  destruct (find_child t (child_nodes cur)) as [c|] eqn:Hc; [|done].
  pose proof (find_child_valid _ _ _ Hkids Hc) as [Hv _]%valid_tree_true.
  apply find_child_Some_tag in Hc. congruence.
Qed.

Lemma lxml_set_text_valid v e e' :
  lxml.set_text v e = Ok e' -> valid_tree e = true -> valid_tree e' = true.
Proof.
  unfold lxml.set_text, lxml._utf8. destruct (lxml.text_ok v); [|done].
  intros [= <-]. by rewrite valid_set_text.
Qed.

Lemma lxml_set_valid k v e e' :
  lxml.set k v e = Ok e' -> valid_tree e = true -> valid_tree e' = true.
Proof.
  unfold lxml.set.
  destruct (lxml._getNsTag k) as [[ns name]|]; [|done]. rewrite bind_Ok.
  cbv beta iota.
  destruct (lxml._attributeValidOrRaise name); [|done]. rewrite bind_Ok.
  unfold lxml._utf8. destruct (lxml.text_ok v); [|done].
  intros [= <-]. by rewrite valid_set_attr.
Qed.

Lemma modify_firstM_valid t (K : element -> result element) l l' :
  Forall (fun c => valid_tree c = true) l ->
  (forall c c', valid_tree c = true -> K c = Ok c' -> valid_tree c' = true) ->
  modify_firstM t K l = Ok l' ->
  Forall (fun c => valid_tree c = true) l'.
Proof.
  intros Hl HK. revert l'.
  induction Hl as [|c l Hc Hl IH]; intros l'; simpl; [by intros [= <-]|].
  destruct (String.eqb (tag c) t).
  - destruct (K c) as [c'|] eqn:Hc'; [|done]. intros [= <-].
    constructor; [by eapply HK|done].
  - destruct (modify_firstM t K l) as [l''|]; [|done]. intros [= <-].
    constructor; [done|by apply IH].
Qed.

Lemma QName_text_Ok_inv ns name t :
  Str.contains "}" ns = false ->
  lxml.QName_text ns name = Ok t ->
  lxml.text_ok ns = true /\ Str.truthy ns = true
  /\ lxml.name_ok name = true /\ t = QName ns name.
Proof.
  intros Hclean. unfold lxml.QName_text.
  destruct (lxml._getNsTag ns) as [[o s]|] eqn:Hg; [|done].
  rewrite bind_Ok. cbv beta iota. unfold lxml._utf8 at 1.
  destruct (lxml.text_ok name); [|done]. rewrite bind_Ok.
  unfold lxml._tagValidOrRaise.
  destruct (lxml.name_ok name) eqn:Hname; [|done]. rewrite bind_Ok.
  intros [= <-].
  unfold lxml._getNsTag, lxml._utf8 in Hg.
  destruct (lxml.text_ok ns) eqn:Htext; [|done]. rewrite bind_Ok in Hg.
  destruct ns as [|c ns']; [done|].
  destruct (Ascii.eqb c "{") eqn:Hc.
  - rewrite split_once_None in Hg; [done|].
    cbn [Str.contains] in Hclean. by apply orb_false_iff in Hclean as [_ ?].
  - by injection Hg as <- <-.
Qed.

(** An element the engine creates carries the tag it looked for. *)
Lemma created_element uri_ok ns name t e :
  Str.contains "}" ns = false ->
  lxml.QName_text ns name = Ok t -> lxml.Element uri_ok t = Ok e ->
  e = new_element (QName ns name) /\ lxml.tag_ok (QName ns name) = true.
Proof.
  intros Hclean Ht He.
  apply QName_text_Ok_inv in Ht as (Htext & Htruthy & Hname & ->); [|done].
  split; [|by rewrite tag_ok_QName, Htruthy, Hname].
  unfold lxml.Element in He.
  rewrite getNsTag_QName in He
    by (done || by apply name_ok_text || by apply name_ok_truthy).
  rewrite bind_Ok in He. cbv beta iota in He.
  rewrite tagValid_Ok, bind_Ok in He by done.
  destruct (lxml._uriValidOrRaise uri_ok (Some ns)); [|done].
  by injection He as <-.
Qed.

End valid_trees.

Section checked_walk.
Variable uri_ok : string -> bool.
Implicit Types (e c cur : element).

Lemma find_or_create_valid cur ns name cur' :
  Str.contains "}" ns = false -> valid_tree cur = true ->
  LxmlBuilder.find_or_create uri_ok cur ns name = Ok cur' ->
  valid_tree cur' = true
  /\ exists c, find_child (QName ns name) (child_nodes cur') = Some c.
Proof.
  intros Hns Hcur. unfold LxmlBuilder.find_or_create.
  destruct (find_child _ _) as [c|] eqn:Hc.
  - intros [= <-]. eauto.
  - destruct (lxml.QName_text ns name) as [t|] eqn:Ht; [|done].
    rewrite bind_Ok.
    destruct (lxml.Element uri_ok t) as [e|] eqn:He; [|done]. rewrite bind_Ok.
    intros [= <-].
    destruct (created_element _ _ _ _ _ Hns Ht He) as [-> Hok].
    destruct (insert_child_in_order_split cur (new_element (QName ns name)))
      as (l1 & l2 & Hkids & ->).
    apply valid_tree_true in Hcur as [Htag Hkids'].
    rewrite Hkids in Hkids', Hc.
    apply Forall_app in Hkids' as [H1 H2]. split.
    + apply valid_with_children; [done|]. apply Forall_app. split; [done|].
      constructor; [|done]. by apply valid_tree_true.
    + cbn [child_nodes with_children]. rewrite find_child_app.
      rewrite find_child_app in Hc.
      destruct (find_child _ l1); [done|]. simpl.
      rewrite String.eqb_refl. eauto.
Qed.

Lemma find_or_create_tag cur ns name cur' :
  LxmlBuilder.find_or_create uri_ok cur ns name = Ok cur' -> tag cur' = tag cur.
Proof.
  unfold LxmlBuilder.find_or_create. destruct (find_child _ _).
  - by intros [= <-].
  - destruct (lxml.QName_text ns name) as [t|]; [|done]. rewrite bind_Ok.
    destruct (lxml.Element uri_ok t) as [e|]; [|done]. rewrite bind_Ok.
    intros [= <-]. apply tag_insert_child_in_order.
Qed.

Lemma descend_valid cur ns name K r :
  Str.contains "}" ns = false -> valid_tree cur = true ->
  (forall c c', valid_tree c = true -> K c = Ok c' -> valid_tree c' = true) ->
  LxmlBuilder.descend uri_ok cur ns name K = Ok r -> valid_tree r = true.
Proof.
  intros Hns Hcur HK. unfold LxmlBuilder.descend.
  destruct (LxmlBuilder.find_or_create uri_ok cur ns name) as [cur'|] eqn:Hf;
    [|done].
  rewrite bind_Ok.
  destruct (modify_firstM _ _ _) as [kids|] eqn:Hk; [|done]. rewrite bind_Ok.
  intros [= <-].
  destruct (find_or_create_valid _ _ _ _ Hns Hcur Hf) as [Hv _].
  apply valid_tree_true in Hv as [Ht Hkids].
  apply valid_with_children; [done|]. by eapply modify_firstM_valid.
Qed.

(** A step whose continuation raises on every tree lxml can hold
    raises, in the creation of the child or in the continuation. *)
Lemma descend_raise cur ns name K :
  Str.contains "}" ns = false -> valid_tree cur = true ->
  (forall c, valid_tree c = true -> exists err, K c = Raise err) ->
  exists err, LxmlBuilder.descend uri_ok cur ns name K = Raise err.
Proof.
  intros Hns Hcur HK. unfold LxmlBuilder.descend.
  destruct (LxmlBuilder.find_or_create uri_ok cur ns name) as [cur'|err] eqn:Hf;
    [|by exists err].
  rewrite bind_Ok.
  destruct (find_or_create_valid _ _ _ _ Hns Hcur Hf) as (Hv & c & Hc).
  apply valid_tree_true in Hv as [_ Hkids].
  destruct (HK c (find_child_valid _ _ _ Hkids Hc)) as [err Herr].
  exists err. by erewrite modify_firstM_raise.
Qed.

Variable dns : string.
Hypothesis Hdns : Str.contains "}" dns = false.

Lemma or_else_clean cur : Str.contains "}" (or_else (get_ns cur) dns) = false.
Proof.
  unfold or_else. destruct (get_ns cur) as [ns|] eqn:H; [|done].
  destruct (Str.truthy ns); [by eapply get_ns_clean|done].
Qed.

Lemma or_else_truthy cur :
  Str.truthy dns = true -> Str.truthy (or_else (get_ns cur) dns) = true.
Proof.
  intros Hne. unfold or_else. destruct (get_ns cur) as [ns|]; [|done].
  by destruct (Str.truthy ns) eqn:E.
Qed.

(** The engine makes of a tree lxml can hold a tree lxml can hold. *)
Lemma walk_valid parts value : forall cur r,
  valid_tree cur = true ->
  LxmlBuilder.walk uri_ok dns parts value cur = Ok r -> valid_tree r = true.
Proof.
  induction parts as [|part rest IH]; intros cur r Hcur.
  - simpl. destruct value as [v|]; [|by intros [= <-]].
    intros H. by eapply lxml_set_text_valid.
  - cbn [LxmlBuilder.walk].
    destruct (Str.split_once "@" part) as [[elem_tag attr_name]|].
    + assert (forall c c', valid_tree c = true ->
                match value with
                | Some v => lxml.set attr_name v c
                | None => Ok c
                end = Ok c' -> valid_tree c' = true) as Hset.
      { intros c c' Hc. destruct value; [|by intros [= <-]].
        intros H. by eapply lxml_set_valid. }
      destruct (Str.truthy elem_tag); [|by apply Hset].
      apply descend_valid; [apply or_else_clean|done|done].
    + apply descend_valid; [apply or_else_clean|done|].
      intros c c' Hc. by apply IH.
Qed.

(** A segment lxml refuses as a name stops the call: no tree lxml can
    hold has a child of that name, and none can be created. *)
Lemma walk_aborts pre seg rest value :
  element_only pre ->
  Str.contains "@" seg = false ->
  lxml.name_ok seg = false ->
  forall cur, valid_tree cur = true ->
  exists err,
    LxmlBuilder.walk uri_ok dns (pre ++ seg :: rest) value cur = Raise err.
Proof.
  intros Hpre Hseg Hname.
  induction Hpre as [|part pre Hpart Hpre IH]; intros cur Hcur.
  - cbn [app LxmlBuilder.walk]. rewrite split_once_None by done.
    unfold LxmlBuilder.descend, LxmlBuilder.find_or_create.
    rewrite find_child_refused;
      [|by rewrite tag_ok_QName, Hname, andb_false_r by apply or_else_clean
       |done].
    destruct (QName_text_raise (or_else (get_ns cur) dns) seg Hname)
      as [err ->].
    by exists err.
  - rewrite <- app_comm_cons. cbn [LxmlBuilder.walk].
    rewrite split_once_None by done.
    apply descend_raise; [apply or_else_clean|done|done].
Qed.

(** With names lxml accepts before it, the error is that of the
    refused name. *)
Lemma walk_refused pre seg rest value :
  plain_ns dns = true -> Str.truthy dns = true -> uri_ok dns = true ->
  Forall (fun p => lxml.name_ok p = true) pre ->
  Str.contains "@" seg = false ->
  lxml.text_ok seg = true ->
  lxml.name_ok seg = false ->
  forall cur,
    or_else (get_ns cur) dns = dns -> valid_tree cur = true ->
    LxmlBuilder.walk uri_ok dns (pre ++ seg :: rest) value cur
      = Raise (lxml.invalid_tag_name seg).
Proof.
  intros Hplain Htruthy Huri Hpre Hseg Htext Hname.
  destruct (plain_ns_inv dns Hplain) as (Hdtext & Hbrace & _).
  induction Hpre as [|part pre Hpart Hpre IH]; intros cur Hns Hcur.
  - cbn [app LxmlBuilder.walk]. rewrite split_once_None by done.
    rewrite Hns.
    unfold LxmlBuilder.descend, LxmlBuilder.find_or_create.
    rewrite find_child_refused;
      [|by rewrite tag_ok_QName, Hname, andb_false_r|done].
    by rewrite QName_text_refused.
  - rewrite <- app_comm_cons. cbn [LxmlBuilder.walk].
    rewrite name_ok_element_segment by done. rewrite Hns.
    unfold LxmlBuilder.descend.
    destruct (LxmlBuilder.find_or_create uri_ok cur dns part) as [cur'|] eqn:Hf;
      [|by rewrite find_or_create_agrees in Hf].
    rewrite bind_Ok.
    destruct (find_or_create_valid _ _ _ _ Hdns Hcur Hf) as (Hv & c & Hc).
    apply valid_tree_true in Hv as [_ Hkids].
    erewrite modify_firstM_raise; [done|exact Hc|].
    apply IH; [|by eapply find_child_valid].
    apply find_child_Some_tag in Hc. by eapply child_namespace.
Qed.

End checked_walk.

(** ** A rule whose target lxml refuses *)

Lemma foldlM_raise_inv {A B} (I : A -> Prop) (f : A -> B -> result A)
    (l : list B) b :
  b ∈ l ->
  (forall a, I a -> exists err, f a b = Raise err) ->
  (forall a b' a', I a -> f a b' = Ok a' -> I a') ->
  forall a, I a -> exists err, foldlM f a l = Raise err.
Proof.
  intros Hin Hb Hstep. induction l as [|b' l IH]; intros a Ha.
  - by apply elem_of_nil in Hin.
  - simpl. apply elem_of_cons in Hin as [<-|Hin].
    + destruct (Hb a Ha) as [err ->]. by exists err.
    + destruct (f a b') as [a'|err] eqn:Hf; [|by exists err].
      rewrite bind_Ok. apply IH; [done|]. by eapply Hstep.
Qed.

Lemma ensure_path_valid uri_ok tx path value r :
  valid_tree tx = true ->
  LxmlBuilder._ensure_path uri_ok tx path value = Ok r -> valid_tree r = true.
Proof. apply walk_valid, default_ns_clean. Qed.

Lemma filter_nonempty_names pre :
  Forall (fun p => p = "" \/ lxml.name_ok p = true) pre ->
  Forall (fun p => lxml.name_ok p = true) (filter (fun p => p <> "") pre).
Proof.
  induction 1 as [|p pre [->|Hp] _ IH]; [done|done|].
  rewrite filter_cons_True by by destruct p. by constructor.
Qed.

Lemma filter_element_only (P : string -> Prop) `{!forall p, Decision (P p)}
    pre :
  element_only pre -> element_only (filter P pre).
Proof.
  unfold element_only. rewrite !Forall_forall. intros Hall p Hp.
  apply Hall. by apply list_elem_of_filter in Hp as [_ ?].
Qed.

Section refused_target.
Variable uri_ok : string -> bool.
Variables (path value : string) (pre post : list string) (seg : string).
Hypothesis Hpath : path_parts path = pre ++ seg :: post.
Hypothesis Hpre : element_only pre.
Hypothesis Hseg : Str.contains "@" seg = false.
Hypothesis Hname : lxml.name_ok seg = false.

Lemma ensure_path_aborts tx :
  valid_tree tx = true ->
  exists err, LxmlBuilder._ensure_path uri_ok tx path (Some value) = Raise err.
Proof.
  intros Htx. unfold LxmlBuilder._ensure_path. rewrite Hpath.
  by apply walk_aborts; [apply default_ns_clean|..].
Qed.

Lemma ensure_fields_aborts fields tx :
  (path, value) ∈ fields -> valid_tree tx = true ->
  exists err, LxmlBuilder.ensure_fields uri_ok tx fields = Raise err.
Proof.
  intros Hin. unfold LxmlBuilder.ensure_fields.
  apply (foldlM_raise_inv (fun tx => valid_tree tx = true) _ _ _ Hin).
  - intros tx' Htx'. by apply ensure_path_aborts.
  - intros tx' [p v] tx'' Htx' Hstep. by eapply ensure_path_valid.
Qed.

Lemma append_tx_aborts cfg fields container :
  (path, value) ∈ fields ->
  exists err, LxmlBuilder.append_tx uri_ok cfg fields container = Raise err.
Proof.
  intros Hin. unfold LxmlBuilder.append_tx.
  destruct (_uri cfg "msg") as [msg_ns|err]; [|by exists err].
  rewrite bind_Ok.
  destruct (lxml.QName_text msg_ns "Tx") as [t|err]; [|by exists err].
  rewrite bind_Ok.
  destruct (lxml.Element uri_ok t) as [tx|err] eqn:Htx; [|by exists err].
  rewrite bind_Ok. apply Element_Ok in Htx as [Htx Htag].
  assert (valid_tree tx = true) as Hvalid
    by (rewrite Htx; by apply valid_tree_true).
  assert (exists m,
            m = match find_child (QName msg_ns "New") (child_nodes tx) with
                | Some _ => Ok tx
                | None =>
                    t0 ← lxml.QName_text msg_ns "New";
                    new_el ← lxml.Element uri_ok t0;
                    Ok (append_child tx new_el)
                end
            /\ forall tx', m = Ok tx' -> valid_tree tx' = true)
    as (m & <- & Hm).
  { eexists. split; [done|]. intros tx'.
    destruct (find_child _ _); [by intros [= <-]|].
    destruct (lxml.QName_text msg_ns "New") as [t0|]; [|done].
    rewrite bind_Ok.
    destruct (lxml.Element uri_ok t0) as [new_el|] eqn:Hnew; [|done].
    rewrite bind_Ok. intros [= <-].
    apply Element_Ok in Hnew as [Hnew Hnewtag].
    apply valid_tree_true in Hvalid as [? Hkids].
    apply valid_with_children; [done|]. apply Forall_app. split; [done|].
    constructor; [|done]. rewrite Hnew. by apply valid_tree_true. }
  destruct m as [tx'|err]; [|by exists err]. rewrite bind_Ok.
  destruct (ensure_fields_aborts fields tx' Hin (Hm tx' eq_refl)) as [err ->].
  by exists err.
Qed.

Lemma generate_aborts cfg w rows row fields :
  row ∈ rows ->
  to_xml_fields cfg w (mkTradeRecord row) = Ok fields ->
  (path, value) ∈ fields ->
  exists err, LxmlBuilder.generate uri_ok cfg w rows = Raise err.
Proof.
  intros Hrow Hfields Hin. unfold LxmlBuilder.generate.
  destruct (build_root cfg w) as [[root0 container]|err] eqn:Hroot;
    [|by exists err].
  rewrite bind_Ok. cbv beta iota.
  destruct (build_root_container _ _ _ _ Hroot) as (msg_ns & _ & Hnode).
  destruct (foldlM_raise_inv (fun a => is_Some (node_at container a))
              (fun root row =>
                 fields ← to_xml_fields cfg w (mkTradeRecord row);
                 at_path container (LxmlBuilder.append_tx uri_ok cfg fields)
                   root)
              rows row Hrow) with (a := root0) as [err Herr].
  - intros a [c Hc]. rewrite Hfields, bind_Ok, (at_path_node _ _ _ _ Hc).
    destruct (append_tx_aborts cfg fields c Hin) as [err ->]. by exists err.
  - intros a row' a' [c Hc].
    destruct (to_xml_fields cfg w (mkTradeRecord row')) as [fields'|]; [|done].
    rewrite bind_Ok, (at_path_node _ _ _ _ Hc).
    destruct (LxmlBuilder.append_tx uri_ok cfg fields' c) as [c'|]; [|done].
    rewrite bind_Ok. intros [= <-]. rewrite node_at_update_at, Hc. by eexists.
  - by eexists.
  - rewrite Herr. by exists err.
Qed.

End refused_target.




Example refused_name_behind_names :
  LxmlBuilder._ensure_path ex_uri_ok ex_tx "Pric/zz:Foo/Amt" (Some "1")
  = Raise (lxml.invalid_tag_name "zz:Foo").
Proof. by vm_compute. Qed.
